(** * Provenance-integrity validation: a shallow embedding

    Embedding of the provenance validation scripts
    [jcaa_2026-02-19/scripts/run_provenance_extended_validation.py] and
    [jcaa_2026-02-19/scripts/run_llm_provenance_validation.py]:
    canonical JSON and SHA-256 fingerprints, the provenance builder, the
    one-hop and two-hop audits, the fault-injection scenarios and their
    metrics.

    Modelling conventions.
    - A Python [str] is a [string]; each character is one code point below
      256, so the model covers the Latin-1 part of Unicode.
    - A Python [dict] is an association list in insertion order with
      pairwise distinct keys; [dict_set] overwrites in place or appends,
      as assignment to a key does.
    - A Python exception is a [Raise] in the [result] type.
    - A Python [float] is an IEEE-754 binary64 number, held as the exact
      rational it stands for.  The product in [inject_indices] is rounded
      as Python rounds it: to the nearest such number, a tie going to the
      even one, a result of magnitude [2^1024] or more being an infinity.
      The quotients of the metrics are kept exact (see [truediv]).
    - Dict objects that the scripts mutate live in an object store
      ([heap]); a list of records is then a list of addresses. *)

From Stdlib Require Import ZArith QArith Qround Qabs Qpower Bool List String.
From Stdlib Require Import Ascii Arith Lia Lqa.
From Stdlib Require Import DecimalString Permutation Sorted.
Import ListNotations.

Close Scope Q_scope.
Open Scope string_scope.

(** ** Python exceptions and results *)

Inductive exn : Type :=
| TypeError
| ZeroDivisionError
| IndexError
| OverflowError
| ValueError.

Inductive result (A : Type) : Type :=
| Ok (a : A)
| Raise (e : exn).

Arguments Ok {A} a.
Arguments Raise {A} e.

Definition rbind {A B} (r : result A) (k : A -> result B) : result B :=
  match r with
  | Ok a => k a
  | Raise e => Raise e
  end.

Fixpoint rmap_list {A B} (f : A -> result B) (l : list A) : result (list B) :=
  match l with
  | [] => Ok []
  | x :: l' =>
      rbind (f x) (fun y => rbind (rmap_list f l') (fun ys => Ok (y :: ys)))
  end.

(** ** Python values held in records *)

(** The scalars a flat JSON record holds, and [VObject] for any other
    Python object (a set, bytes, an instance of a class): the audit code
    observes of it only its [str()] text and its truth value, and
    [json.dumps] refuses it.  Floats and nested lists or dicts as field
    values are not modelled. *)
Inductive value : Type :=
| VNone
| VBool (b : bool)
| VInt (z : Z)
| VStr (s : string)
| VObject (text : string) (truth : bool).

Definition record : Type := list (string * value).

(** Python [bool(v)]. *)
Definition truthy (v : value) : bool :=
  match v with
  | VNone => false
  | VBool b => b
  | VInt z => negb (z =? 0)%Z
  | VStr s => negb (s =? "")
  | VObject _ t => t
  end.

(** Python [str(v)]. *)
Definition py_str (v : value) : string :=
  match v with
  | VNone => "None"
  | VBool true => "True"
  | VBool false => "False"
  | VInt z => NilZero.string_of_int (Z.to_int z)
  | VStr s => s
  | VObject text _ => text
  end.

(** ** Dict operations *)

Section Dict.
Context {V : Type}.

(** [d.get(k)]: [None] when the key is absent. *)
Fixpoint dict_get (d : list (string * V)) (k : string) : option V :=
  match d with
  | [] => None
  | (k', v) :: d' => if k' =? k then Some v else dict_get d' k
  end.

(** [d[k] = v]. *)
Fixpoint dict_set (d : list (string * V)) (k : string) (v : V)
  : list (string * V) :=
  match d with
  | [] => [(k, v)]
  | (k', v') :: d' =>
      if k' =? k then (k', v) :: d' else (k', v') :: dict_set d' k v
  end.

(** [{k: v for k, v in pairs}]: later pairs overwrite earlier ones. *)
Definition dict_of_pairs (pairs : list (string * V)) : list (string * V) :=
  fold_left (fun d kv => dict_set d (fst kv) (snd kv)) pairs [].

Definition dict_keys (d : list (string * V)) : list string := map fst d.

(** Truth value of a dict: empty is false. *)
Definition dict_truthy (d : list (string * V)) : bool :=
  match d with
  | [] => false
  | _ :: _ => true
  end.
End Dict.

(** [d.get(k, default)]. *)
Definition get_default (d : record) (k : string) (default : value) : value :=
  match dict_get d k with
  | Some v => v
  | None => default
  end.

(** [str(d.get(k, ""))], the way both audits read a field. *)
Definition field_text (d : record) (k : string) : string :=
  py_str (get_default d k (VStr "")).

(** [not d.get(k)] negated: the field is present and truthy. *)
Definition field_truthy (d : record) (k : string) : bool :=
  match dict_get d k with
  | Some v => truthy v
  | None => false
  end.

(** A Python [set] of strings, kept as a duplicate-free list. *)
Definition str_set : Type := list string.

Definition set_of_list (l : list string) : str_set := nodup string_dec l.

Definition set_mem (x : string) (s : str_set) : bool :=
  existsb (String.eqb x) s.

(** ** SHA-256 (hashlib.sha256), on 32-bit words held in [Z] *)

Module SHA256.
Local Open Scope Z_scope.

Definition w32 (x : Z) : Z := x mod 4294967296.
Definition add32 (x y : Z) : Z := w32 (x + y).
Definition rotr (n x : Z) : Z :=
  Z.lor (Z.shiftr x n) (w32 (Z.shiftl x (32 - n))).
Definition not32 (x : Z) : Z := Z.lxor x 4294967295.

Definition Ch (x y z : Z) : Z := Z.lxor (Z.land x y) (Z.land (not32 x) z).
Definition Maj (x y z : Z) : Z :=
  Z.lxor (Z.lxor (Z.land x y) (Z.land x z)) (Z.land y z).
Definition bsig0 (x : Z) : Z :=
  Z.lxor (Z.lxor (rotr 2 x) (rotr 13 x)) (rotr 22 x).
Definition bsig1 (x : Z) : Z :=
  Z.lxor (Z.lxor (rotr 6 x) (rotr 11 x)) (rotr 25 x).
Definition ssig0 (x : Z) : Z :=
  Z.lxor (Z.lxor (rotr 7 x) (rotr 18 x)) (Z.shiftr x 3).
Definition ssig1 (x : Z) : Z :=
  Z.lxor (Z.lxor (rotr 17 x) (rotr 19 x)) (Z.shiftr x 10).

(** The round constants and the initial state are the first 32 bits of the
    fractional parts of the cube roots of the first 64 primes and of the
    square roots of the first 8 (FIPS 180-4). *)
Definition is_prime (n : nat) : bool :=
  forallb (fun d => negb (n mod d =? 0)%nat) (seq 2 (n - 2)).

Definition primes : list Z :=
  map Z.of_nat (filter is_prime (seq 2 310)).

(** The largest [r] below [2 ^ bits] with [r ^ k <= x], bit by bit. *)
Fixpoint root_bits (k : Z) (bits : nat) (x r : Z) : Z :=
  match bits with
  | O => r
  | S b =>
      let c := r + 2 ^ Z.of_nat b in
      root_bits k b x (if c ^ k <=? x then c else r)
  end.

Definition frac_root32 (k p : Z) : Z :=
  w32 (root_bits k 40 (p * 2 ^ (32 * k)) 0).

Definition K : list Z := Eval vm_compute in map (frac_root32 3) primes.

Record state : Type := mkState {
  ha : Z; hb : Z; hc : Z; hd : Z; he : Z; hf : Z; hg : Z; hh : Z
}.

Definition state_of_list (l : list Z) : state :=
  match l with
  | a :: b :: c :: d :: e :: f :: g :: h :: _ => mkState a b c d e f g h
  | _ => mkState 0 0 0 0 0 0 0 0
  end.

Definition H0 : state :=
  Eval vm_compute in state_of_list (map (frac_root32 2) primes).

(** Message schedule: the 16 block words extended to 64. *)
Fixpoint extend (n : nat) (w : list Z) : list Z :=
  match n with
  | O => w
  | S n' =>
      let t := List.length w in
      let x :=
        add32 (add32 (ssig1 (nth (t - 2) w 0)) (nth (t - 7) w 0))
              (add32 (ssig0 (nth (t - 15) w 0)) (nth (t - 16) w 0)) in
      extend n' (w ++ [x])%list
  end.

Definition round (s : state) (kw : Z * Z) : state :=
  let t1 :=
    add32 (add32 (add32 (hh s) (bsig1 (he s))) (Ch (he s) (hf s) (hg s)))
          (add32 (fst kw) (snd kw)) in
  let t2 := add32 (bsig0 (ha s)) (Maj (ha s) (hb s) (hc s)) in
  mkState (add32 t1 t2) (ha s) (hb s) (hc s)
          (add32 (hd s) t1) (he s) (hf s) (hg s).

Definition compress (s : state) (block : list Z) : state :=
  let r := fold_left round (combine K (extend 48 block)) s in
  mkState (add32 (ha s) (ha r)) (add32 (hb s) (hb r))
          (add32 (hc s) (hc r)) (add32 (hd s) (hd r))
          (add32 (he s) (he r)) (add32 (hf s) (hf r))
          (add32 (hg s) (hg r)) (add32 (hh s) (hh r)).

(** Big-endian 32-bit words of a byte list. *)
Fixpoint words (bs : list Z) : list Z :=
  match bs with
  | b0 :: b1 :: b2 :: b3 :: rest =>
      (b0 * 16777216 + b1 * 65536 + b2 * 256 + b3) :: words rest
  | _ => []
  end.

Fixpoint be_bytes (n : nat) (x : Z) : list Z :=
  match n with
  | O => []
  | S n' => (be_bytes n' (x / 256) ++ [x mod 256])%list
  end.

Definition pad (msg : list Z) : list Z :=
  let len := Z.of_nat (List.length msg) in
  (msg ++ [128] ++ repeat 0 (Z.to_nat ((55 - len) mod 64))
       ++ be_bytes 8 (8 * len))%list.

Fixpoint blocks (n : nat) (ws : list Z) : list (list Z) :=
  match n with
  | O => []
  | S n' => firstn 16 ws :: blocks n' (skipn 16 ws)
  end.

Definition digest (msg : list Z) : state :=
  let ws := words (pad msg) in
  fold_left compress (blocks (List.length ws / 16) ws) H0.

Definition hexdigit (d : Z) : ascii :=
  if d <? 10 then ascii_of_N (Z.to_N (48 + d))
  else ascii_of_N (Z.to_N (87 + d)).

Definition nib (w : Z) (i : Z) : ascii :=
  hexdigit (Z.shiftr w (4 * i) mod 16).

Definition hex8 (w : Z) (tail : string) : string :=
  String (nib w 7) (String (nib w 6) (String (nib w 5) (String (nib w 4)
 (String (nib w 3) (String (nib w 2) (String (nib w 1) (String (nib w 0)
  tail))))))).

Definition hex_of_state (s : state) : string :=
  hex8 (ha s) (hex8 (hb s) (hex8 (hc s) (hex8 (hd s)
 (hex8 (he s) (hex8 (hf s) (hex8 (hg s) (hex8 (hh s) ""))))))).

(** [s.encode("utf-8")] for code points below 256. *)
Fixpoint utf8 (s : string) : list Z :=
  match s with
  | EmptyString => []
  | String c s' =>
      let n := Z.of_N (N_of_ascii c) in
      if n <? 128 then n :: utf8 s'
      else (192 + n / 64) :: (128 + n mod 64) :: utf8 s'
  end.

(** [hashlib.sha256(s.encode("utf-8")).hexdigest()]. *)
Definition hexdigest (s : string) : string :=
  hex_of_state (digest (utf8 s)).
End SHA256.

(** ** Canonical JSON (json.dumps with sort_keys, ensure_ascii and the
       separators [","] and [":"]) *)

Definition dquote : ascii := "034"%char.
Definition backslash : ascii := "092"%char.

Definition hex_low (n : N) : ascii :=
  if (n <? 10)%N then ascii_of_N (48 + n) else ascii_of_N (87 + n).

(** One character inside a JSON string under [ensure_ascii=True]: the
    short escapes, printable ASCII as it is, anything else as a four-digit
    lowercase escape. *)
Definition json_escape_char (c : ascii) : string :=
  let n := N_of_ascii c in
  let esc (x : ascii) := String backslash (String x "") in
  if (n =? 34)%N then esc dquote
  else if (n =? 92)%N then esc backslash
  else if (n =? 10)%N then esc "n"%char
  else if (n =? 13)%N then esc "r"%char
  else if (n =? 9)%N then esc "t"%char
  else if (n =? 8)%N then esc "b"%char
  else if (n =? 12)%N then esc "f"%char
  else if ((32 <=? n) && (n <=? 126))%N then String c ""
  else String backslash
         (String "u" (String "0" (String "0"
           (String (hex_low (n / 16)) (String (hex_low (n mod 16)) ""))))).

Fixpoint json_escape (s : string) : string :=
  match s with
  | EmptyString => ""
  | String c s' => json_escape_char c ++ json_escape s'
  end.

Definition quoted (s : string) : string :=
  String dquote (s ++ String dquote "").

Definition json_string (s : string) : string := quoted (json_escape s).

(** A field value; an object that is no JSON type raises [TypeError]. *)
Definition json_value (v : value) : result string :=
  match v with
  | VNone => Ok "null"
  | VBool true => Ok "true"
  | VBool false => Ok "false"
  | VInt z => Ok (NilZero.string_of_int (Z.to_int z))
  | VStr s => Ok (json_string s)
  | VObject _ _ => Raise TypeError
  end.

(** [sorted(d.items())]: insertion of an item by key, in code-point order. *)
Fixpoint insert_item (kv : string * value) (l : record) : record :=
  match l with
  | [] => [kv]
  | kv' :: l' =>
      if String.leb (fst kv) (fst kv') then kv :: l
      else kv' :: insert_item kv l'
  end.

Definition sort_items (d : record) : record :=
  fold_right insert_item [] d.

Definition json_item (kv : string * value) : result string :=
  rbind (json_value (snd kv))
        (fun v => Ok (json_string (fst kv) ++ ":" ++ v)).

Fixpoint join (sep : string) (l : list string) : string :=
  match l with
  | [] => ""
  | [x] => x
  | x :: l' => x ++ sep ++ join sep l'
  end.

(** [canonical_json(value)] for a record. *)
Definition canonical_json (d : record) : result string :=
  rbind (rmap_list json_item (sort_items d))
        (fun items => Ok ("{" ++ join "," items ++ "}")).

(** [sha256_value(value)] for a record. *)
Definition sha256_value (d : record) : result string :=
  rbind (canonical_json d) (fun s => Ok (SHA256.hexdigest s)).

(** [source_hashes = [sha256_value(x) for x in source]], the first step of
    [eval_stream] and of [run_stream]; nothing around it catches an
    exception. *)
Definition source_fingerprints (source : list record) : result (list string) :=
  rmap_list sha256_value source.

(** ** The provenance builder and the audits *)

(** [transform_provenance(rec, mandatory_fields, parent_hash, generated_at)]. *)
Definition transform_provenance (rec : record) (mandatory_fields : list string)
    (parent_hash generated_at : string) : record :=
  let out :=
    [ ("generated_label", VStr "DERIVED_RECORD");
      ("generated_by", VStr "deterministic_transform_v2");
      ("generated_at", VStr generated_at);
      ("parent_sha256", VStr parent_hash);
      ("summary", VStr "") ] in
  fold_left (fun out f => dict_set out f (get_default rec f (VStr "")))
            mandatory_fields out.

Definition lineage_keys : list string :=
  ["generated_label"; "generated_by"; "generated_at"; "parent_sha256"].

(** [lineage_complete(derived)], the same function in both scripts. *)
Definition lineage_complete (derived : record) : bool :=
  forallb (field_truthy derived) lineage_keys.

(** The loop over the mandatory fields that closes every audit. *)
Definition context_preserved (derived src : record)
    (mandatory_fields : list string) : bool :=
  forallb (fun f => field_text derived f =? field_text src f) mandatory_fields.

(** [audit_record] of the extended validation script. *)
Definition audit_record (source_hashes : str_set)
    (source_by_hash : list (string * record)) (derived : record)
    (mandatory_fields : list string) : bool :=
  if negb (lineage_complete derived) then false
  else
    let parent := field_text derived "parent_sha256" in
    if negb (set_mem parent source_hashes) then false
    else
      match dict_get source_by_hash parent with
      | None => false
      | Some src =>
          if negb (dict_truthy src) then false
          else context_preserved derived src mandatory_fields
      end.

(** [audit_one_hop] of the LLM validation script. *)
Definition audit_one_hop (source_hashes : str_set)
    (source_by_hash : list (string * record)) (derived : record)
    (mandatory_fields : list string) : bool :=
  if negb (lineage_complete derived) then false
  else
    let parent := field_text derived "parent_sha256" in
    if negb (set_mem parent source_hashes) then false
    else
      match dict_get source_by_hash parent with
      | None => false
      | Some src =>
          if negb (dict_truthy src) then false
          else context_preserved derived src mandatory_fields
      end.

(** [audit_two_hop] of the LLM validation script. *)
Definition audit_two_hop (source_hashes : str_set)
    (source_by_hash : list (string * record)) (hop1_hashes : str_set)
    (hop1_by_hash : list (string * record)) (derived : record)
    (mandatory_fields : list string) : bool :=
  if negb (lineage_complete derived) then false
  else
    let parent := field_text derived "parent_sha256" in
    let ancestor := field_text derived "ancestor_source_sha256" in
    if negb (set_mem parent hop1_hashes) then false
    else if negb (set_mem ancestor source_hashes) then false
    else
      match dict_get hop1_by_hash parent with
      | None => false
      | Some hop1 =>
          if negb (dict_truthy hop1) then false
          else if negb (field_text hop1 "parent_sha256" =? ancestor) then false
          else
            match dict_get source_by_hash ancestor with
            | None => false
            | Some src =>
                if negb (dict_truthy src) then false
                else context_preserved derived src mandatory_fields
            end
      end.

(** ** The audits, operation by operation *)

(** The audits observe the value of a field through [str(x)] and
    [bool(x)] only.  A Python object is here what these two return or
    raise; for a [value] both return. *)
Record pyobj : Type := mkObj {
  obj_str : result string;
  obj_bool : result bool
}.

Definition of_value (v : value) : pyobj :=
  mkObj (Ok (py_str v)) (Ok (truthy v)).

(** A dict whose values are any objects. *)
Definition objects : Type := list (string * pyobj).

Definition of_record (d : record) : objects :=
  map (fun kv => (fst kv, of_value (snd kv))) d.

Definition of_map (m : list (string * record)) : list (string * objects) :=
  map (fun kv => (fst kv, of_record (snd kv))) m.

(** [bool(d.get(k))]: [None] when the key is absent, which is false. *)
Definition get_truth (d : objects) (k : string) : result bool :=
  match dict_get d k with
  | Some o => obj_bool o
  | None => Ok false
  end.

(** [str(d.get(k, ""))]. *)
Definition get_text (d : objects) (k : string) : result string :=
  match dict_get d k with
  | Some o => obj_str o
  | None => Ok ""
  end.

(** [for k in keys: if not rec.get(k): return False] and [return True]. *)
Fixpoint lineage_loop (rec : objects) (keys : list string) : result bool :=
  match keys with
  | [] => Ok true
  | k :: keys' =>
      rbind (get_truth rec k) (fun t =>
      if negb t then Ok false else lineage_loop rec keys')
  end.

Definition lineage_complete_run (rec : objects) : result bool :=
  lineage_loop rec lineage_keys.

(** [for f in mandatory_fields:
       if str(derived.get(f, "")) != str(src.get(f, "")): return False]
    and [return True]. *)
Fixpoint context_loop (derived src : objects) (fields : list string)
  : result bool :=
  match fields with
  | [] => Ok true
  | f :: fields' =>
      rbind (get_text derived f) (fun a =>
      rbind (get_text src f) (fun b =>
      if negb (a =? b) then Ok false else context_loop derived src fields'))
  end.

(** [audit_record], statement by statement. *)
Definition audit_record_run (source_hashes : str_set)
    (source_by_hash : list (string * objects)) (derived : objects)
    (mandatory_fields : list string) : result bool :=
  rbind (lineage_complete_run derived) (fun complete =>
  if negb complete then Ok false
  else
    rbind (get_text derived "parent_sha256") (fun parent =>
    if negb (set_mem parent source_hashes) then Ok false
    else
      match dict_get source_by_hash parent with
      | None => Ok false
      | Some src =>
          if negb (dict_truthy src) then Ok false
          else context_loop derived src mandatory_fields
      end)).

(** [audit_one_hop], statement by statement. *)
Definition audit_one_hop_run (source_hashes : str_set)
    (source_by_hash : list (string * objects)) (derived : objects)
    (mandatory_fields : list string) : result bool :=
  rbind (lineage_complete_run derived) (fun complete =>
  if negb complete then Ok false
  else
    rbind (get_text derived "parent_sha256") (fun parent =>
    if negb (set_mem parent source_hashes) then Ok false
    else
      match dict_get source_by_hash parent with
      | None => Ok false
      | Some src =>
          if negb (dict_truthy src) then Ok false
          else context_loop derived src mandatory_fields
      end)).

(** [audit_two_hop], statement by statement: both pointers are read
    before either is looked up. *)
Definition audit_two_hop_run (source_hashes : str_set)
    (source_by_hash : list (string * objects)) (hop1_hashes : str_set)
    (hop1_by_hash : list (string * objects)) (derived : objects)
    (mandatory_fields : list string) : result bool :=
  rbind (lineage_complete_run derived) (fun complete =>
  if negb complete then Ok false
  else
    rbind (get_text derived "parent_sha256") (fun parent =>
    rbind (get_text derived "ancestor_source_sha256") (fun ancestor =>
    if negb (set_mem parent hop1_hashes) then Ok false
    else if negb (set_mem ancestor source_hashes) then Ok false
    else
      match dict_get hop1_by_hash parent with
      | None => Ok false
      | Some hop1 =>
          if negb (dict_truthy hop1) then Ok false
          else
            rbind (get_text hop1 "parent_sha256") (fun hop1_parent =>
            if negb (hop1_parent =? ancestor) then Ok false
            else
              match dict_get source_by_hash ancestor with
              | None => Ok false
              | Some src =>
                  if negb (dict_truthy src) then Ok false
                  else context_loop derived src mandatory_fields
              end)
      end))).

(** ** Fault injection: index selection *)

(** [random.Random(seed).shuffle]: the generator is the Python library's;
    the embedding takes any seeded shuffle that permutes its argument. *)
Class Shuffler : Type := {
  shuffle : Z -> list nat -> list nat;
  shuffle_perm : forall seed l, Permutation l (shuffle seed l)
}.

(** [int(x)] on a number: truncation towards zero. *)
Definition py_int (x : Q) : Z := Z.quot (Qnum x) (Zpos (Qden x)).

(** [sorted(l)] on a list of ints. *)
Fixpoint insert_nat (x : nat) (l : list nat) : list nat :=
  match l with
  | [] => [x]
  | y :: l' => if Nat.leb x y then x :: l else y :: insert_nat x l'
  end.

Definition sorted_nat (l : list nat) : list nat := fold_right insert_nat [] l.

(** *** Floats *)

(** [2^e], for any integer [e]. *)
Definition pow2 (e : Z) : Q := Qpower 2 e.

(** [floor(log2 x)] for a positive rational. *)
Definition ilog2 (x : Q) : Z :=
  let e := (Z.log2 (Qnum x) - Z.log2 (Zpos (Qden x)))%Z in
  if Qle_bool (pow2 e) x then e else (e - 1)%Z.

(** The integer nearest to [y], a tie going to the even one. *)
Definition round_half_even (y : Q) : Z :=
  let q := Qfloor y in
  match (y - inject_Z q ?= 1 # 2)%Q with
  | Lt => q
  | Gt => (q + 1)%Z
  | Eq => if Z.even q then q else (q + 1)%Z
  end.

(** The binary64 number nearest to [x]: 53 significant bits, least
    exponent [-1074], ties to even.  A value that [double_overflows] is
    what rounds to an infinity. *)
Definition double_round (x : Q) : Q :=
  if Qeq_bool x 0 then 0%Q
  else
    let e := Z.max (ilog2 (Qabs x) - 52) (-1074) in
    (inject_Z (round_half_even (x * pow2 (- e))) * pow2 e)%Q.

Definition double_overflows (x : Q) : bool := Qle_bool (pow2 1024) (Qabs x).

(** [float(n)] of an int, as [n * frac] converts [n]; it raises
    [OverflowError] when [double_overflows]. *)
Definition float_of_int (n : Z) : Q := double_round (inject_Z n).

(** A float argument or literal [frac], given by the rational it is
    written as ([0.10] is [1 # 10]): the float is the nearest binary64
    number, an infinity when that overflows.  NaN is not modelled. *)
Definition float_of_literal (frac : Q) : Q := double_round frac.

(** [x * y] on finite floats. *)
Definition float_mul (x y : Q) : Q := double_round (x * y).

(** [k = max(1, int(n * frac))] when the product is finite: the int is
    converted to a float, the product is rounded to a float, and [int]
    truncates it. *)
Definition inject_count (n : nat) (frac : Q) : Z :=
  Z.max 1 (py_int (float_mul (float_of_int (Z.of_nat n))
                             (float_of_literal frac))).

(** [k = max(1, int(n * frac))] with the exceptions it can raise:
    [float(n)] raises [OverflowError] on an int beyond the floats; [int]
    raises [OverflowError] on an infinity and [ValueError] on the NaN that
    [0.0 * inf] is. *)
Definition inject_count_call (n : nat) (frac : Q) : result Z :=
  let fn := float_of_int (Z.of_nat n) in
  let f := float_of_literal frac in
  if double_overflows fn then Raise OverflowError
  else if double_overflows f then
    if (n =? 0)%nat then Raise ValueError else Raise OverflowError
  else if double_overflows (float_mul fn f) then Raise OverflowError
  else Ok (Z.max 1 (py_int (float_mul fn f))).

(** [inject_indices(n, frac, seed)], the same function in both scripts:
    the list it returns when [n * frac] is finite. *)
Definition inject_indices `{Shuffler} (n : nat) (frac : Q) (seed : Z)
  : list nat :=
  let k := inject_count n frac in
  let idxs := shuffle seed (seq 0 n) in
  sorted_nat (firstn (Z.to_nat k) idxs).

(** The generators of Python's [random] module as [inject_indices] uses
    them: [random.Random(seed)] makes a generator object of its own, in a
    state the seed determines; [rng.shuffle(l)] permutes [l] and advances
    that generator. *)
Class Generator : Type := {
  rng : Type;
  seeded : Z -> rng;
  shuffle_with : rng -> list nat -> list nat * rng;
  shuffle_with_perm : forall g l, Permutation l (fst (shuffle_with g l))
}.

(** The shuffle of a freshly seeded generator. *)
Definition seeded_shuffler (G : Generator) : Shuffler :=
  {| shuffle := fun seed l => fst (shuffle_with (seeded seed) l);
     shuffle_perm := fun seed l => shuffle_with_perm (seeded seed) l |}.

(** The generators of a running interpreter: the hidden one behind the
    module-level functions ([random.shuffle], [random.random]) and the
    generator objects made so far. *)
Record randoms `{Generator} : Type := mkRandoms {
  module_rng : rng;
  generator_objects : list rng
}.

(** A call [inject_indices(n, frac, seed)], statement by statement:
    [rng = random.Random(seed)], [k = max(1, int(n * frac))],
    [idxs = list(range(n))], [rng.shuffle(idxs)],
    [return sorted(idxs[:k])]. *)
Definition inject_indices_call `{Generator} (n : nat) (frac : Q) (seed : Z)
    (w : randoms) : result (list nat) * randoms :=
  let g := seeded seed in
  match inject_count_call n frac with
  | Raise e =>
      (Raise e, {| module_rng := module_rng w;
                   generator_objects := (generator_objects w ++ [g])%list |})
  | Ok k =>
      let idxs := seq 0 n in
      let shuffled := shuffle_with g idxs in
      (Ok (sorted_nat (firstn (Z.to_nat k) (fst shuffled))),
       {| module_rng := module_rng w;
          generator_objects := (generator_objects w ++ [snd shuffled])%list |})
  end.

(** A shuffle to run the definitions with: a seeded draw without
    replacement, positions taken from a linear congruential sequence. *)
Fixpoint take_out (i : nat) (l : list nat) : option (nat * list nat) :=
  match l, i with
  | [], _ => None
  | x :: l', O => Some (x, l')
  | x :: l', S i' =>
      match take_out i' l' with
      | Some (y, r) => Some (y, x :: r)
      | None => None
      end
  end.

Fixpoint lcg_draw (fuel : nat) (state : Z) (l : list nat) : list nat :=
  match fuel with
  | O => l
  | S fuel' =>
      let state' := ((state * 1103515245 + 12345) mod 2147483648)%Z in
      match take_out (Z.to_nat (state' mod Z.of_nat (List.length l))%Z) l with
      | Some (x, r) => x :: lcg_draw fuel' state' r
      | None => l
      end
  end.

Definition lcg_shuffle (seed : Z) (l : list nat) : list nat :=
  lcg_draw (List.length l) seed l.

(** The state of the sequence after [fuel] draws. *)
Fixpoint lcg_after (fuel : nat) (state : Z) : Z :=
  match fuel with
  | O => state
  | S fuel' => lcg_after fuel' ((state * 1103515245 + 12345) mod 2147483648)%Z
  end.

(** ** Metrics *)

(** [a / b] on ints.  The quotient is kept as a reduced rational; the
    float Python returns is that rational rounded to a double, and the
    values 0 and 1 are exact. *)
Definition truediv (a b : Z) : result Q :=
  if (b =? 0)%Z then Raise ZeroDivisionError
  else Ok (Qred (Qmake (a * Z.sgn b) (Z.to_pos (Z.abs b)))).

(** A Python [set] of ints, kept as a duplicate-free list. *)
Definition nat_set (l : list nat) : list nat := nodup Nat.eq_dec l.

Definition nat_mem (x : nat) (s : list nat) : bool := existsb (Nat.eqb x) s.

Definition enumerate {A} (l : list A) : list (nat * A) :=
  combine (seq 0 (List.length l)) l.

(** [[i for i, d in enumerate(mutated) if not check(d)]]. *)
Definition failed_indices (check : record -> bool) (mutated : list record)
  : list nat :=
  map fst (filter (fun p => negb (check (snd p))) (enumerate mutated)).

Record scenario : Type := mkScenario {
  scenario_name : string;
  injected_count : nat;
  failed_count : nat;
  audit_pass_rate : Q;
  audit_fail_rate : Q;
  detection_recall : option Q;
  false_positive_rate : Q
}.

Definition zlen {A} (l : list A) : Z := Z.of_nat (List.length l).

(** The body of [scenario_result] once the failing indices are known; [n]
    is [len(source)] in the extended script and [len(mutated)] in the LLM
    script. *)
Definition score (n : nat) (name : string) (failed injected_idxs : list nat)
  : result scenario :=
  let inj := nat_set injected_idxs in
  let fail := nat_set failed in
  rbind
    (match inj with
     | _ :: _ =>
         rbind (truediv (zlen (filter (fun i => nat_mem i fail) inj)) (zlen inj))
           (fun recall =>
         rbind (truediv (zlen (filter (fun i => negb (nat_mem i inj)) fail))
                        (Z.max 1 (Z.of_nat n - zlen inj)))
           (fun fp => Ok (Some recall, fp)))
     | [] =>
         rbind (truediv (zlen fail) (Z.max 1 (Z.of_nat n)))
           (fun fp => Ok (None, fp))
     end)
    (fun rf =>
       rbind (truediv (Z.of_nat n - zlen failed) (Z.of_nat n)) (fun pass_rate =>
       rbind (truediv (zlen failed) (Z.of_nat n)) (fun fail_rate =>
       Ok (mkScenario name (List.length injected_idxs) (List.length failed)
                      pass_rate fail_rate (fst rf) (snd rf))))).

(** ** The object store *)

Definition loc : Type := nat.
Definition heap : Type := list record.

(** A computation that reads and writes the store and may raise. *)
Definition M (A : Type) : Type := heap -> result A * heap.

Definition ret {A} (a : A) : M A := fun h => (Ok a, h).

Definition raise {A} (e : exn) : M A := fun h => (Raise e, h).

Definition bind {A B} (m : M A) (k : A -> M B) : M B :=
  fun h =>
    match m h with
    | (Ok a, h') => k a h'
    | (Raise e, h') => (Raise e, h')
    end.

Definition lift {A} (r : result A) : M A := fun h => (r, h).

Declare Scope heap_scope.
Delimit Scope heap_scope with heap.
Notation "x <- m ;; k" := (bind m (fun x => k))
  (at level 61, m at next level, right associativity) : heap_scope.
Notation "m ;;; k" := (bind m (fun _ => k))
  (at level 61, right associativity) : heap_scope.
Open Scope heap_scope.

(** The dict object at an address.  Addresses come from [new_dict], so a
    dangling one does not occur; it reads as the empty dict. *)
Definition load (l : loc) : M record := fun h => (Ok (nth l h []), h).

(** A fresh dict object with the given items. *)
Definition new_dict (r : record) : M loc :=
  fun h => (Ok (List.length h), (h ++ [r])%list).

Fixpoint update_nth (l : loc) (f : record -> record) (h : heap) : heap :=
  match h, l with
  | [], _ => []
  | r :: h', O => f r :: h'
  | r :: h', S l' => r :: update_nth l' f h'
  end.

(** [obj[k] = v] on the dict object at [l]. *)
Definition setitem (l : loc) (k : string) (v : value) : M unit :=
  fun h => (Ok tt, update_nth l (fun r => dict_set r k v) h).

Fixpoint map_M {A B} (f : A -> M B) (l : list A) : M (list B) :=
  match l with
  | [] => ret []
  | x :: l' => y <- f x ;; ys <- map_M f l' ;; ret (y :: ys)
  end.

Fixpoint for_each {A} (f : A -> M unit) (l : list A) : M unit :=
  match l with
  | [] => ret tt
  | x :: l' => f x ;;; for_each f l'
  end.

(** [[dict(x) for x in records]]: a new object per record, same items. *)
Definition copy_all (records : list loc) : M (list loc) :=
  map_M (fun x => r <- load x ;; new_dict r) records.

(** [xs[i]] for a list and an index from [range]. *)
Definition index {A} (xs : list A) (i : nat) : M A :=
  match nth_error xs i with
  | Some x => ret x
  | None => raise IndexError
  end.

(** [for i in idx: mut[i][k] = v]. *)
Definition overwrite_field (mut : list loc) (idx : list nat) (k : string)
    (v : value) : M unit :=
  for_each (fun i => l <- index mut i ;; setitem l k v) idx.

(** [["deadbeef" * 8]]. *)
Definition orphan_hash : string :=
  "deadbeefdeadbeefdeadbeefdeadbeefdeadbeefdeadbeefdeadbeefdeadbeef".

(** ** The audit-failure scenarios of the extended script *)

(** The derivative records are dict objects in the store, given by their
    addresses; the source records are only read, so they are given as
    values. *)

Section FailureScenarios.
Context `{Shuffler}.
Variable source : list record.
Variable source_hashes : list string.
Variable mandatory_fields : list string.

Let n : nat := List.length source.
Let source_hash_set : str_set := set_of_list source_hashes.
Let source_by_hash : list (string * record) :=
  dict_of_pairs (combine source_hashes source).

(** The inner function [scenario_result(name, mutated, injected_idxs)]. *)
Definition scenario_result (name : string) (mutated : list loc)
    (injected_idxs : list nat) : M scenario :=
  ds <- map_M load mutated ;;
  lift (score n name
          (failed_indices
             (fun d => audit_record source_hash_set source_by_hash d
                                    mandatory_fields) ds)
          injected_idxs).

Definition baseline_provenance (prov_records : list loc) : M scenario :=
  mut <- copy_all prov_records ;;
  scenario_result "baseline_provenance" mut [].

(** 1) Orphan parent links. *)
Definition orphan_parent_link (prov_records : list loc) : M scenario :=
  let idx := inject_indices n (1 # 10)%Q 61 in
  mut <- copy_all prov_records ;;
  overwrite_field mut idx "parent_sha256" (VStr orphan_hash) ;;;
  scenario_result "orphan_parent_link" mut idx.

(** 2) Missing lineage metadata. *)
Definition missing_generated_by (prov_records : list loc) : M scenario :=
  let idx := inject_indices n (1 # 10)%Q 71 in
  mut <- copy_all prov_records ;;
  overwrite_field mut idx "generated_by" (VStr "") ;;;
  scenario_result "missing_generated_by" mut idx.

(** 3) Context erasure in mandatory fields. *)
Definition mandatory_context_erasure (prov_records : list loc) : M scenario :=
  let idx := inject_indices n (1 # 10)%Q 81 in
  mut <- copy_all prov_records ;;
  field <- index mandatory_fields 0 ;;
  overwrite_field mut idx field (VStr "") ;;;
  scenario_result "mandatory_context_erasure" mut idx.

(** 4) Label stripping. *)
Definition generated_label_stripped (prov_records : list loc) : M scenario :=
  let idx := inject_indices n (1 # 10)%Q 91 in
  mut <- copy_all prov_records ;;
  overwrite_field mut idx "generated_label" (VStr "") ;;;
  scenario_result "generated_label_stripped" mut idx.

(** [run_failure_scenarios(source, source_hashes, prov_records,
    mandatory_fields)]. *)
Definition run_failure_scenarios (prov_records : list loc)
  : M (list scenario) :=
  s0 <- baseline_provenance prov_records ;;
  s1 <- orphan_parent_link prov_records ;;
  s2 <- missing_generated_by prov_records ;;
  s3 <- mandatory_context_erasure prov_records ;;
  s4 <- generated_label_stripped prov_records ;;
  ret [s0; s1; s2; s3; s4].
End FailureScenarios.

(** ** The fault-injection blocks of [eval_stream] *)

(** [d.get(k) != h] for a string [h]: only the string [h] itself is equal
    to it. *)
Definition field_differs (d : record) (k h : string) : bool :=
  match dict_get d k with
  | Some (VStr s) => negb (s =? h)
  | _ => true
  end.

Section EvalStreamFaults.
Context `{Shuffler}.
Variable source : list loc.
Variable source_hashes : list string.
Variable mandatory_fields : list string.
Variable prov : list loc.

Let n : nat := List.length source.

(** [recall = len(set(detected) & set(idxs)) / len(idxs)] and
    [fp = len([i for i in detected if i not in idxs]) / (n - len(idxs))]. *)
Definition detection_rates (detected idxs : list nat) : result (Q * Q) :=
  rbind (truediv (zlen (filter (fun i => nat_mem i (nat_set idxs))
                               (nat_set detected)))
                 (zlen idxs)) (fun recall =>
  rbind (truediv (zlen (filter (fun i => negb (nat_mem i idxs)) detected))
                 (Z.of_nat n - zlen idxs)) (fun fp =>
  Ok (recall, fp))).

(** Tampering with the first mandatory field of the injected sources and
    comparing fingerprints. *)
Definition tamper_detection : M (Q * Q) :=
  let tamper_idxs := inject_indices n (1 # 10)%Q 31 in
  tampered_source <- copy_all source ;;
  tamper_field <- index mandatory_fields 0 ;;
  for_each
    (fun i =>
       l <- index tampered_source i ;;
       r <- load l ;;
       setitem l tamper_field
               (VStr (field_text r tamper_field ++ "::tampered")))
    tamper_idxs ;;;
  ds <- map_M load tampered_source ;;
  tampered_hashes <- lift (rmap_list sha256_value ds) ;;
  let drift_detected :=
    map fst (filter (fun p => negb (fst (snd p) =? snd (snd p)))
                    (enumerate (combine source_hashes tampered_hashes))) in
  lift (detection_rates drift_detected tamper_idxs).

(** Blanking [parent_sha256] and checking [lineage_complete]. *)
Definition lineage_break_detection : M (Q * Q) :=
  let lineage_break_idxs := inject_indices n (1 # 10)%Q 41 in
  broken <- copy_all prov ;;
  overwrite_field broken lineage_break_idxs "parent_sha256" (VStr "") ;;;
  ds <- map_M load broken ;;
  lift (detection_rates (failed_indices lineage_complete ds)
                        lineage_break_idxs).

(** Pointing [parent_sha256] at the next source's fingerprint and comparing
    it with the record's own source fingerprint. *)
Definition parent_mismatch_detection : M (Q * Q) :=
  let mismatch_idxs := inject_indices n (1 # 10)%Q 51 in
  mismatched <- copy_all prov ;;
  for_each
    (fun i =>
       j <- (if n =? 0 then raise ZeroDivisionError
             else ret ((i + 1) mod n))%nat ;;
       h <- index source_hashes j ;;
       l <- index mismatched i ;;
       setitem l "parent_sha256" (VStr h))
    mismatch_idxs ;;;
  ds <- map_M load mismatched ;;
  let mismatch_detected :=
    map fst (filter (fun p => field_differs (fst (snd p)) "parent_sha256"
                                            (snd (snd p)))
                    (enumerate (combine ds source_hashes))) in
  lift (detection_rates mismatch_detected mismatch_idxs).

(** The three blocks in the order [eval_stream] runs them. *)
Definition eval_stream_fault_injection : M ((Q * Q) * (Q * Q) * (Q * Q)) :=
  tamper <- tamper_detection ;;
  lineage <- lineage_break_detection ;;
  mismatch <- parent_mismatch_detection ;;
  ret (tamper, lineage, mismatch).
End EvalStreamFaults.

(** ** The two-hop scenarios of the LLM script *)

Section TwoHopScenarios.
Context `{Shuffler}.
Variable records : list record.
Variable source_hashes : list string.
Variable prov_hop1 : list record.
Variable hop1_hashes : list string.
Variable mandatory_fields : list string.

Let n : nat := List.length records.
Let source_hash_set : str_set := set_of_list source_hashes.
Let source_by_hash : list (string * record) :=
  dict_of_pairs (combine source_hashes records).
Let hop1_hash_set : str_set := set_of_list hop1_hashes.
Let hop1_by_hash : list (string * record) :=
  dict_of_pairs (combine hop1_hashes prov_hop1).

Definition check_two_hop (rec : record) : bool :=
  audit_two_hop source_hash_set source_by_hash hop1_hash_set hop1_by_hash
                rec mandatory_fields.

(** [scenario_result(name, mutated, injected_idxs, check_fn)] of the LLM
    script, where [n = len(mutated)]. *)
Definition scenario_result_llm (name : string) (mutated : list loc)
    (injected_idxs : list nat) (check_fn : record -> bool) : M scenario :=
  ds <- map_M load mutated ;;
  lift (score (List.length mutated) name (failed_indices check_fn ds)
              injected_idxs).

Definition two_hop_baseline_provenance (prov_hop2 : list loc) : M scenario :=
  mut <- copy_all prov_hop2 ;;
  scenario_result_llm "two_hop_baseline_provenance" mut [] check_two_hop.

Definition two_hop_orphan_parent_link (prov_hop2 : list loc) : M scenario :=
  let idx := inject_indices n (1 # 5)%Q 401 in
  mut <- copy_all prov_hop2 ;;
  overwrite_field mut idx "parent_sha256" (VStr orphan_hash) ;;;
  scenario_result_llm "two_hop_orphan_parent_link" mut idx check_two_hop.

(** [j = (i + 1) % n; mut[i]["ancestor_source_sha256"] = source_hashes[j]]. *)
Definition two_hop_ancestor_mismatch (prov_hop2 : list loc) : M scenario :=
  let idx := inject_indices n (1 # 5)%Q 402 in
  mut <- copy_all prov_hop2 ;;
  for_each
    (fun i =>
       j <- (if n =? 0 then raise ZeroDivisionError
             else ret ((i + 1) mod n))%nat ;;
       h <- index source_hashes j ;;
       l <- index mut i ;;
       setitem l "ancestor_source_sha256" (VStr h))
    idx ;;;
  scenario_result_llm "two_hop_ancestor_mismatch" mut idx check_two_hop.

Definition two_hop_context_erasure (prov_hop2 : list loc) : M scenario :=
  let idx := inject_indices n (1 # 5)%Q 403 in
  mut <- copy_all prov_hop2 ;;
  field <- index mandatory_fields 0 ;;
  overwrite_field mut idx field (VStr "") ;;;
  scenario_result_llm "two_hop_context_erasure" mut idx check_two_hop.

Definition two_hop_generated_label_stripped (prov_hop2 : list loc)
  : M scenario :=
  let idx := inject_indices n (1 # 5)%Q 404 in
  mut <- copy_all prov_hop2 ;;
  overwrite_field mut idx "generated_label" (VStr "") ;;;
  scenario_result_llm "two_hop_generated_label_stripped" mut idx
                      check_two_hop.

(** The scenario block that ends [run_stream]. *)
Definition run_stream_scenarios (prov_hop2 : list loc) : M (list scenario) :=
  s0 <- two_hop_baseline_provenance prov_hop2 ;;
  s1 <- two_hop_orphan_parent_link prov_hop2 ;;
  s2 <- two_hop_ancestor_mismatch prov_hop2 ;;
  s3 <- two_hop_context_erasure prov_hop2 ;;
  s4 <- two_hop_generated_label_stripped prov_hop2 ;;
  ret [s0; s1; s2; s3; s4].
End TwoHopScenarios.

(** ** Notions used by the statements *)

(** Two records that every audit reads alike. *)
Definition same_reading (d d' : record) : Prop :=
  (forall k, field_truthy d k = field_truthy d' k) /\
  (forall k, field_text d k = field_text d' k).

(** Equal fingerprints among the sources mean equal contents: the
    content-addressing assumption on SHA-256. *)
Definition content_addressed (source : list record) : Prop :=
  forall r r', In r source -> In r' source ->
    sha256_value r = sha256_value r' ->
    forall k, dict_get r k = dict_get r' k.

(** [failed_indices] with the enumeration started at [a]. *)
Definition failed_from (a : nat) (check : record -> bool) (l : list record)
  : list nat :=
  map fst (filter (fun p => negb (check (snd p)))
                  (combine (seq a (List.length l)) l)).

(** Items in key order, the order [sort_keys=True] writes them in. *)
Definition key_le (p q : string * value) : Prop :=
  String.leb (fst p) (fst q) = true.

(** [keeps b m post]: run on a store of at least [b] objects, [m] leaves
    the first [b] objects as they are, and a value it returns satisfies
    [post]. *)
Definition keeps {A} (b : nat) (m : M A) (post : A -> Prop) : Prop :=
  forall h, b <= List.length h ->
    firstn b (snd (m h)) = firstn b h /\
    b <= List.length (snd (m h)) /\
    (forall a, fst (m h) = Ok a -> post a).

(** [m] changes no object that exists when it starts: whatever the store,
    the objects it held are all there afterwards with the same items. *)
Definition leaves_store_unchanged {A} (m : M A) : Prop :=
  forall h : heap, firstn (List.length h) (snd (m h)) = h.

(** The records after [for i in idx: mut[i][k] = v], as values. *)
Definition overwritten (idx : list nat) (k : string) (v : value)
    (ds : list record) : list record :=
  fold_left (fun ds i => update_nth i (fun r => dict_set r k v) ds) idx ds.

(** ** Sample data *)

Definition sample_source : list record :=
  [ [("id", VStr "1"); ("title", VStr "Amphora")];
    [("id", VStr "2"); ("title", VStr "Stela")] ].

Definition sample_generated_at : string := "2026-02-19T00:00:00+00:00".

Definition sample_hashes : list string :=
  [ "80dcbf4f82116a2076cbbdd6a0071be2c408de1c656a6d1e2c9b9d37b3164f10";
    "d1d758e5d7e0c3f69535c6d93b0cc0044ccb8f193e9b3885f16ce9c53eee78d1" ].

(** The fingerprint of the record with no fields, [{}]. *)
Definition empty_record_hash : string :=
  "44136fa355b3678a1146ad16f7e8649e94fb4fc21fe77e8310c060f61caaff8a".

Definition sample_mandatory : list string := ["id"; "title"].

(** The one-hop derivatives [eval_stream] builds from the sample sources. *)
Definition sample_prov : list record :=
  map (fun rh => transform_provenance (fst rh) sample_mandatory (snd rh)
                                      sample_generated_at)
      (combine sample_source sample_hashes).

Definition sample_source_by_hash : list (string * record) :=
  dict_of_pairs (combine sample_hashes sample_source).

(** A source whose identifier is a number, and its fingerprint. *)
Definition numbered_source : record := [("id", VInt 1)].

Definition numbered_hash : string :=
  "037c9214eef74cc3887f3a4f085b4e17d76280dafd273b0ee160c09c4ba1cfd4".

(** A record and the same fields inserted in the other order. *)
Definition title_last : record := [("id", VStr "1"); ("title", VStr "Amphora")].
Definition title_first : record := [("title", VStr "Amphora"); ("id", VStr "1")].

(** A record holding a value that is no JSON type. *)
Definition unserialisable : record :=
  [("id", VStr "3"); ("tags", VObject "{'roman'}" true)].

(** A source without a title under a made-up fingerprint, its derivative,
    which has no title either, and an object whose [bool] and [str]
    raise. *)
Definition titleless_source : record := [("id", VStr "3")].

Definition titleless_derivative : record :=
  transform_provenance titleless_source ["id"] "fp-3" sample_generated_at.

Definition hostile : pyobj := mkObj (Raise TypeError) (Raise TypeError).

(** The sample shuffle as a [Shuffler]. *)
#[export] Instance lcg_shuffler : Shuffler.
Proof.
  refine {| shuffle := lcg_shuffle |}.
  assert (Htake : forall i l x r,
             take_out i l = Some (x, r) -> Permutation l (x :: r)).
  { intros i l. revert i. induction l as [|y l IH]; intros i x r Ht.
    - destruct i; discriminate.
    - destruct i as [|i]; simpl in Ht.
      + injection Ht as <- <-. reflexivity.
      + destruct (take_out i l) as [[z r']|] eqn:E; [|discriminate].
        injection Ht as <- <-. rewrite (IH _ _ _ E). apply perm_swap. }
  intros seed l. unfold lcg_shuffle. generalize (List.length l) as fuel.
  intros fuel. revert seed l.
  induction fuel as [|fuel IH]; intros seed l; simpl; [reflexivity|].
  destruct (take_out _ l) as [[x r]|] eqn:E; [|reflexivity].
  rewrite (Htake _ _ _ _ E). apply perm_skip, IH.
Defined.

(** The sample shuffle as a [Generator]: the state is the last number of
    the sequence. *)
Definition lcg_generator : Generator :=
  {| rng := Z;
     seeded := fun seed => seed;
     shuffle_with := fun g l => (lcg_shuffle g l, lcg_after (List.length l) g);
     shuffle_with_perm := fun g l => @shuffle_perm lcg_shuffler g l |}.

(** An interpreter in which no generator object has been made yet. *)
Definition fresh_randoms : @randoms lcg_generator :=
  @mkRandoms lcg_generator (0%Z : @rng lcg_generator) [].


(** * Further functions of the two scripts *)

(** ** The derivatives [run_stream] builds *)

Definition MODEL_NAME : string := "qwen2.5-coder:1.5b".

(** [hop1_prov] of [run_stream]: the one-hop derivative of a source record,
    with the summary the model returned. *)
Definition hop1_provenance (src : record) (mandatory_fields : list string)
    (src_hash generated_at summary : string) : record :=
  let hop1_prov :=
    [ ("generated_label", VStr "DERIVED_RECORD");
      ("generated_by", VStr ("ollama:" ++ MODEL_NAME));
      ("generated_at", VStr generated_at);
      ("parent_sha256", VStr src_hash);
      ("summary", VStr summary) ] in
  fold_left (fun out f => dict_set out f (get_default src f (VStr "")))
            mandatory_fields hop1_prov.

(** [hop2_prov] of [run_stream]: the two-hop derivative, whose parent is the
    hop-1 record and whose ancestor is the source. *)
Definition hop2_provenance (src : record) (mandatory_fields : list string)
    (hop1_hash src_hash generated_at interpretation : string) : record :=
  let hop2_prov :=
    [ ("generated_label", VStr "DERIVED_RECORD");
      ("generated_by", VStr ("ollama:" ++ MODEL_NAME));
      ("generated_at", VStr generated_at);
      ("parent_sha256", VStr hop1_hash);
      ("ancestor_source_sha256", VStr src_hash);
      ("interpretation", VStr interpretation) ] in
  fold_left (fun out f => dict_set out f (get_default src f (VStr "")))
            mandatory_fields hop2_prov.

(** The fields a two-hop derivative's lineage is read from. *)
Definition two_hop_lineage_keys : list string :=
  (lineage_keys ++ ["ancestor_source_sha256"])%list.

(** The mandatory fields of the NYC stream. *)
Definition nyc_mandatory : list string :=
  ["biblioid"; "borough"; "author"; "date"; "title"].

(** The hop-1 derivatives of the sample sources. *)
Definition sample_hop1 : list record :=
  map (fun rh => hop1_provenance (fst rh) sample_mandatory (snd rh)
                                 sample_generated_at "A vessel or a slab.")
      (combine sample_source sample_hashes).

Definition sample_hop1_hashes : list string :=
  [ "f5f7931c9034a2268f922a419230a658cf8bd9afd28e2fc5c97c25379da183cb";
    "67a31d93bd8a0f5030a004bf4b67589ec1697371202e2f56e868a7ea0adcf3c1" ].

(** The hop-2 derivatives of the sample sources. *)
Definition sample_hop2 : list record :=
  map (fun rhh => hop2_provenance (fst (fst rhh)) sample_mandatory
                                  (snd rhh) (snd (fst rhh))
                                  sample_generated_at "Pottery or stone.")
      (combine (combine sample_source sample_hashes) sample_hop1_hashes).

(** ** Context retention *)

(** The mandatory fields counted by [context_retention]: non-empty in the
    source and read alike in the derivative. *)
Definition kept_fields (source derived : record)
    (mandatory_fields : list string) : list string :=
  filter (fun f => negb (field_text source f =? "")
                   && (field_text source f =? field_text derived f))
         mandatory_fields.

(** [context_retention(source, derived, mandatory_fields)], the same
    function in both scripts. *)
Definition context_retention (source derived : record)
    (mandatory_fields : list string) : result Q :=
  match mandatory_fields with
  | [] => Ok 0%Q
  | _ :: _ =>
      truediv (zlen (kept_fields source derived mandatory_fields))
              (zlen mandatory_fields)
  end.

(** ** The naive derivative and the summary of a provenance derivative *)

(** What [transform_naive] can raise: [KeyError] from [rec[key]], or what
    [json.dumps] raises. *)
Inductive naive_exn : Type :=
| KeyError (key : string)
| JsonError (e : exn).

Inductive outcome (A : Type) : Type :=
| Done (a : A)
| Fails (e : naive_exn).

Arguments Done {A} a.
Arguments Fails {A} e.

Definition obind {A B} (r : outcome A) (f : A -> outcome B) : outcome B :=
  match r with
  | Done a => f a
  | Fails e => Fails e
  end.

(** [rec[key]]. *)
Definition getitem (rec : record) (key : string) : outcome value :=
  match dict_get rec key with
  | Some v => Done v
  | None => Fails (KeyError key)
  end.

(** [json.dumps(rec, ensure_ascii=True)]: the items in insertion order,
    with the separators [", "] and [": "]. *)
Definition json_dumps (rec : record) : result string :=
  rbind (rmap_list (fun kv =>
                      rbind (json_value (snd kv))
                            (fun v => Ok (json_string (fst kv) ++ ": " ++ v)))
                   rec)
        (fun items => Ok ("{" ++ join ", " items ++ "}")).

(** [transform_naive(rec, stream_name)]; a value inside an f-string is
    formatted as [str] formats it. *)
Definition transform_naive (rec : record) (stream_name : string)
  : outcome record :=
  if stream_name =? "nyc_archaeology_reports" then
    obind (getitem rec "title") (fun title =>
    obind (getitem rec "date") (fun date =>
    Done [("summary", VStr (py_str title ++ " (" ++ py_str date ++ ")"))]))
  else if stream_name =? "cleveland_museum_ancient_collections" then
    obind (getitem rec "title") (fun title =>
    obind (getitem rec "culture") (fun culture =>
    obind (getitem rec "objectDate") (fun objectDate =>
    Done [("summary", VStr (py_str title ++ " | " ++ py_str culture ++ " | "
                            ++ py_str objectDate))])))
  else if stream_name =? "aic_ancient_collections" then
    obind (getitem rec "title") (fun title =>
    obind (getitem rec "date_display") (fun date_display =>
    obind (getitem rec "place_of_origin") (fun place_of_origin =>
    Done [("summary", VStr (py_str title ++ " | " ++ py_str date_display
                            ++ " | " ++ py_str place_of_origin))])))
  else
    match json_dumps rec with
    | Ok s => Done [("summary", VStr (substring 0 180 s))]
    | Raise e => Fails (JsonError e)
    end.

(** [set_summary(derivative, source, stream_name)]: the derivative after
    the assignment to its [summary]. *)
Definition set_summary (derivative source : record) (stream_name : string)
  : outcome record :=
  obind (transform_naive source stream_name) (fun naive =>
  obind (getitem naive "summary") (fun summary =>
  Done (dict_set derivative "summary" summary))).

(** One derivative of [eval_stream]'s [prov]: built, then summarised. *)
Definition eval_stream_derivative (rec : record)
    (mandatory_fields : list string) (h generated_at stream_name : string)
  : outcome record :=
  set_summary (transform_provenance rec mandatory_fields h generated_at)
              rec stream_name.

(** The fields [transform_naive] reads for each of the three streams, in
    the order it reads them. *)
Definition summary_keys (stream_name : string) : list string :=
  if stream_name =? "nyc_archaeology_reports" then ["title"; "date"]
  else if stream_name =? "cleveland_museum_ancient_collections"
       then ["title"; "culture"; "objectDate"]
  else if stream_name =? "aic_ancient_collections"
       then ["title"; "date_display"; "place_of_origin"]
  else [].

(** ** Sampling the records of a stream *)

(** [l[:n]]: a negative [n] drops the last [-n] elements. *)
Definition py_prefix {A} (n : Z) (l : list A) : list A :=
  if (0 <=? n)%Z then firstn (Z.to_nat n) l
  else firstn (List.length l - Z.to_nat (- n)) l.

(** [sample_records(records, n, seed)]. *)
Definition sample_records {A} `{Shuffler} (records : list A) (n seed : Z)
  : result (list A) :=
  if (zlen records <=? n)%Z then Ok records
  else
    let idxs := shuffle seed (seq 0 (List.length records)) in
    let keep := sorted_nat (py_prefix n idxs) in
    rmap_list (fun i => match nth_error records i with
                        | Some x => Ok x
                        | None => Raise IndexError
                        end) keep.

(** ** The root hash of [eval_stream] *)

(** [sorted(l)] on a list of strings, in code-point order. *)
Fixpoint insert_str (x : string) (l : list string) : list string :=
  match l with
  | [] => [x]
  | y :: l' => if String.leb x y then x :: l else y :: insert_str x l'
  end.

Definition sorted_str (l : list string) : list string :=
  fold_right insert_str [] l.

(** [canonical_json(value)] for a list of strings. *)
Definition canonical_json_strings (l : list string) : string :=
  "[" ++ join "," (map json_string l) ++ "]".

(** [sha256_value(sorted(sha256_value(x) for x in prov))]. *)
Definition root_hash (prov : list record) : result string :=
  rbind (rmap_list sha256_value prov) (fun hs =>
  Ok (SHA256.hexdigest (canonical_json_strings (sorted_str hs)))).

(** ** Notions used by the further statements *)

(** A lowercase hexadecimal digit. *)
Definition is_lower_hex (c : ascii) : bool :=
  let n := N_of_ascii c in
  (((48 <=? n) && (n <=? 57)) || ((97 <=? n) && (n <=? 102)))%N.

Fixpoint all_chars (p : ascii -> bool) (s : string) : bool :=
  match s with
  | EmptyString => true
  | String c s' => p c && all_chars p s'
  end.

(** Code-point order on strings, the order [sorted] puts them in. *)
Definition str_le (a b : string) : Prop := String.leb a b = true.

(** The records after [for i in idx: mut[i][k] = vf(i)], as values. *)
Definition overwritten_by (vf : nat -> value) (idx : list nat) (k : string)
    (ds : list record) : list record :=
  fold_left (fun ds i => update_nth i (fun r => dict_set r k (vf i)) ds) idx ds.

(** Two records with the same fields and values. *)
Definition same_items (d d' : record) : Prop :=
  forall k, dict_get d k = dict_get d' k.

(** A source whose title is empty, under a made-up fingerprint, and its
    derivative. *)
Definition untitled_source : record := [("id", VStr "4"); ("title", VStr "")].

Definition untitled_derivative : record :=
  transform_provenance untitled_source sample_mandatory "fp-untitled"
                       sample_generated_at.

(** [ends_in e post m]: whatever the store, [m] returns a value that
    satisfies [post] or raises [e], no other exception. *)
Definition ends_in {A} (e : exn) (post : A -> Prop) (m : M A) : Prop :=
  forall h, match fst (m h) with
            | Ok a => post a
            | Raise e' => e' = e
            end.

(** A report of the NYC stream, and one that lacks its date. *)
Definition nyc_report : record :=
  [("biblioid", VInt 12); ("title", VStr "Pier survey"); ("date", VInt 1987)].

Definition undated_report : record :=
  [("biblioid", VInt 13); ("title", VStr "Cellar survey")].

(** The naive derivative of [nyc_report]. *)
Definition naive_report : record := [("summary", VStr "Pier survey (1987)")].

(** The first sample source, built and summarised as [eval_stream] does
    for a stream [transform_naive] has no format for. *)
Definition sample_summarised : record :=
  match eval_stream_derivative
          [("id", VStr "1"); ("title", VStr "Amphora")] sample_mandatory
          "80dcbf4f82116a2076cbbdd6a0071be2c408de1c656a6d1e2c9b9d37b3164f10"
          sample_generated_at "sample_stream" with
  | Done d => d
  | Fails _ => []
  end.

(** The result of a scenario on four records in which the second failed
    and the second and third were injected. *)
Definition sample_scenario : scenario :=
  match score 4 "sample" [1] [1; 2] with
  | Ok s => s
  | Raise _ => mkScenario "" 0 0 0 0 None 0
  end.


(** * Properties *)

(** ** Checks of the embedding against known outputs *)

Example sha256_constants :
  List.length SHA256.K = 64 /\
  nth 0 SHA256.K 0%Z = 0x428a2f98%Z /\ nth 63 SHA256.K 0%Z = 0xc67178f2%Z /\
  SHA256.ha SHA256.H0 = 0x6a09e667%Z /\ SHA256.hh SHA256.H0 = 0x5be0cd19%Z.
Proof. vm_compute. repeat split; reflexivity. Qed.

Example sha256_empty :
  SHA256.hexdigest "" =
  "e3b0c44298fc1c149afbf4c8996fb92427ae41e4649b934ca495991b7852b855".
Proof. vm_compute. reflexivity. Qed.

Example sha256_abc :
  SHA256.hexdigest "abc" =
  "ba7816bf8f01cfea414140de5dae2223b00361a396177a9cb410ff61f20015ad".
Proof. vm_compute. reflexivity. Qed.

Example sha256_two_blocks :
  SHA256.hexdigest
    "aaaaaaaaaaaaaaaaaaaaaaaaaaaaaaaaaaaaaaaaaaaaaaaaaaaaaaaaaaaaaaaa" =
  "ffe054fe7ae0cb6dc65c3af9b61d5209f439851db43d0ba5997337df154668eb".
Proof. vm_compute. reflexivity. Qed.

Lemma hexdigest_nonempty (s : string) : SHA256.hexdigest s <> "".
Proof. unfold SHA256.hexdigest, SHA256.hex_of_state, SHA256.hex8. discriminate. Qed.

Example json_escape_sample :
  json_escape (String "010" (String "233" (String "127" (String backslash ""))))
  = "\n\u00e9\u007f\\".
Proof. reflexivity. Qed.

Example canonical_json_sample :
  canonical_json
    [("b", VStr "x"); ("a", VInt 1); ("c", VNone); ("d", VBool true)]
  = Ok ("{" ++ quoted "a" ++ ":1," ++ quoted "b" ++ ":" ++ quoted "x" ++ ","
            ++ quoted "c" ++ ":null," ++ quoted "d" ++ ":true}").
Proof. reflexivity. Qed.

Example run_failure_scenarios_sample :
  match fst (run_failure_scenarios sample_source sample_hashes
               sample_mandatory [0; 1] sample_prov) with
  | Ok scenarios =>
      map (fun s => (scenario_name s, failed_count s, detection_recall s))
          scenarios
  | Raise _ => []
  end
  = [ ("baseline_provenance", 0, None);
      ("orphan_parent_link", 1, Some 1%Q);
      ("missing_generated_by", 1, Some 1%Q);
      ("mandatory_context_erasure", 1, Some 1%Q);
      ("generated_label_stripped", 1, Some 1%Q) ].
Proof. vm_compute. reflexivity. Qed.

Example eval_stream_fault_injection_sample :
  fst (eval_stream_fault_injection [0; 1] sample_hashes sample_mandatory
         [2; 3] (sample_source ++ sample_prov)%list)
  = Ok ((1, 0), (1, 0), (1, 0))%Q.
Proof. vm_compute. reflexivity. Qed.

Example sha256_value_empty_record :
  sha256_value [] =
  Ok "44136fa355b3678a1146ad16f7e8649e94fb4fc21fe77e8310c060f61caaff8a".
Proof. vm_compute. reflexivity. Qed.

(** ** Dict lookups after an assignment *)

Section DictFacts.
Context {V : Type}.
Implicit Types (d : list (string * V)) (k : string) (v : V).

Lemma dict_get_set_same d k v : dict_get (dict_set d k v) k = Some v.
Proof.
  induction d as [|[k' v'] d IH]; simpl.
  - now rewrite String.eqb_refl.
  - destruct (k' =? k) eqn:E; simpl; rewrite E; auto.
Qed.

Lemma dict_get_set_other d k k' v :
  k <> k' -> dict_get (dict_set d k v) k' = dict_get d k'.
Proof.
  intros Hne. induction d as [|[k0 v0] d IH]; simpl.
  - destruct (k =? k') eqn:E; auto. apply String.eqb_eq in E. contradiction.
  - destruct (k0 =? k) eqn:E; simpl.
    + apply String.eqb_eq in E. subst k0.
      destruct (k =? k') eqn:E'; auto.
      apply String.eqb_eq in E'. contradiction.
    + now rewrite IH.
Qed.

Lemma dict_get_set d k k' v :
  dict_get (dict_set d k v) k' =
  if k =? k' then Some v else dict_get d k'.
Proof.
  destruct (k =? k') eqn:E.
  - apply String.eqb_eq in E. subst. apply dict_get_set_same.
  - apply String.eqb_neq in E. now apply dict_get_set_other.
Qed.

Lemma dict_get_In d k v : dict_get d k = Some v -> In (k, v) d.
Proof.
  induction d as [|[k' v'] d IH]; simpl; [discriminate|].
  destruct (k' =? k) eqn:E.
  - apply String.eqb_eq in E. intros [= ->]. subst. now left.
  - intros Hg. right. auto.
Qed.

End DictFacts.

Lemma field_text_set d k k' v :
  field_text (dict_set d k v) k' =
  if k =? k' then py_str v else field_text d k'.
Proof.
  unfold field_text, get_default. rewrite dict_get_set.
  now destruct (k =? k').
Qed.

Lemma field_truthy_set d k k' v :
  field_truthy (dict_set d k v) k' =
  if k =? k' then truthy v else field_truthy d k'.
Proof.
  unfold field_truthy. rewrite dict_get_set. now destruct (k =? k').
Qed.

Lemma forallb_ext {A} (f g : A -> bool) (l : list A) :
  (forall x, f x = g x) -> forallb f l = forallb g l.
Proof.
  intros Hfg. induction l as [|x l IH]; simpl; [reflexivity|].
  now rewrite Hfg, IH.
Qed.

(** ** The audits read a derivative only through [field_truthy] and
       [field_text] *)


Lemma lineage_complete_ext d d' :
  same_reading d d' -> lineage_complete d = lineage_complete d'.
Proof.
  intros [Ht _]. unfold lineage_complete.
  apply forallb_ext. intros k. apply Ht.
Qed.

Lemma context_preserved_ext d d' src mf :
  same_reading d d' -> context_preserved d src mf = context_preserved d' src mf.
Proof.
  intros [_ Hx]. unfold context_preserved.
  apply forallb_ext. intros f. now rewrite Hx.
Qed.

Lemma audit_record_ext sh sbh d d' mf :
  same_reading d d' -> audit_record sh sbh d mf = audit_record sh sbh d' mf.
Proof.
  intros Hs. unfold audit_record.
  rewrite (lineage_complete_ext _ _ Hs).
  destruct Hs as [Ht Hx]. rewrite (Hx "parent_sha256").
  destruct (negb (lineage_complete d')); auto.
  destruct (negb (set_mem _ sh)); auto.
  destruct (dict_get sbh _) as [src|]; auto.
  destruct (negb (dict_truthy src)); auto.
  apply context_preserved_ext. now split.
Qed.

Lemma audit_one_hop_is_audit_record sh sbh d mf :
  audit_one_hop sh sbh d mf = audit_record sh sbh d mf.
Proof. reflexivity. Qed.

Lemma audit_two_hop_ext sh sbh h1 h1b d d' mf :
  same_reading d d' ->
  audit_two_hop sh sbh h1 h1b d mf = audit_two_hop sh sbh h1 h1b d' mf.
Proof.
  intros Hs. unfold audit_two_hop.
  rewrite (lineage_complete_ext _ _ Hs).
  destruct Hs as [Ht Hx].
  rewrite (Hx "parent_sha256"), (Hx "ancestor_source_sha256").
  destruct (negb (lineage_complete d')); auto.
  destruct (negb (set_mem _ h1)); auto.
  destruct (negb (set_mem _ sh)); auto.
  destruct (dict_get h1b _) as [hop1|]; auto.
  destruct (negb (dict_truthy hop1)); auto.
  destruct (negb (_ =? _)); auto.
  destruct (dict_get sbh _) as [src|]; auto.
  destruct (negb (dict_truthy src)); auto.
  apply context_preserved_ext. now split.
Qed.

Lemma absent_same_reading d k :
  dict_get d k = None -> same_reading (dict_set d k (VStr "")) d.
Proof.
  intros Hnone. split; intros k'.
  - rewrite field_truthy_set. destruct (k =? k') eqn:E; auto.
    apply String.eqb_eq in E. subst k'.
    unfold field_truthy. now rewrite Hnone.
  - rewrite field_text_set. destruct (k =? k') eqn:E; auto.
    apply String.eqb_eq in E. subst k'.
    unfold field_text, get_default. now rewrite Hnone.
Qed.

(** ** The audits never raise on records of values *)

Lemma dict_get_of_record (d : record) (k : string) :
  dict_get (of_record d) k = option_map of_value (dict_get d k).
Proof.
  induction d as [|[k0 v0] d IH]; simpl; [reflexivity|].
  destruct (k0 =? k); [reflexivity|exact IH].
Qed.

Lemma dict_get_of_map (m : list (string * record)) (k : string) :
  dict_get (of_map m) k = option_map of_record (dict_get m k).
Proof.
  induction m as [|[k0 v0] m IH]; simpl; [reflexivity|].
  destruct (k0 =? k); [reflexivity|exact IH].
Qed.

Lemma dict_truthy_of_record (d : record) :
  dict_truthy (of_record d) = dict_truthy d.
Proof. now destruct d. Qed.

Lemma get_truth_of_record (d : record) (k : string) :
  get_truth (of_record d) k = Ok (field_truthy d k).
Proof.
  unfold get_truth, field_truthy. rewrite dict_get_of_record.
  now destruct (dict_get d k).
Qed.

Lemma get_text_of_record (d : record) (k : string) :
  get_text (of_record d) k = Ok (field_text d k).
Proof.
  unfold get_text, field_text, get_default. rewrite dict_get_of_record.
  now destruct (dict_get d k).
Qed.

Lemma lineage_loop_of_record (d : record) (keys : list string) :
  lineage_loop (of_record d) keys = Ok (forallb (field_truthy d) keys).
Proof.
  induction keys as [|k keys IH]; simpl; [reflexivity|].
  rewrite get_truth_of_record. simpl.
  now destruct (field_truthy d k).
Qed.

Lemma context_loop_of_record (d src : record) (fields : list string) :
  context_loop (of_record d) (of_record src) fields
  = Ok (context_preserved d src fields).
Proof.
  unfold context_preserved.
  induction fields as [|f fields IH]; simpl; [reflexivity|].
  rewrite !get_text_of_record. simpl.
  now destruct (field_text d f =? field_text src f).
Qed.

Lemma audit_record_run_total sh sbh d mf :
  audit_record_run sh (of_map sbh) (of_record d) mf
  = Ok (audit_record sh sbh d mf).
Proof.
  unfold audit_record_run, audit_record, lineage_complete_run,
    lineage_complete.
  rewrite lineage_loop_of_record. cbn [rbind].
  destruct (negb (forallb (field_truthy d) lineage_keys)); [reflexivity|].
  rewrite get_text_of_record. cbn [rbind].
  destruct (negb (set_mem _ sh)); [reflexivity|].
  rewrite dict_get_of_map.
  destruct (dict_get sbh _) as [src|]; cbn [option_map]; [|reflexivity].
  rewrite dict_truthy_of_record.
  destruct (negb (dict_truthy src)); [reflexivity|].
  apply context_loop_of_record.
Qed.

Lemma audit_two_hop_run_total sh sbh h1 h1b d mf :
  audit_two_hop_run sh (of_map sbh) h1 (of_map h1b) (of_record d) mf
  = Ok (audit_two_hop sh sbh h1 h1b d mf).
Proof.
  unfold audit_two_hop_run, audit_two_hop, lineage_complete_run,
    lineage_complete.
  rewrite lineage_loop_of_record. cbn [rbind].
  destruct (negb (forallb (field_truthy d) lineage_keys)); [reflexivity|].
  rewrite !get_text_of_record. cbn [rbind].
  destruct (negb (set_mem _ h1)); [reflexivity|].
  destruct (negb (set_mem _ sh)); [reflexivity|].
  rewrite dict_get_of_map.
  destruct (dict_get h1b _) as [hop1|]; cbn [option_map]; [|reflexivity].
  rewrite dict_truthy_of_record.
  destruct (negb (dict_truthy hop1)); [reflexivity|].
  rewrite get_text_of_record. cbn [rbind].
  destruct (negb (_ =? _)); [reflexivity|].
  rewrite dict_get_of_map.
  destruct (dict_get sbh _) as [src|]; cbn [option_map]; [|reflexivity].
  rewrite dict_truthy_of_record.
  destruct (negb (dict_truthy src)); [reflexivity|].
  apply context_loop_of_record.
Qed.

(** An object whose [bool] raises makes [lineage_complete] raise, and one
    whose [str] raises makes the audits raise: the audits return for every
    record because the values of a record return for both. *)
Example audits_raise_on_a_hostile_object :
  lineage_complete_run [("generated_label", hostile)] = Raise TypeError /\
  audit_record_run ["fp-3"] (of_map [("fp-3", titleless_source)])
    (of_record titleless_derivative ++ [("title", hostile)])%list
    ["id"; "title"]
  = Raise TypeError.
Proof. split; reflexivity. Qed.

(** ** A field that is absent and a field that is empty *)

Lemma context_preserved_ext_src d src src' mf :
  same_reading src src' ->
  context_preserved d src mf = context_preserved d src' mf.
Proof.
  intros [_ Hx]. unfold context_preserved.
  apply forallb_ext. intros f. now rewrite Hx.
Qed.

Lemma dict_set_truthy {V} (d : list (string * V)) (k : string) (v : V) :
  dict_truthy (dict_set d k v) = true.
Proof.
  destruct d as [|[k0 v0] d]; simpl; [reflexivity|].
  now destruct (k0 =? k).
Qed.

Lemma nonempty_truthy {V} (d : list (string * V)) :
  d <> [] -> dict_truthy d = true.
Proof. destruct d; [contradiction|reflexivity]. Qed.

(** The verdict of a lookup in a fingerprint map does not change when the
    record stored under a fingerprint is replaced by one that reads alike
    and is as truthy. *)
Lemma resolved_alike (sbh : list (string * record)) (p q : string)
    (r r' : record) (verdict : record -> bool) :
  (dict_truthy r = true -> dict_truthy r' = true ->
   verdict r' = verdict r) ->
  dict_truthy r = true -> dict_truthy r' = true ->
  match dict_get (dict_set sbh p r') q with
  | None => false
  | Some src => if negb (dict_truthy src) then false else verdict src
  end
  = match dict_get (dict_set sbh p r) q with
    | None => false
    | Some src => if negb (dict_truthy src) then false else verdict src
    end.
Proof.
  intros Hv Ht Ht'. rewrite !dict_get_set.
  destruct (p =? q); [|reflexivity].
  rewrite Ht, Ht'. simpl. now apply Hv.
Qed.

Lemma audit_record_source_alike sh sbh p r r' d mf :
  same_reading r' r -> dict_truthy r = true -> dict_truthy r' = true ->
  audit_record sh (dict_set sbh p r') d mf
  = audit_record sh (dict_set sbh p r) d mf.
Proof.
  intros Hs Ht Ht'. unfold audit_record.
  destruct (negb (lineage_complete d)); [reflexivity|].
  destruct (negb (set_mem _ sh)); [reflexivity|].
  apply (resolved_alike sbh p _ r r'
           (fun src => context_preserved d src mf)); auto.
  intros _ _. now apply context_preserved_ext_src.
Qed.

Lemma audit_two_hop_source_alike sh sbh h1 h1b p r r' d mf :
  same_reading r' r -> dict_truthy r = true -> dict_truthy r' = true ->
  audit_two_hop sh (dict_set sbh p r') h1 h1b d mf
  = audit_two_hop sh (dict_set sbh p r) h1 h1b d mf.
Proof.
  intros Hs Ht Ht'. unfold audit_two_hop.
  destruct (negb (lineage_complete d)); [reflexivity|].
  destruct (negb (set_mem _ h1)); [reflexivity|].
  destruct (negb (set_mem _ sh)); [reflexivity|].
  destruct (dict_get h1b _) as [hop1|]; [|reflexivity].
  destruct (negb (dict_truthy hop1)); [reflexivity|].
  destruct (negb (_ =? _)); [reflexivity|].
  apply (resolved_alike sbh p _ r r'
           (fun src => context_preserved d src mf)); auto.
  intros _ _. now apply context_preserved_ext_src.
Qed.

Lemma audit_two_hop_hop1_alike sh sbh h1 h1b p r r' d mf :
  same_reading r' r -> dict_truthy r = true -> dict_truthy r' = true ->
  audit_two_hop sh sbh h1 (dict_set h1b p r') d mf
  = audit_two_hop sh sbh h1 (dict_set h1b p r) d mf.
Proof.
  intros Hs Ht Ht'. unfold audit_two_hop.
  destruct (negb (lineage_complete d)); [reflexivity|].
  destruct (negb (set_mem _ h1)); [reflexivity|].
  destruct (negb (set_mem _ sh)); [reflexivity|].
  apply (resolved_alike h1b p _ r r'
           (fun hop1 =>
              if negb (field_text hop1 "parent_sha256"
                       =? field_text d "ancestor_source_sha256")
              then false
              else
                match dict_get sbh (field_text d "ancestor_source_sha256")
                with
                | None => false
                | Some src =>
                    if negb (dict_truthy src) then false
                    else context_preserved d src mf
                end)); auto.
  intros _ _. destruct Hs as [_ Hx]. now rewrite Hx.
Qed.

(** ** C10: the audits are total and read an absent field as empty *)

(** C10 (amended).  Run operation by operation on records of values,
    [lineage_complete], [audit_record], [audit_one_hop] and
    [audit_two_hop] never raise: each returns the boolean of the function,
    whatever fields the derivative and the resolved records have or lack.
    A derivative in which a field is absent and the same derivative with
    that field present but empty are judged identically by each of them.
    So are a resolved source record and a resolved hop-1 record, provided
    the record has a field at all: a record with no field is rejected as
    falsy, one with an empty field is not. *)
Theorem audits_total_absent_field_as_empty (d : record) (k : string) :
  dict_get d k = None ->
  let d' := dict_set d k (VStr "") in
  (forall (derived : record) sh sbh h1 h1b mf,
      lineage_complete_run (of_record derived)
      = Ok (lineage_complete derived) /\
      audit_record_run sh (of_map sbh) (of_record derived) mf
      = Ok (audit_record sh sbh derived mf) /\
      audit_one_hop_run sh (of_map sbh) (of_record derived) mf
      = Ok (audit_one_hop sh sbh derived mf) /\
      audit_two_hop_run sh (of_map sbh) h1 (of_map h1b) (of_record derived) mf
      = Ok (audit_two_hop sh sbh h1 h1b derived mf)) /\
  (lineage_complete d' = lineage_complete d /\
   (forall sh sbh mf, audit_record sh sbh d' mf = audit_record sh sbh d mf) /\
   (forall sh sbh mf,
       audit_one_hop sh sbh d' mf = audit_one_hop sh sbh d mf) /\
   (forall sh sbh h1 h1b mf,
       audit_two_hop sh sbh h1 h1b d' mf
       = audit_two_hop sh sbh h1 h1b d mf)) /\
  (d <> [] ->
   forall (derived : record) p sh sbh h1 h1b mf,
     audit_record sh (dict_set sbh p d') derived mf
     = audit_record sh (dict_set sbh p d) derived mf /\
     audit_one_hop sh (dict_set sbh p d') derived mf
     = audit_one_hop sh (dict_set sbh p d) derived mf /\
     audit_two_hop sh (dict_set sbh p d') h1 h1b derived mf
     = audit_two_hop sh (dict_set sbh p d) h1 h1b derived mf /\
     audit_two_hop sh sbh h1 (dict_set h1b p d') derived mf
     = audit_two_hop sh sbh h1 (dict_set h1b p d) derived mf).
Proof.
  intros Hnone d'. pose proof (absent_same_reading d k Hnone) as Hs.
  split; [|split].
  - intros derived sh sbh h1 h1b mf. repeat split.
    + unfold lineage_complete_run. apply lineage_loop_of_record.
    + apply audit_record_run_total.
    + unfold audit_one_hop_run. rewrite audit_one_hop_is_audit_record.
      apply audit_record_run_total.
    + apply audit_two_hop_run_total.
  - repeat split; intros.
    + now apply lineage_complete_ext.
    + now apply audit_record_ext.
    + rewrite !audit_one_hop_is_audit_record. now apply audit_record_ext.
    + now apply audit_two_hop_ext.
  - intros Hne derived p sh sbh h1 h1b mf.
    pose proof (nonempty_truthy d Hne) as Ht.
    pose proof (dict_set_truthy d k (VStr "")) as Ht'.
    repeat split.
    + now apply audit_record_source_alike.
    + rewrite !audit_one_hop_is_audit_record.
      now apply audit_record_source_alike.
    + now apply audit_two_hop_source_alike.
    + now apply audit_two_hop_hop1_alike.
Qed.

Lemma audits_total_absent_field_as_empty_witness :
  audit_record_run ["fp-3"] (of_map [("fp-3", titleless_source)])
                   (of_record titleless_derivative) ["id"; "title"]
  = Ok true /\
  audit_record ["fp-3"] [("fp-3", titleless_source)]
               (dict_set titleless_derivative "title" (VStr ""))
               ["id"; "title"]
  = audit_record ["fp-3"] [("fp-3", titleless_source)]
                 titleless_derivative ["id"; "title"] /\
  audit_record ["fp-3"]
    (dict_set [] "fp-3" (dict_set titleless_source "title" (VStr "")))
    titleless_derivative ["id"; "title"]
  = audit_record ["fp-3"] (dict_set [] "fp-3" titleless_source)
                 titleless_derivative ["id"; "title"].
Proof.
  split; [|split].
  - exact (proj1 (proj2 (proj1
             (audits_total_absent_field_as_empty titleless_derivative
                "title" eq_refl) titleless_derivative ["fp-3"]
             [("fp-3", titleless_source)] [] [] ["id"; "title"]))).
  - exact (proj1 (proj2 (proj1 (proj2
             (audits_total_absent_field_as_empty titleless_derivative
                "title" eq_refl)))) ["fp-3"] [("fp-3", titleless_source)]
             ["id"; "title"]).
  - refine (proj1 (proj2 (proj2
             (audits_total_absent_field_as_empty titleless_source "title"
                eq_refl)) _ titleless_derivative "fp-3" ["fp-3"] [] [] []
             ["id"; "title"])).
    discriminate.
Defined.

(** C10, as stated, fails for a resolved source record: with no field at
    all the record is falsy and the audit rejects the derivative, with the
    field present but empty it is not, and the derivative passes. *)
Lemma empty_source_differs_from_blank_field :
  dict_get (@nil (string * value)) "title" = None /\
  audit_record ["fp-0"] [("fp-0", [])]
    (transform_provenance [] [] "fp-0" sample_generated_at) ["title"]
  = false /\
  audit_record ["fp-0"] [("fp-0", dict_set [] "title" (VStr ""))]
    (transform_provenance [] [] "fp-0" sample_generated_at) ["title"]
  = true.
Proof. repeat split. Qed.

(** ** C2: two-hop chain consistency *)

(** C2.  A two-hop derivative whose [parent_sha256] resolves among the
    hop-1 fingerprints and whose [ancestor_source_sha256] resolves among
    the source fingerprints is rejected by [audit_two_hop] whenever the
    resolved hop-1 record's own [parent_sha256] differs from the
    derivative's [ancestor_source_sha256].  The pointers are fingerprints,
    read as the audit reads them ([str] of the field, an absent field
    being empty). *)
Theorem audit_two_hop_rejects_chain_mismatch
    (source_hashes : str_set) (source_by_hash : list (string * record))
    (hop1_hashes : str_set) (hop1_by_hash : list (string * record))
    (derived hop1 : record) (mandatory_fields : list string) :
  set_mem (field_text derived "parent_sha256") hop1_hashes = true ->
  set_mem (field_text derived "ancestor_source_sha256") source_hashes = true ->
  dict_get hop1_by_hash (field_text derived "parent_sha256") = Some hop1 ->
  field_text hop1 "parent_sha256" <>
    field_text derived "ancestor_source_sha256" ->
  audit_two_hop source_hashes source_by_hash hop1_hashes hop1_by_hash
                derived mandatory_fields = false.
Proof.
  intros Hp Ha Hres Hne. unfold audit_two_hop.
  destruct (negb (lineage_complete derived)); auto.
  rewrite Hp, Ha, Hres. simpl.
  destruct (negb (dict_truthy hop1)); auto.
  apply String.eqb_neq in Hne. now rewrite Hne.
Qed.

Lemma audit_two_hop_rejects_chain_mismatch_witness :
  let derived :=
    [ ("generated_label", VStr "DERIVED_RECORD");
      ("generated_by", VStr "ollama:qwen2.5-coder:1.5b");
      ("generated_at", VStr "2026-02-19T00:00:00+00:00");
      ("parent_sha256", VStr "hop1-a");
      ("ancestor_source_sha256", VStr "source-b");
      ("id", VStr "2") ] in
  let hop1_a := [ ("generated_label", VStr "DERIVED_RECORD");
                  ("parent_sha256", VStr "source-a"); ("id", VStr "1") ] in
  let source_by_hash :=
    [ ("source-a", [("id", VStr "1")]); ("source-b", [("id", VStr "2")]) ] in
  set_mem (field_text derived "parent_sha256") ["hop1-a"] = true /\
  set_mem (field_text derived "ancestor_source_sha256")
          ["source-a"; "source-b"] = true /\
  audit_two_hop ["source-a"; "source-b"] source_by_hash
                ["hop1-a"] [("hop1-a", hop1_a)] derived ["id"] = false.
Proof.
  cbv zeta. split; [reflexivity|]. split; [reflexivity|].
  apply (audit_two_hop_rejects_chain_mismatch
           ["source-a"; "source-b"]
           [ ("source-a", [("id", VStr "1")]); ("source-b", [("id", VStr "2")]) ]
           ["hop1-a"]
           [("hop1-a", [ ("generated_label", VStr "DERIVED_RECORD");
                         ("parent_sha256", VStr "source-a");
                         ("id", VStr "1") ])]
           _
           [ ("generated_label", VStr "DERIVED_RECORD");
             ("parent_sha256", VStr "source-a"); ("id", VStr "1") ]
           ["id"]).
  - reflexivity.
  - reflexivity.
  - reflexivity.
  - discriminate.
Defined.

(** ** Results of list comprehensions, sets and dict comprehensions *)

Lemma rmap_list_Ok_combine {A B} (f : A -> result B) (l : list A)
    (ys : list B) :
  rmap_list f l = Ok ys ->
  forall x y, In (y, x) (combine ys l) -> f x = Ok y.
Proof.
  revert ys. induction l as [|a l IH]; intros ys Hok x y Hin.
  - destruct ys; simpl in Hin; contradiction.
  - simpl in Hok. destruct (f a) as [b|e] eqn:Ea; simpl in Hok; [|discriminate].
    destruct (rmap_list f l) as [ys'|e]; simpl in Hok; [|discriminate].
    injection Hok as <-. simpl in Hin. destruct Hin as [[= <- <-]|Hin]; auto.
    now apply (IH ys').
Qed.

Lemma rmap_list_Ok_In {A B} (f : A -> result B) (l : list A) (ys : list B) :
  rmap_list f l = Ok ys ->
  forall x, In x l -> exists y, f x = Ok y /\ In y ys.
Proof.
  revert ys. induction l as [|a l IH]; intros ys Hok x Hin; [contradiction|].
  simpl in Hok. destruct (f a) as [b|e] eqn:Ea; simpl in Hok; [|discriminate].
  destruct (rmap_list f l) as [ys'|e]; simpl in Hok; [|discriminate].
  injection Hok as <-. destruct Hin as [->|Hin].
  - exists b. split; [assumption|now left].
  - destruct (IH ys' eq_refl x Hin) as (y & Hy & Hin'). exists y.
    split; [assumption|now right].
Qed.

Lemma rmap_list_Ok_key {A B} (f : A -> result B) (l : list A) (ys : list B) :
  rmap_list f l = Ok ys ->
  forall x y, In x l -> f x = Ok y -> In y (map fst (combine ys l)).
Proof.
  revert ys. induction l as [|a l IH]; intros ys Hok x y Hin Hx;
    [contradiction|].
  simpl in Hok. destruct (f a) as [b|e] eqn:Ea; simpl in Hok; [|discriminate].
  destruct (rmap_list f l) as [ys'|e]; simpl in Hok; [|discriminate].
  injection Hok as <-. simpl. destruct Hin as [->|Hin].
  - left. congruence.
  - right. now apply (IH ys' eq_refl x).
Qed.

Lemma set_mem_In (x : string) (s : list string) :
  set_mem x s = true <-> In x s.
Proof.
  unfold set_mem. rewrite existsb_exists. split.
  - intros (y & Hin & He). apply String.eqb_eq in He. now subst.
  - intros Hin. exists x. split; [assumption|apply String.eqb_refl].
Qed.

Lemma set_mem_set_of_list (x : string) (l : list string) :
  set_mem x (set_of_list l) = true <-> In x l.
Proof. unfold set_of_list. rewrite set_mem_In. apply nodup_In. Qed.

Section DictOfPairs.
Context {V : Type}.
Implicit Types (ps d : list (string * V)) (k : string) (v : V).

Let step := fun d (kv : string * V) => dict_set d (fst kv) (snd kv).

Lemma fold_set_get_Some ps d k v :
  dict_get (fold_left step ps d) k = Some v ->
  In (k, v) ps \/ dict_get d k = Some v.
Proof.
  revert d. induction ps as [|[k0 v0] ps IH]; intros d Hg; simpl in *.
  - now right.
  - destruct (IH _ Hg) as [Hin|Hd]; [left; now right|].
    unfold step in Hd. simpl in Hd. rewrite dict_get_set in Hd.
    destruct (k0 =? k) eqn:E.
    + apply String.eqb_eq in E. subst. injection Hd as ->. left. now left.
    + now right.
Qed.

Lemma fold_set_get_defined ps d k :
  In k (map fst ps) \/ dict_get d k <> None ->
  dict_get (fold_left step ps d) k <> None.
Proof.
  revert d. induction ps as [|[k0 v0] ps IH]; intros d Hor; simpl in *.
  - destruct Hor as [[]|Hd]. assumption.
  - apply IH. unfold step. simpl. rewrite dict_get_set.
    destruct (k0 =? k) eqn:E.
    + right. discriminate.
    + apply String.eqb_neq in E.
      destruct Hor as [[Hk|Hin]|Hd]; [contradiction|now left|now right].
Qed.

Lemma dict_of_pairs_get_In ps k v :
  dict_get (dict_of_pairs ps) k = Some v -> In (k, v) ps.
Proof.
  intros Hg. destruct (fold_set_get_Some ps [] k v Hg) as [Hin|Hd];
    [assumption|discriminate].
Qed.

Lemma dict_of_pairs_get_defined ps k :
  In k (map fst ps) -> exists v, dict_get (dict_of_pairs ps) k = Some v.
Proof.
  intros Hin. pose proof (fold_set_get_defined ps [] k (or_introl Hin)) as Hd.
  unfold dict_of_pairs. fold step.
  destruct (dict_get (fold_left step ps []) k) as [v|]; [now exists v|].
  contradiction.
Qed.
End DictOfPairs.

(** ** What the builder writes *)

Lemma builder_fold_get (src : record) (mf : list string) (init : record)
    (f : string) :
  dict_get
    (fold_left (fun out f => dict_set out f (get_default src f (VStr "")))
               mf init) f =
  if in_dec string_dec f mf then Some (get_default src f (VStr ""))
  else dict_get init f.
Proof.
  revert init. induction mf as [|g mf IH]; intros init; simpl; [reflexivity|].
  rewrite IH. destruct (in_dec string_dec f mf) as [Hin|Hnin].
  - destruct (string_dec g f); reflexivity.
  - rewrite dict_get_set. destruct (string_dec g f) as [->|Hne].
    + now rewrite String.eqb_refl.
    + apply String.eqb_neq in Hne. now rewrite Hne.
Qed.

Lemma transform_provenance_context (src : record) (mf : list string)
    (parent generated_at f : string) :
  In f mf ->
  field_text (transform_provenance src mf parent generated_at) f =
  field_text src f.
Proof.
  intros Hin. unfold transform_provenance, field_text at 1, get_default at 1.
  rewrite builder_fold_get.
  destruct (in_dec string_dec f mf); [reflexivity|contradiction].
Qed.


(** With context fields that are no lineage fields and a non-empty
    timestamp and parent, the builder's output carries its four lineage
    fields as the builder set them. *)
Lemma transform_provenance_lineage (src : record) (mf : list string)
    (parent generated_at : string) :
  (forall f, In f mf -> ~ In f lineage_keys) ->
  generated_at <> "" -> parent <> "" ->
  let derived := transform_provenance src mf parent generated_at in
  lineage_complete derived = true /\
  dict_get derived "parent_sha256" = Some (VStr parent).
Proof.
  intros Hdis Hg Hp derived.
  assert (Hkeep : forall k, In k lineage_keys ->
            dict_get derived k =
            dict_get [ ("generated_label", VStr "DERIVED_RECORD");
                       ("generated_by", VStr "deterministic_transform_v2");
                       ("generated_at", VStr generated_at);
                       ("parent_sha256", VStr parent);
                       ("summary", VStr "") ] k).
  { intros k Hk. unfold derived, transform_provenance.
    rewrite builder_fold_get. destruct (in_dec string_dec k mf) as [Hin|];
      [|reflexivity].
    exfalso. exact (Hdis k Hin Hk). }
  apply String.eqb_neq in Hg. apply String.eqb_neq in Hp.
  split.
  - unfold lineage_complete. apply forallb_forall. intros k Hk.
    unfold field_truthy. rewrite (Hkeep k Hk).
    unfold lineage_keys in Hk. simpl in Hk.
    destruct Hk as [<-|[<-|[<-|[<-|[]]]]]; simpl;
      [reflexivity|reflexivity|now rewrite Hg|now rewrite Hp].
  - rewrite Hkeep; [reflexivity|]. unfold lineage_keys. simpl. auto.
Qed.

(** ** C1: a built derivative passes the one-hop audit *)

(** C1 (amended).  Let the sources fingerprint without error and without
    collision, and let a derivative be built by [transform_provenance] from
    a source that has at least one field, with that source's fingerprint
    as parent; let its [generated_label], [generated_by] and [generated_at]
    be non-empty and its [parent_sha256] be that fingerprint.  Then
    [audit_one_hop], given the fingerprint set and the
    fingerprint-to-record map of the sources and the same mandatory
    fields, returns true. *)
Theorem built_derivative_passes_one_hop
    (source : list record) (source_hashes : list string) (src : record)
    (h generated_at : string) (mandatory_fields : list string) :
  source_fingerprints source = Ok source_hashes ->
  content_addressed source ->
  In src source ->
  src <> [] ->
  sha256_value src = Ok h ->
  let derived := transform_provenance src mandatory_fields h generated_at in
  field_truthy derived "generated_label" = true ->
  field_truthy derived "generated_by" = true ->
  field_truthy derived "generated_at" = true ->
  dict_get derived "parent_sha256" = Some (VStr h) ->
  audit_one_hop (set_of_list source_hashes)
                (dict_of_pairs (combine source_hashes source))
                derived mandatory_fields = true.
Proof.
  intros Hfp Hca Hin Hne Hh derived Hl Hb Ha Hp.
  assert (Hhne : h <> "").
  { unfold sha256_value in Hh. destruct (canonical_json src); simpl in Hh;
      [|discriminate]. injection Hh as <-. apply hexdigest_nonempty. }
  assert (Hparent : field_text derived "parent_sha256" = h).
  { unfold field_text, get_default. now rewrite Hp. }
  assert (Hlc : lineage_complete derived = true).
  { unfold lineage_complete, lineage_keys. simpl. rewrite Hl, Hb, Ha. simpl.
    unfold field_truthy. rewrite Hp. simpl.
    apply String.eqb_neq in Hhne. now rewrite Hhne. }
  destruct (rmap_list_Ok_In _ _ _ Hfp src Hin) as (h' & Hh' & Hinh).
  rewrite Hh in Hh'. injection Hh' as <-.
  assert (Hkeys : In h (map fst (combine source_hashes source))).
  { apply (rmap_list_Ok_key _ _ _ Hfp src h Hin Hh). }
  destruct (dict_of_pairs_get_defined _ _ Hkeys) as [r Hr].
  pose proof (dict_of_pairs_get_In _ _ _ Hr) as Hinr.
  pose proof (rmap_list_Ok_combine _ _ _ Hfp _ _ Hinr) as Hrh.
  assert (Hrs : In r source) by (eapply in_combine_r; eassumption).
  assert (Hsame : forall k, dict_get r k = dict_get src k).
  { apply Hca; auto. now rewrite Hrh, Hh. }
  unfold audit_one_hop. rewrite Hlc, Hparent. simpl.
  apply set_mem_set_of_list in Hinh. rewrite Hinh. simpl. rewrite Hr.
  assert (Hrt : dict_truthy r = true).
  { destruct src as [|[k0 v0] src']; [contradiction|].
    specialize (Hsame k0). simpl in Hsame. rewrite String.eqb_refl in Hsame.
    destruct r; [discriminate|reflexivity]. }
  rewrite Hrt. simpl. unfold context_preserved. apply forallb_forall.
  intros f Hf. apply String.eqb_eq. unfold derived.
  rewrite transform_provenance_context by assumption.
  unfold field_text, get_default. now rewrite Hsame.
Qed.

Lemma sample_content_addressed : content_addressed sample_source.
Proof.
  intros r r' Hr Hr' Heq k. unfold sample_source in Hr, Hr'.
  destruct Hr as [<-|[<-|[]]]; destruct Hr' as [<-|[<-|[]]];
    try reflexivity; vm_compute in Heq; discriminate Heq.
Defined.

Lemma built_derivative_passes_one_hop_witness :
  source_fingerprints sample_source = Ok sample_hashes /\
  audit_one_hop (set_of_list sample_hashes)
    (dict_of_pairs (combine sample_hashes sample_source))
    (transform_provenance [("id", VStr "1"); ("title", VStr "Amphora")]
       ["id"; "title"]
       "80dcbf4f82116a2076cbbdd6a0071be2c408de1c656a6d1e2c9b9d37b3164f10"
       sample_generated_at)
    ["id"; "title"] = true.
Proof.
  split; [vm_compute; reflexivity|].
  apply (built_derivative_passes_one_hop sample_source sample_hashes
           [("id", VStr "1"); ("title", VStr "Amphora")]).
  - vm_compute. reflexivity.
  - exact sample_content_addressed.
  - left. reflexivity.
  - discriminate.
  - vm_compute. reflexivity.
  - reflexivity.
  - reflexivity.
  - reflexivity.
  - reflexivity.
Defined.

(** C1, as stated, fails on a source record with no fields: the built
    derivative carries every lineage field and the right parent
    fingerprint, the fingerprint resolves, and the audit still rejects
    because the resolved record [{}] is falsy. *)
Lemma empty_source_record_fails_one_hop :
  let derived :=
    transform_provenance [] ["id"] empty_record_hash sample_generated_at in
  source_fingerprints [[]] = Ok [empty_record_hash] /\
  lineage_complete derived = true /\
  dict_get derived "parent_sha256" = Some (VStr empty_record_hash) /\
  dict_get (dict_of_pairs (combine [empty_record_hash] [([] : record)]))
           empty_record_hash = Some ([] : record) /\
  audit_one_hop (set_of_list [empty_record_hash])
                (dict_of_pairs (combine [empty_record_hash] [[]]))
                derived ["id"] = false.
Proof. vm_compute. repeat split; reflexivity. Qed.

(** ** Failing indices of a collection *)

Lemma forallb_false_In {A} (p : A -> bool) (l : list A) (x : A) :
  In x l -> p x = false -> forallb p l = false.
Proof.
  intros Hin Hp. induction l as [|y l IH]; [contradiction|]. simpl.
  destruct Hin as [->|Hin]; [now rewrite Hp|].
  rewrite (IH Hin). apply andb_false_r.
Qed.


Lemma failed_indices_from check l : failed_indices check l = failed_from 0 check l.
Proof. reflexivity. Qed.

Lemma failed_from_cons a check d l :
  failed_from a check (d :: l) =
  if check d then failed_from (S a) check l
  else a :: failed_from (S a) check l.
Proof. unfold failed_from. simpl. now destruct (check d). Qed.

Lemma failed_from_all_pass a check l :
  Forall (fun x => check x = true) l -> failed_from a check l = [].
Proof.
  intros Hall. revert a. induction Hall as [|d l Hd _ IH]; intros a.
  - reflexivity.
  - rewrite failed_from_cons, Hd. apply IH.
Qed.

Lemma update_nth_length (i : nat) (g : record -> record) (l : list record) :
  List.length (update_nth i g l) = List.length l.
Proof.
  revert i. induction l as [|d l IH]; intros [|i]; simpl; auto.
Qed.

Lemma failed_from_update_single a check g l i d :
  nth_error l i = Some d ->
  Forall (fun x => check x = true) l ->
  check (g d) = false ->
  failed_from a check (update_nth i g l) = [a + i]%nat.
Proof.
  intros Hnth Hall Hg. revert a i Hnth.
  induction Hall as [|x l Hx Hall IH]; intros a i Hnth.
  - destruct i; discriminate.
  - destruct i as [|i]; simpl in Hnth; simpl update_nth.
    + injection Hnth as ->. rewrite failed_from_cons, Hg.
      rewrite (failed_from_all_pass _ _ _ Hall). now rewrite Nat.add_0_r.
    + rewrite failed_from_cons, Hx. rewrite (IH (S a) i Hnth).
      f_equal. lia.
Qed.

(** ** What a passing audit establishes *)

Lemma audit_one_hop_true_inv sh sbh d mf :
  audit_one_hop sh sbh d mf = true ->
  lineage_complete d = true /\
  set_mem (field_text d "parent_sha256") sh = true /\
  exists src, dict_get sbh (field_text d "parent_sha256") = Some src /\
              dict_truthy src = true /\
              context_preserved d src mf = true.
Proof.
  unfold audit_one_hop.
  destruct (lineage_complete d); simpl; [|discriminate].
  destruct (set_mem _ sh); simpl; [|discriminate].
  destruct (dict_get sbh _) as [src|]; [|discriminate].
  destruct (dict_truthy src) eqn:Et; simpl; [|discriminate].
  intros Hc. split; [reflexivity|]. split; [reflexivity|].
  exists src. auto.
Qed.

Lemma audit_two_hop_true_inv sh sbh h1 h1b d mf :
  audit_two_hop sh sbh h1 h1b d mf = true ->
  lineage_complete d = true /\
  set_mem (field_text d "parent_sha256") h1 = true /\
  set_mem (field_text d "ancestor_source_sha256") sh = true /\
  exists hop1 src,
    dict_get h1b (field_text d "parent_sha256") = Some hop1 /\
    dict_truthy hop1 = true /\
    field_text hop1 "parent_sha256" = field_text d "ancestor_source_sha256" /\
    dict_get sbh (field_text d "ancestor_source_sha256") = Some src /\
    dict_truthy src = true /\
    context_preserved d src mf = true.
Proof.
  unfold audit_two_hop.
  destruct (lineage_complete d); simpl; [|discriminate].
  destruct (set_mem _ h1); simpl; [|discriminate].
  destruct (set_mem _ sh); simpl; [|discriminate].
  destruct (dict_get h1b _) as [hop1|]; [|discriminate].
  destruct (dict_truthy hop1) eqn:Et1; simpl; [|discriminate].
  destruct (_ =? _) eqn:E; simpl; [|discriminate].
  destruct (dict_get sbh _) as [src|] eqn:Es; [|discriminate].
  destruct (dict_truthy src) eqn:Et; simpl; [|discriminate].
  intros Hc. apply String.eqb_eq in E.
  split; [reflexivity|]. split; [reflexivity|]. split; [reflexivity|].
  exists hop1, src. auto 10.
Qed.

Lemma context_preserved_field d src mf f :
  context_preserved d src mf = true -> In f mf ->
  field_text d f = field_text src f.
Proof.
  unfold context_preserved. rewrite forallb_forall. intros Hall Hin.
  apply String.eqb_eq. now apply Hall.
Qed.

Lemma context_changed_not_preserved d src mf f v :
  context_preserved d src mf = true -> In f mf ->
  py_str v <> field_text d f ->
  context_preserved (dict_set d f v) src mf = false.
Proof.
  intros Hc Hin Hne. unfold context_preserved.
  apply forallb_false_In with (x := f); [assumption|].
  rewrite field_text_set, String.eqb_refl.
  rewrite <- (context_preserved_field _ _ _ _ Hc Hin).
  now apply String.eqb_neq.
Qed.

Lemma one_hop_rejects_changed_context sh sbh d mf f v :
  audit_one_hop sh sbh d mf = true ->
  In f mf -> f <> "parent_sha256" ->
  py_str v <> field_text d f ->
  audit_one_hop sh sbh (dict_set d f v) mf = false.
Proof.
  intros Hpass Hin Hf Hne.
  destruct (audit_one_hop_true_inv _ _ _ _ Hpass)
    as (_ & Hm & src & Hsrc & Ht & Hc).
  unfold audit_one_hop.
  destruct (negb (lineage_complete (dict_set d f v))); [reflexivity|].
  rewrite field_text_set. apply String.eqb_neq in Hf. rewrite Hf.
  rewrite Hm, Hsrc, Ht. simpl.
  now apply context_changed_not_preserved.
Qed.

Lemma two_hop_rejects_changed_context sh sbh h1 h1b d mf f v :
  audit_two_hop sh sbh h1 h1b d mf = true ->
  In f mf -> f <> "parent_sha256" -> f <> "ancestor_source_sha256" ->
  py_str v <> field_text d f ->
  audit_two_hop sh sbh h1 h1b (dict_set d f v) mf = false.
Proof.
  intros Hpass Hin Hf Hf' Hne.
  destruct (audit_two_hop_true_inv _ _ _ _ _ _ Hpass)
    as (_ & Hm & Hm' & hop1 & src & Hh1 & Ht1 & Hchain & Hsrc & Ht & Hc).
  unfold audit_two_hop.
  destruct (negb (lineage_complete (dict_set d f v))); [reflexivity|].
  rewrite !field_text_set.
  apply String.eqb_neq in Hf. apply String.eqb_neq in Hf'. rewrite Hf, Hf'.
  rewrite Hm, Hm', Hh1, Ht1, Hchain, String.eqb_refl, Hsrc, Ht. simpl.
  now apply context_changed_not_preserved.
Qed.

(** ** C7: context fidelity *)

(** C7 (amended).  In a collection of derivatives that all pass the audit,
    giving one mandatory context field of one record a value whose [str()]
    text differs from the text it had makes [audit_one_hop] (and
    [audit_two_hop], on a two-hop baseline) reject that record and no
    other: the failing indices of the changed collection are exactly the
    index of the changed record.  A context field is a source field, so it
    is neither of the pointer fields [parent_sha256] and
    [ancestor_source_sha256]. *)
Theorem context_change_rejected_only_there
    (source_hashes : str_set) (source_by_hash : list (string * record))
    (hop1_hashes : str_set) (hop1_by_hash : list (string * record))
    (mandatory_fields : list string)
    (ds : list record) (i : nat) (d : record) (f : string) (v : value) :
  nth_error ds i = Some d ->
  In f mandatory_fields ->
  f <> "parent_sha256" ->
  f <> "ancestor_source_sha256" ->
  py_str v <> field_text d f ->
  let mutated := update_nth i (fun r => dict_set r f v) ds in
  let one_hop x :=
    audit_one_hop source_hashes source_by_hash x mandatory_fields in
  let two_hop x :=
    audit_two_hop source_hashes source_by_hash hop1_hashes hop1_by_hash x
                  mandatory_fields in
  (Forall (fun x => one_hop x = true) ds ->
   failed_indices one_hop mutated = [i]) /\
  (Forall (fun x => two_hop x = true) ds ->
   failed_indices two_hop mutated = [i]).
Proof.
  intros Hnth Hin Hf Hf' Hne mutated one_hop two_hop.
  split; intros Hall; rewrite failed_indices_from; unfold mutated.
  - rewrite (failed_from_update_single 0 one_hop _ ds i d Hnth Hall);
      [reflexivity|].
    apply one_hop_rejects_changed_context; auto.
    rewrite Forall_forall in Hall. apply Hall.
    eapply nth_error_In; eassumption.
  - rewrite (failed_from_update_single 0 two_hop _ ds i d Hnth Hall);
      [reflexivity|].
    apply two_hop_rejects_changed_context; auto.
    rewrite Forall_forall in Hall. apply Hall.
    eapply nth_error_In; eassumption.
Qed.

Lemma context_change_rejected_only_there_witness :
  Forall (fun x => audit_one_hop (set_of_list sample_hashes)
                     sample_source_by_hash x sample_mandatory = true)
         sample_prov /\
  failed_indices
    (fun x => audit_one_hop (set_of_list sample_hashes) sample_source_by_hash
                            x sample_mandatory)
    (update_nth 1 (fun r => dict_set r "title" (VStr "Stele")) sample_prov)
  = [1%nat].
Proof.
  assert (Hbase :
    Forall (fun x => audit_one_hop (set_of_list sample_hashes)
                       sample_source_by_hash x sample_mandatory = true)
           sample_prov).
  { repeat constructor. }
  split; [exact Hbase|].
  refine (proj1 (context_change_rejected_only_there
                   (set_of_list sample_hashes) sample_source_by_hash [] []
                   sample_mandatory sample_prov 1
                   (transform_provenance
                      [("id", VStr "2"); ("title", VStr "Stela")]
                      sample_mandatory
                      "d1d758e5d7e0c3f69535c6d93b0cc0044ccb8f193e9b3885f16ce9c53eee78d1"
                      sample_generated_at)
                   "title" (VStr "Stele") _ _ _ _ _) Hbase).
  - reflexivity.
  - right. left. reflexivity.
  - discriminate.
  - discriminate.
  - vm_compute. discriminate.
Defined.

(** C7, as stated, fails when the value changes but its [str()] text does
    not: the audit compares [str()] of both sides, so the number [1]
    replaced by the string ["1"] still passes. *)
Lemma text_equal_change_passes_one_hop :
  let derived :=
    transform_provenance numbered_source ["id"] numbered_hash
                         sample_generated_at in
  let changed := dict_set derived "id" (VStr "1") in
  source_fingerprints [numbered_source] = Ok [numbered_hash] /\
  dict_get derived "id" = Some (VInt 1) /\
  dict_get changed "id" = Some (VStr "1") /\
  audit_one_hop (set_of_list [numbered_hash])
                (dict_of_pairs (combine [numbered_hash] [numbered_source]))
                derived ["id"] = true /\
  audit_one_hop (set_of_list [numbered_hash])
                (dict_of_pairs (combine [numbered_hash] [numbered_source]))
                changed ["id"] = true.
Proof. vm_compute. repeat split; reflexivity. Qed.

(** ** Key order and sorting of items *)

Lemma string_leb_trans (a b c : string) :
  String.leb a b = true -> String.leb b c = true -> String.leb a c = true.
Proof.
  unfold String.leb. revert b c.
  induction a as [|x a IH]; intros [|y b] [|z c]; simpl; try congruence.
  unfold Ascii.compare.
  destruct (N.compare_spec (N_of_ascii x) (N_of_ascii y)) as [Exy|Lxy|Gxy];
    try congruence;
  destruct (N.compare_spec (N_of_ascii y) (N_of_ascii z)) as [Eyz|Lyz|Gyz];
    try congruence.
  - rewrite Exy, Eyz, N.compare_refl. apply IH.
  - intros _ _. rewrite Exy. apply N.compare_lt_iff in Lyz. now rewrite Lyz.
  - intros _ _. rewrite <- Eyz. apply N.compare_lt_iff in Lxy. now rewrite Lxy.
  - intros _ _. assert (Hlt : (N_of_ascii x < N_of_ascii z)%N) by lia.
    apply N.compare_lt_iff in Hlt. now rewrite Hlt.
Qed.


Lemma insert_item_perm kv l : Permutation (kv :: l) (insert_item kv l).
Proof.
  induction l as [|kv' l IH]; simpl; [reflexivity|].
  destruct (String.leb (fst kv) (fst kv')); [reflexivity|].
  rewrite perm_swap. now apply perm_skip.
Qed.

Lemma sort_items_perm d : Permutation d (sort_items d).
Proof.
  induction d as [|kv d IH]; simpl; [constructor|].
  rewrite <- insert_item_perm. now apply perm_skip.
Qed.

Lemma insert_item_sorted kv l :
  StronglySorted key_le l -> StronglySorted key_le (insert_item kv l).
Proof.
  induction 1 as [|kv' l Hs IH Hall]; simpl.
  - repeat constructor.
  - destruct (String.leb (fst kv) (fst kv')) eqn:E.
    + constructor; [now constructor|]. constructor; [exact E|].
      eapply Forall_impl; [|exact Hall]. intros q Hq. unfold key_le in *.
      eapply string_leb_trans; eassumption.
    + constructor; [assumption|].
      assert (Hle : key_le kv' kv).
      { unfold key_le. destruct (String.leb_total (fst kv) (fst kv'));
          congruence. }
      apply (Permutation_Forall (insert_item_perm kv l)).
      now constructor.
Qed.

Lemma sort_items_sorted d : StronglySorted key_le (sort_items d).
Proof.
  induction d as [|kv d IH]; simpl; [constructor|].
  now apply insert_item_sorted.
Qed.

Lemma same_key_same_item (l : record) (p q : string * value) :
  NoDup (dict_keys l) -> In p l -> In q l -> fst p = fst q -> p = q.
Proof.
  unfold dict_keys. induction l as [|x l IH]; intros Hnd Hp Hq Hk;
    [contradiction|].
  simpl in Hnd. inversion Hnd as [|? ? Hnin Hnd']; subst.
  destruct Hp as [->|Hp], Hq as [->|Hq]; auto.
  - exfalso. apply Hnin. rewrite Hk. now apply in_map.
  - exfalso. apply Hnin. rewrite <- Hk. now apply in_map.
Qed.

(** Two key-sorted lists with the same items and no repeated key are the
    same list. *)
Lemma sorted_items_unique (l1 l2 : record) :
  Permutation l1 l2 -> NoDup (dict_keys l1) ->
  StronglySorted key_le l1 -> StronglySorted key_le l2 -> l1 = l2.
Proof.
  revert l2. induction l1 as [|p l1 IH]; intros l2 Hperm Hnd Hs1 Hs2.
  - apply Permutation_nil in Hperm. now subst.
  - destruct l2 as [|q l2].
    { apply Permutation_sym, Permutation_nil in Hperm. discriminate. }
    assert (Hpq : p = q).
    { inversion Hs1 as [|? ? _ Hall1]; inversion Hs2 as [|? ? _ Hall2]; subst.
      assert (Hq : In q (p :: l1)).
      { apply (Permutation_in _ (Permutation_sym Hperm)). now left. }
      assert (Hp : In p (q :: l2)).
      { apply (Permutation_in _ Hperm). now left. }
      apply (same_key_same_item (p :: l1)); auto; [now left|].
      rewrite Forall_forall in Hall1, Hall2.
      destruct Hq as [Hq|Hq]; [now subst|].
      destruct Hp as [Hp|Hp]; [now subst|].
      apply String.leb_antisym; [apply (Hall1 _ Hq)|apply (Hall2 _ Hp)]. }
    subst q. f_equal. apply IH.
    + eapply Permutation_cons_inv; eassumption.
    + unfold dict_keys in *. simpl in Hnd. now inversion Hnd.
    + now inversion Hs1.
    + now inversion Hs2.
Qed.

Lemma dict_get_In_iff (d : record) (k : string) (v : value) :
  NoDup (dict_keys d) -> (In (k, v) d <-> dict_get d k = Some v).
Proof.
  intros Hnd. split; [|apply dict_get_In].
  unfold dict_keys in Hnd. induction d as [|[k' v'] d IH]; intros Hin;
    [contradiction|].
  simpl in Hnd. inversion Hnd as [|? ? Hnin Hnd']; subst. simpl.
  destruct Hin as [[= -> ->]|Hin].
  - now rewrite String.eqb_refl.
  - destruct (k' =? k) eqn:E; [|now apply IH].
    apply String.eqb_eq in E. subst k'. exfalso. apply Hnin.
    change k with (fst (k, v)). now apply in_map.
Qed.

Lemma NoDup_keys_items (d : record) : NoDup (dict_keys d) -> NoDup d.
Proof. unfold dict_keys. apply NoDup_map_inv. Qed.

Lemma same_items_perm (r1 r2 : record) :
  NoDup (dict_keys r1) -> NoDup (dict_keys r2) ->
  (forall k, dict_get r1 k = dict_get r2 k) -> Permutation r1 r2.
Proof.
  intros H1 H2 Hsame. apply NoDup_Permutation; try now apply NoDup_keys_items.
  intros [k v]. rewrite !dict_get_In_iff by assumption. now rewrite Hsame.
Qed.

Lemma sort_items_same (r1 r2 : record) :
  NoDup (dict_keys r1) -> NoDup (dict_keys r2) ->
  (forall k, dict_get r1 k = dict_get r2 k) ->
  sort_items r1 = sort_items r2.
Proof.
  intros H1 H2 Hsame. apply sorted_items_unique.
  - rewrite <- !sort_items_perm. now apply same_items_perm.
  - unfold dict_keys. apply (Permutation_NoDup (l := map fst r1)); auto.
    apply Permutation_map, sort_items_perm.
  - apply sort_items_sorted.
  - apply sort_items_sorted.
Qed.

(** ** C6: the fingerprint does not depend on insertion order *)

(** C6.  Two records with the same key/value sets, that is, the same field
    names mapped to the same values whatever the order in which the fields
    were inserted, have the same canonical JSON and the same fingerprint
    [sha256_value]; both are functions of the record, so repeated calls on
    one record return one fingerprint. *)
Theorem fingerprint_independent_of_insertion_order (r1 r2 : record) :
  NoDup (dict_keys r1) -> NoDup (dict_keys r2) ->
  (forall k, dict_get r1 k = dict_get r2 k) ->
  canonical_json r1 = canonical_json r2 /\
  sha256_value r1 = sha256_value r2.
Proof.
  intros H1 H2 Hsame.
  assert (Hc : canonical_json r1 = canonical_json r2).
  { unfold canonical_json. now rewrite (sort_items_same r1 r2). }
  split; [exact Hc|]. unfold sha256_value. now rewrite Hc.
Qed.

Lemma fingerprint_independent_of_insertion_order_witness :
  title_last <> title_first /\
  sha256_value title_last = sha256_value title_first.
Proof.
  split; [discriminate|].
  apply (fingerprint_independent_of_insertion_order title_last title_first).
  - repeat constructor; simpl; intuition discriminate.
  - repeat constructor; simpl; intuition discriminate.
  - intros k. unfold title_last, title_first, dict_get.
    destruct (String.eqb_spec "id" k) as [E1|E1];
      destruct (String.eqb_spec "title" k) as [E2|E2]; try reflexivity.
    subst k. discriminate E2.
Defined.

(** ** C8: a value outside the canonical encoding *)

Lemma rmap_list_Raise {A B} (f : A -> result B) (l : list A) (x : A) (e : exn) :
  (forall y e', f y = Raise e' -> e' = e) ->
  In x l -> f x = Raise e -> rmap_list f l = Raise e.
Proof.
  intros Honly Hin Hx. induction l as [|a l IH]; [contradiction|]. simpl.
  destruct (f a) as [b|e'] eqn:Ea; simpl.
  - destruct Hin as [->|Hin]; [congruence|]. now rewrite (IH Hin).
  - now rewrite (Honly _ _ Ea).
Qed.

Lemma json_item_raises_TypeError kv e : json_item kv = Raise e -> e = TypeError.
Proof.
  unfold json_item. destruct kv as [k [| [|] | z | s | t b]]; simpl;
    congruence.
Qed.

Lemma canonical_json_raises_TypeError d e :
  canonical_json d = Raise e -> e = TypeError.
Proof.
  unfold canonical_json.
  generalize (sort_items d). intros l.
  destruct (rmap_list json_item l) as [items|e'] eqn:E; simpl; [discriminate|].
  intros [= <-]. clear d. revert e' E.
  induction l as [|a l IH]; intros e' E; simpl in E; [discriminate|].
  destruct (json_item a) as [b|e0] eqn:Ea; simpl in E.
  - destruct (rmap_list json_item l) as [ys|e1]; simpl in E; [discriminate|].
    injection E as <-. now apply IH.
  - injection E as <-. now apply json_item_raises_TypeError in Ea.
Qed.

Lemma sha256_value_raises_TypeError d e :
  sha256_value d = Raise e -> e = TypeError.
Proof.
  unfold sha256_value. destruct (canonical_json d) as [s|e'] eqn:E; simpl;
    [discriminate|].
  intros [= <-]. now apply canonical_json_raises_TypeError in E.
Qed.

(** C8 (amended).  For every record that holds a value outside the
    canonical encoding, [canonical_json] and [sha256_value] raise (Python's
    [TypeError], the spec's EncodingError); nothing catches the exception
    per record, so fingerprinting any list of source records that contains
    such a record raises it too and the run over that list stops. *)
Theorem unserialisable_value_raises_and_stops_run
    (source : list record) (r : record) (k text : string) (truth : bool) :
  In r source ->
  In (k, VObject text truth) r ->
  canonical_json r = Raise TypeError /\
  sha256_value r = Raise TypeError /\
  source_fingerprints source = Raise TypeError.
Proof.
  intros Hr Hk.
  assert (Hc : canonical_json r = Raise TypeError).
  { unfold canonical_json.
    rewrite (rmap_list_Raise json_item (sort_items r)
               (k, VObject text truth) TypeError).
    - reflexivity.
    - apply json_item_raises_TypeError.
    - apply (Permutation_in _ (sort_items_perm r)). exact Hk.
    - reflexivity. }
  assert (Hs : sha256_value r = Raise TypeError).
  { unfold sha256_value. now rewrite Hc. }
  repeat split; try assumption.
  unfold source_fingerprints.
  apply (rmap_list_Raise sha256_value source r TypeError); auto.
  apply sha256_value_raises_TypeError.
Qed.

Lemma unserialisable_value_raises_and_stops_run_witness :
  canonical_json unserialisable = Raise TypeError /\
  sha256_value unserialisable = Raise TypeError /\
  source_fingerprints (sample_source ++ [unserialisable]) = Raise TypeError.
Proof.
  apply (unserialisable_value_raises_and_stops_run
           (sample_source ++ [unserialisable]) unserialisable
           "tags" "{'roman'}" true).
  - apply in_or_app. right. left. reflexivity.
  - right. left. reflexivity.
Defined.

(** C8, as stated, fails on its second half: with one record outside the
    encoding among serialisable ones, the fingerprints of the whole list
    are lost, not only that record's. *)
Lemma one_bad_record_fails_whole_run :
  source_fingerprints sample_source = Ok sample_hashes /\
  source_fingerprints (sample_source ++ [unserialisable]) = Raise TypeError.
Proof. vm_compute. split; reflexivity. Qed.

(** ** Index selection *)

Lemma insert_nat_perm x l : Permutation (x :: l) (insert_nat x l).
Proof.
  induction l as [|y l IH]; simpl; [reflexivity|].
  destruct (Nat.leb x y); [reflexivity|].
  rewrite perm_swap. now apply perm_skip.
Qed.

Lemma sorted_nat_perm l : Permutation l (sorted_nat l).
Proof.
  induction l as [|x l IH]; simpl; [constructor|].
  rewrite <- insert_nat_perm. now apply perm_skip.
Qed.

Lemma insert_nat_sorted x l :
  StronglySorted le l -> StronglySorted le (insert_nat x l).
Proof.
  induction 1 as [|y l Hs IH Hall]; simpl.
  - repeat constructor.
  - destruct (Nat.leb_spec x y) as [Hle|Hlt].
    + constructor; [now constructor|]. constructor; [exact Hle|].
      eapply Forall_impl; [|exact Hall]. intros z Hz. lia.
    + constructor; [assumption|].
      apply (Permutation_Forall (insert_nat_perm x l)).
      constructor; [lia|assumption].
Qed.

Lemma sorted_nat_sorted l : StronglySorted le (sorted_nat l).
Proof.
  induction l as [|x l IH]; simpl; [constructor|].
  now apply insert_nat_sorted.
Qed.

Lemma sorted_le_NoDup_lt l :
  StronglySorted le l -> NoDup l -> StronglySorted lt l.
Proof.
  induction 1 as [|x l Hs IH Hall]; intros Hnd; [constructor|].
  inversion Hnd as [|? ? Hnin Hnd']; subst.
  constructor; [now apply IH|].
  rewrite Forall_forall in *. intros y Hy.
  specialize (Hall y Hy). destruct (Nat.eq_dec x y); [now subst|lia].
Qed.


(** Two strictly increasing lists with the same elements are equal. *)
Lemma sorted_lt_ext l1 l2 :
  StronglySorted lt l1 -> StronglySorted lt l2 ->
  (forall x, In x l1 <-> In x l2) -> l1 = l2.
Proof.
  intros H1. revert l2. induction H1 as [|x l1 Hs1 IH Hall1];
    intros l2 H2 Hext.
  - destruct l2 as [|y l2]; [reflexivity|].
    exfalso. apply (proj2 (Hext y)). now left.
  - destruct H2 as [|y l2 Hs2 Hall2].
    { exfalso. apply (proj1 (Hext x)). now left. }
    rewrite Forall_forall in Hall1, Hall2.
    assert (Hxy : x = y).
    { destruct (proj1 (Hext x) (or_introl eq_refl)) as [->|Hx2]; auto.
      destruct (proj2 (Hext y) (or_introl eq_refl)) as [->|Hy1]; auto.
      specialize (Hall1 _ Hy1). specialize (Hall2 _ Hx2). lia. }
    subst y. f_equal. apply IH; [assumption|].
    intros z. split; intros Hz.
    + destruct (proj1 (Hext z) (or_intror Hz)) as [<-|Hz2]; auto.
      specialize (Hall1 _ Hz). lia.
    + destruct (proj2 (Hext z) (or_intror Hz)) as [<-|Hz1]; auto.
      specialize (Hall2 _ Hz). lia.
Qed.

Lemma NoDup_firstn {A} (k : nat) (l : list A) : NoDup l -> NoDup (firstn k l).
Proof.
  intros Hnd. rewrite <- (firstn_skipn k l) in Hnd.
  now apply NoDup_app_remove_r in Hnd.
Qed.

Lemma In_firstn {A} (k : nat) (l : list A) (x : A) :
  In x (firstn k l) -> In x l.
Proof.
  intros Hin. rewrite <- (firstn_skipn k l). apply in_or_app. now left.
Qed.

Section InjectIndices.
Context `{Shuffler}.
Variables (n : nat) (frac : Q) (seed : Z).

Lemma shuffle_seq_NoDup : NoDup (shuffle seed (seq 0 n)).
Proof. eapply Permutation_NoDup; [apply shuffle_perm|apply seq_NoDup]. Qed.

Lemma shuffle_seq_length : List.length (shuffle seed (seq 0 n)) = n.
Proof.
  rewrite <- (Permutation_length (shuffle_perm seed (seq 0 n))).
  apply length_seq.
Qed.

Lemma inject_count_pos : (1 <= inject_count n frac)%Z.
Proof. unfold inject_count. lia. Qed.

Lemma inject_indices_length :
  List.length (inject_indices n frac seed) =
  Nat.min n (Z.to_nat (inject_count n frac)).
Proof.
  unfold inject_indices.
  rewrite <- (Permutation_length (sorted_nat_perm _)).
  rewrite length_firstn, shuffle_seq_length. apply Nat.min_comm.
Qed.

Lemma inject_indices_NoDup : NoDup (inject_indices n frac seed).
Proof.
  unfold inject_indices.
  eapply Permutation_NoDup; [apply sorted_nat_perm|].
  apply NoDup_firstn, shuffle_seq_NoDup.
Qed.

Lemma inject_indices_sorted : StronglySorted lt (inject_indices n frac seed).
Proof.
  apply sorted_le_NoDup_lt; [|apply inject_indices_NoDup].
  apply sorted_nat_sorted.
Qed.

Lemma inject_indices_in_range i :
  In i (inject_indices n frac seed) -> i < n.
Proof.
  unfold inject_indices. intros Hin.
  apply (Permutation_in _ (Permutation_sym (sorted_nat_perm _))) in Hin.
  apply In_firstn in Hin.
  apply (Permutation_in _ (Permutation_sym (shuffle_perm _ _))) in Hin.
  apply in_seq in Hin. lia.
Qed.

Lemma inject_indices_nonempty : 1 <= n -> inject_indices n frac seed <> [].
Proof.
  intros Hn Hnil. pose proof inject_indices_length as Hlen.
  rewrite Hnil in Hlen. simpl in Hlen. pose proof inject_count_pos. lia.
Qed.
End InjectIndices.

(** ** Floats: what rounding can add *)

Lemma pow2_pos (e : Z) : (0 < pow2 e)%Q.
Proof. unfold pow2. apply Qpower_0_lt. reflexivity. Qed.

Lemma pow2_plus (a b : Z) : (pow2 (a + b) == pow2 a * pow2 b)%Q.
Proof. unfold pow2. apply Qpower_plus. discriminate. Qed.

Lemma pow2_cancel (e : Z) : (pow2 (- e) * pow2 e == 1)%Q.
Proof.
  rewrite <- pow2_plus. replace (- e + e)%Z with 0%Z by lia. reflexivity.
Qed.

Lemma pow2_nonneg_Z (e : Z) : (0 <= e)%Z -> (pow2 e == inject_Z (2 ^ e))%Q.
Proof. intros He. unfold pow2. now rewrite Zpower_Qpower. Qed.

Lemma round_half_even_bounds (y : Q) :
  (inject_Z (round_half_even y) <= y + (1 # 2))%Q /\
  (y - (1 # 2) <= inject_Z (round_half_even y))%Q.
Proof.
  unfold round_half_even.
  pose proof (Qfloor_le y) as Hlo. pose proof (Qlt_floor y) as Hhi.
  rewrite inject_Z_plus in Hhi. change (inject_Z 1) with 1%Q in Hhi.
  set (q := Qfloor y) in *.
  assert (Hs : (inject_Z (q + 1) == inject_Z q + 1)%Q)
    by (rewrite inject_Z_plus; reflexivity).
  destruct (Qcompare_spec (y - inject_Z q) (1 # 2)) as [He|Hl|Hg].
  - destruct (Z.even q); [|rewrite Hs]; split; lra.
  - split; lra.
  - rewrite Hs. split; lra.
Qed.

Lemma round_half_even_nonneg (y : Q) : (0 <= y)%Q -> (0 <= round_half_even y)%Z.
Proof.
  intros Hy. unfold round_half_even.
  assert (Hq : (0 <= Qfloor y)%Z).
  { change 0%Z with (Qfloor 0). now apply Qfloor_resp_le. }
  destruct (y - inject_Z (Qfloor y) ?= 1 # 2)%Q; [destruct (Z.even _)| |]; lia.
Qed.

Lemma ilog2_lower (x : Q) : (0 < x)%Q -> (pow2 (ilog2 x) <= x)%Q.
Proof.
  intros Hx. unfold ilog2.
  destruct (Qle_bool _ x) eqn:E; [now apply Qle_bool_imp_le|]. clear E.
  destruct x as [a b]. simpl Qnum. simpl Qden.
  assert (Ha : (0 < a)%Z) by (unfold Qlt in Hx; simpl in Hx; lia).
  pose proof (Z.log2_spec a Ha) as [Hla _].
  pose proof (Z.log2_spec (Zpos b) (Pos2Z.is_pos b)) as [_ Hlb].
  pose proof (Z.log2_nonneg a) as Hna.
  pose proof (Z.log2_nonneg (Zpos b)) as Hnb.
  set (la := Z.log2 a) in *. set (lb := Z.log2 (Zpos b)) in *.
  replace (la - lb - 1)%Z with (la + - (Z.succ lb))%Z by lia.
  rewrite pow2_plus. unfold pow2 at 2. rewrite Qpower_opp.
  fold (pow2 (Z.succ lb)). rewrite !pow2_nonneg_Z by lia.
  assert (HA : (0 < 2 ^ la)%Z) by (apply Z.pow_pos_nonneg; lia).
  assert (HB : (0 < 2 ^ Z.succ lb)%Z) by (apply Z.pow_pos_nonneg; lia).
  set (A := (2 ^ la)%Z) in *. set (B := (2 ^ Z.succ lb)%Z) in *.
  assert (Hq : (inject_Z A * / inject_Z B == A # Z.to_pos B)%Q).
  { rewrite (Qmake_Qdiv A (Z.to_pos B)). rewrite Z2Pos.id by assumption.
    reflexivity. }
  rewrite Hq. unfold Qle. simpl. rewrite Z2Pos.id by assumption. nia.
Qed.

Lemma double_round_nonneg (x : Q) : (0 <= x)%Q -> (0 <= double_round x)%Q.
Proof.
  intros Hx. unfold double_round. destruct (Qeq_bool x 0); [lra|].
  set (e := Z.max _ _).
  apply Qmult_le_0_compat; [|apply Qlt_le_weak, pow2_pos].
  change 0%Q with (inject_Z 0). rewrite <- Zle_Qle.
  apply round_half_even_nonneg.
  apply Qmult_le_0_compat; [assumption|apply Qlt_le_weak, pow2_pos].
Qed.

Lemma pow2_least_small : (pow2 (-1074) <= 1 # 4)%Q.
Proof. apply Qle_bool_imp_le. vm_compute. reflexivity. Qed.

Lemma pow2_m52_small : (pow2 (-52) <= 1 # 4)%Q.
Proof. apply Qle_bool_imp_le. vm_compute. reflexivity. Qed.

Lemma Qabs_nonneg_eq (x : Q) : (0 <= x)%Q -> Qabs x = x.
Proof.
  destruct x as [a b]. unfold Qle, Qabs. simpl. intros Ha.
  f_equal. apply Z.abs_eq. lia.
Qed.

Lemma double_round_le (x : Q) :
  (0 <= x)%Q -> (double_round x <= (9 # 8) * x + (1 # 8))%Q.
Proof.
  intros Hx. unfold double_round.
  destruct (Qeq_bool x 0) eqn:E0; [lra|].
  apply Qeq_bool_neq in E0.
  assert (Hpos : (0 < x)%Q) by (destruct (Qlt_le_dec 0 x); [assumption|]; exfalso; apply E0; lra).
  rewrite (Qabs_nonneg_eq x Hx).
  set (e := Z.max (ilog2 x - 52) (-1074)).
  destruct (round_half_even_bounds (x * pow2 (- e))) as [Hup _].
  pose proof (pow2_pos e) as He. pose proof (pow2_cancel e) as Hc.
  assert (Hr : (inject_Z (round_half_even (x * pow2 (- e))) * pow2 e
                <= x + (1 # 2) * pow2 e)%Q).
  { apply (Qmult_le_compat_r _ _ (pow2 e)) in Hup; [|lra].
    assert (Hx' : ((x * pow2 (- e) + (1 # 2)) * pow2 e
                   == x * (pow2 (- e) * pow2 e) + (1 # 2) * pow2 e)%Q) by ring.
    rewrite Hx', Hc in Hup. lra. }
  assert (Hs : (pow2 e <= (1 # 4) * x + (1 # 4))%Q).
  { unfold e. destruct (Z.max_spec (ilog2 x - 52) (-1074)) as [[_ ->]|[_ ->]].
    - pose proof pow2_least_small. lra.
    - replace (ilog2 x - 52)%Z with (ilog2 x + -52)%Z by lia.
      rewrite pow2_plus.
      pose proof (ilog2_lower x Hpos) as Hl. pose proof pow2_m52_small as H52.
      pose proof (pow2_pos (ilog2 x)) as Hp. pose proof (pow2_pos (-52)) as Hp'.
      assert (pow2 (ilog2 x) * pow2 (-52) <= x * (1 # 4))%Q.
      { apply Qmult_le_compat_nonneg; split; lra. }
      lra. }
  lra.
Qed.

Lemma py_int_le (y : Q) : (0 <= y)%Q -> (inject_Z (py_int y) <= y)%Q.
Proof.
  intros Hy. unfold py_int. destruct y as [a b]. simpl.
  assert (Ha : (0 <= a)%Z) by (unfold Qle in Hy; simpl in Hy; lia).
  rewrite Z.quot_div_nonneg by lia.
  unfold Qle. simpl. rewrite Z.mul_1_r.
  pose proof (Z.mul_div_le a (Zpos b) (Pos2Z.is_pos b)). lia.
Qed.

Lemma inject_count_below (n : nat) (frac : Q) :
  2 <= n ->
  (0 <= double_round frac)%Q -> (double_round frac <= 21 # 100)%Q ->
  (inject_count n frac < Z.of_nat n)%Z.
Proof.
  intros Hn Hlo Hhi. unfold inject_count, float_mul, float_of_int,
    float_of_literal.
  set (fn := double_round (inject_Z (Z.of_nat n))).
  set (c := double_round frac) in *.
  assert (Hn0 : (0 <= inject_Z (Z.of_nat n))%Q).
  { change 0%Q with (inject_Z 0). rewrite <- Zle_Qle. lia. }
  assert (Hn2 : (2 <= inject_Z (Z.of_nat n))%Q).
  { change 2%Q with (inject_Z 2). rewrite <- Zle_Qle. lia. }
  pose proof (double_round_nonneg _ Hn0) as Hfn0.
  pose proof (double_round_le _ Hn0) as Hfn.
  fold fn in Hfn0, Hfn.
  assert (Hp0 : (0 <= fn * c)%Q) by now apply Qmult_le_0_compat.
  assert (Hp : (fn * c <= ((9 # 8) * inject_Z (Z.of_nat n) + (1 # 8))
                          * (21 # 100))%Q).
  { apply Qmult_le_compat_nonneg; split; assumption. }
  pose proof (double_round_nonneg _ Hp0) as Hr0.
  pose proof (double_round_le _ Hp0) as Hr.
  pose proof (py_int_le _ Hr0) as Hi.
  assert (Hlt : (inject_Z (py_int (double_round (fn * c)))
                 < inject_Z (Z.of_nat n))%Q) by lra.
  rewrite <- Zlt_Qlt in Hlt. lia.
Qed.

(** The model's floats against Python's: the literal [0.10], and products
    that exact arithmetic gets wrong. *)
Example float_literal_tenth :
  Qred (float_of_literal (1 # 10))
  = (3602879701896397 # 36028797018963968)%Q.
Proof. vm_compute. reflexivity. Qed.

Example inject_count_rounds_the_product :
  inject_count 100 (29 # 100) = 28%Z /\
  py_int (inject_Z 100 * (29 # 100)) = 29%Z /\
  inject_count 10 (7 # 10) = 7%Z /\
  py_int (inject_Z 10 * (7 # 10)) = 7%Z /\
  py_int (inject_Z 10 * float_of_literal (7 # 10)) = 6%Z.
Proof. vm_compute. repeat split. Qed.

Example inject_count_call_raises :
  inject_count_call 10 (inject_Z (10 ^ 400)) = Raise OverflowError /\
  inject_count_call 0 (inject_Z (10 ^ 400)) = Raise ValueError /\
  inject_count_call 1000 (inject_Z (2 ^ 1020)) = Raise OverflowError /\
  inject_count_call 10 (inject_Z (2 ^ 1020)) = Ok (10 * 2 ^ 1020)%Z.
Proof. vm_compute. repeat split. Qed.

(** ** C4: how many indices are selected *)

Lemma inject_count_call_Ok (n : nat) (frac : Q) (k : Z) :
  inject_count_call n frac = Ok k -> k = inject_count n frac.
Proof.
  unfold inject_count_call, inject_count.
  destruct (double_overflows (float_of_int _)); [discriminate|].
  destruct (double_overflows (float_of_literal _));
    [destruct (n =? 0)%nat; discriminate|].
  destruct (double_overflows (float_mul _ _)); [discriminate|].
  now intros [= <-].
Qed.

(** A call that returns, returns the list [inject_indices] is, for the
    shuffle of the freshly seeded generator. *)
Lemma inject_indices_call_Ok `{Generator} (n : nat) (frac : Q) (seed : Z)
    (w : randoms) (k : Z) :
  inject_count_call n frac = Ok k ->
  fst (inject_indices_call n frac seed w)
  = Ok (@inject_indices (seeded_shuffler _) n frac seed).
Proof.
  intros Hk. unfold inject_indices_call. rewrite Hk. simpl.
  unfold inject_indices. now rewrite (inject_count_call_Ok _ _ _ Hk).
Qed.

(** C4 (amended).  A call [inject_indices(n, frac, seed)] computes
    [n * frac] in floats: [n] is converted to a float, the fraction is a
    float, and the product is rounded to a float.  When these three are
    finite, the call returns exactly [min(n, max(1, int(n * frac)))]
    indices, for that float product truncated towards zero (neither
    rounded up nor computed exactly); the indices are distinct, below [n]
    and in increasing order.  Otherwise the call raises: [ValueError] for
    no records and an infinite fraction, [OverflowError] in every other
    case.  The outcome is the same whatever the state of the interpreter's
    generators, because the call seeds a generator of its own, and the
    call leaves the module-level generator as it was: two calls with the
    same arguments return the same indices. *)
Theorem inject_indices_count_and_determinism `{Generator}
    (n : nat) (frac : Q) (seed : Z) (w : randoms) :
  let fn := float_of_int (Z.of_nat n) in
  let f := float_of_literal frac in
  let product := float_mul fn f in
  let finite := negb (double_overflows fn) && negb (double_overflows f)
                && negb (double_overflows product) in
  let call := inject_indices_call n frac seed in
  (finite = true ->
   exists idx,
     fst (call w) = Ok idx /\
     List.length idx = Nat.min n (Z.to_nat (Z.max 1 (py_int product))) /\
     NoDup idx /\
     Forall (fun i => i < n) idx /\
     StronglySorted lt idx) /\
  (finite = false ->
   fst (call w)
   = Raise (if (n =? 0)%nat then ValueError else OverflowError)) /\
  (forall w', fst (call w') = fst (call w)) /\
  module_rng (snd (call w)) = module_rng w.
Proof.
  intros fn f product finite call. split; [|split; [|split]].
  - intros Hfin. unfold finite in Hfin.
    apply andb_prop in Hfin as [Hfin Hp]. apply andb_prop in Hfin as [Hn Hf].
    apply negb_true_iff in Hn, Hf, Hp.
    assert (Hk : inject_count_call n frac = Ok (Z.max 1 (py_int product))).
    { unfold inject_count_call. fold fn f product. now rewrite Hn, Hf, Hp. }
    exists (@inject_indices (seeded_shuffler _) n frac seed).
    split; [apply (inject_indices_call_Ok n frac seed w _ Hk)|].
    split; [apply (@inject_indices_length (seeded_shuffler _))|].
    split; [apply (@inject_indices_NoDup (seeded_shuffler _))|].
    split; [|apply (@inject_indices_sorted (seeded_shuffler _))].
    apply Forall_forall. intros i.
    apply (@inject_indices_in_range (seeded_shuffler _)).
  - intros Hfin. unfold call, inject_indices_call, inject_count_call.
    fold fn f product. unfold finite in Hfin.
    destruct (double_overflows fn) eqn:Hn.
    + destruct n as [|n']; [discriminate Hn|reflexivity].
    + destruct (double_overflows f) eqn:Hf.
      * now destruct (n =? 0)%nat.
      * destruct (double_overflows product) eqn:Hp; [|discriminate Hfin].
        destruct n as [|n']; [discriminate Hp|reflexivity].
  - intros w'. unfold call, inject_indices_call.
    now destruct (inject_count_call n frac).
  - unfold call, inject_indices_call.
    now destruct (inject_count_call n frac).
Qed.

Lemma inject_indices_count_and_determinism_witness :
  exists idx,
    fst (@inject_indices_call lcg_generator 100 (29 # 100) 7 fresh_randoms)
    = Ok idx /\
    List.length idx = 28 /\
    NoDup idx /\
    Forall (fun i => i < 100) idx /\
    StronglySorted lt idx.
Proof.
  destruct (proj1 (@inject_indices_count_and_determinism lcg_generator
                     100 (29 # 100) 7 fresh_randoms) eq_refl)
    as (idx & Hcall & Hlen & Hnd & Hr & Hs).
  exists idx. split; [exact Hcall|]. split; [|auto].
  rewrite Hlen. vm_compute. reflexivity.
Defined.

(** C4, as stated, fails whenever [n * fraction] is no integer: of three
    records and the fraction one half, one index is selected under every
    shuffle and seed, where the ceiling of 1.5 is 2. *)
Lemma inject_indices_truncates_not_ceils :
  (forall (R : Shuffler) (seed : Z),
      List.length (@inject_indices R 3 (1 # 2)%Q seed) = 1) /\
  Qceiling (inject_Z 3 * (1 # 2)) = 2%Z.
Proof.
  split; [|reflexivity].
  intros R seed. rewrite inject_indices_length. reflexivity.
Qed.

(** ** The object store: what a computation leaves untouched *)

Lemma update_nth_firstn (b l : nat) (g : record -> record) (h : heap) :
  b <= l -> firstn b (update_nth l g h) = firstn b h.
Proof.
  revert b l. induction h as [|r h IH]; intros b l Hle; [now destruct l|].
  destruct l as [|l]; simpl.
  - assert (b = 0) by lia. now subst.
  - destruct b as [|b]; [reflexivity|]. simpl. f_equal. apply IH. lia.
Qed.

Section Keeps.
Variable b : nat.

Lemma keeps_ret {A} (a : A) (post : A -> Prop) :
  post a -> keeps b (ret a) post.
Proof.
  intros Hp h Hb. simpl. repeat split; auto. now intros ? [= <-].
Qed.

Lemma keeps_raise {A} (e : exn) (post : A -> Prop) :
  keeps b (raise e) post.
Proof. intros h Hb. simpl. repeat split; auto. discriminate. Qed.

Lemma keeps_lift {A} (r : result A) (post : A -> Prop) :
  (forall a, r = Ok a -> post a) -> keeps b (lift r) post.
Proof. intros Hp h Hb. simpl. repeat split; auto. Qed.

Lemma keeps_weaken {A} (m : M A) (P Q : A -> Prop) :
  keeps b m P -> (forall a, P a -> Q a) -> keeps b m Q.
Proof.
  intros Hm HPQ h Hb. destruct (Hm h Hb) as (H1 & H2 & H3).
  repeat split; auto.
Qed.

Lemma keeps_bind {A B} (m : M A) (k : A -> M B) (P : A -> Prop)
    (Q : B -> Prop) :
  keeps b m P -> (forall a, P a -> keeps b (k a) Q) ->
  keeps b (bind m k) Q.
Proof.
  intros Hm Hk h Hb. destruct (Hm h Hb) as (H1 & H2 & H3).
  unfold bind. destruct (m h) as [[a|e] h1]; simpl in *.
  - destruct (Hk a (H3 a eq_refl) h1 H2) as (K1 & K2 & K3).
    repeat split; auto. congruence.
  - repeat split; auto. discriminate.
Qed.

Lemma keeps_load (l : loc) : keeps b (load l) (fun _ => True).
Proof. intros h Hb. simpl. repeat split; auto. Qed.

Lemma keeps_new_dict (r : record) : keeps b (new_dict r) (fun l => b <= l).
Proof.
  intros h Hb. simpl. repeat split.
  - rewrite firstn_app. replace (b - List.length h) with 0 by lia.
    simpl. apply app_nil_r.
  - rewrite length_app. lia.
  - intros a [= <-]. exact Hb.
Qed.

Lemma keeps_setitem (l : loc) (k : string) (v : value) :
  b <= l -> keeps b (setitem l k v) (fun _ => True).
Proof.
  intros Hl h Hb. simpl. repeat split.
  - now apply update_nth_firstn.
  - now rewrite update_nth_length.
Qed.

Lemma keeps_index {A} (xs : list A) (i : nat) (P : A -> Prop) :
  Forall P xs -> keeps b (index xs i) P.
Proof.
  intros Hall. unfold index. destruct (nth_error xs i) as [x|] eqn:E.
  - apply keeps_ret. rewrite Forall_forall in Hall. apply Hall.
    eapply nth_error_In; eassumption.
  - apply keeps_raise.
Qed.

Lemma keeps_map_M {A B} (f : A -> M B) (l : list A) (P : B -> Prop) :
  (forall x, keeps b (f x) P) -> keeps b (map_M f l) (Forall P).
Proof.
  intros Hf. induction l as [|x l IH]; simpl.
  - apply keeps_ret. constructor.
  - eapply keeps_bind; [apply Hf|]. intros y Hy.
    eapply keeps_bind; [apply IH|]. intros ys Hys.
    apply keeps_ret. now constructor.
Qed.

Lemma keeps_for_each {A} (f : A -> M unit) (l : list A) :
  (forall x, keeps b (f x) (fun _ => True)) ->
  keeps b (for_each f l) (fun _ => True).
Proof.
  intros Hf. induction l as [|x l IH]; simpl.
  - now apply keeps_ret.
  - eapply keeps_bind; [apply Hf|]. intros _ _. apply IH.
Qed.

Lemma keeps_copy_all (records : list loc) :
  keeps b (copy_all records) (Forall (fun l => b <= l)).
Proof.
  unfold copy_all. apply keeps_map_M. intros x.
  eapply keeps_bind; [apply keeps_load|]. intros r _.
  apply keeps_new_dict.
Qed.

Lemma keeps_overwrite_field (mut : list loc) (idx : list nat) (k : string)
    (v : value) :
  Forall (fun l => b <= l) mut ->
  keeps b (overwrite_field mut idx k v) (fun _ => True).
Proof.
  intros Hmut. unfold overwrite_field. apply keeps_for_each. intros i.
  eapply keeps_bind; [apply keeps_index; exact Hmut|].
  intros l Hl. now apply keeps_setitem.
Qed.

Lemma keeps_load_all (mut : list loc) :
  keeps b (map_M load mut) (fun _ => True).
Proof.
  eapply keeps_weaken; [apply keeps_map_M; intros x; apply keeps_load|].
  auto.
Qed.
End Keeps.

Lemma keeps_leaves_store_unchanged {A} (m : M A) :
  (forall b, keeps b m (fun _ => True)) -> leaves_store_unchanged m.
Proof.
  intros Hk h. destruct (Hk (List.length h) h (le_n _)) as (Hf & _ & _).
  rewrite Hf. apply firstn_all.
Qed.

Section ScenarioFrames.
Context `{Shuffler}.
Variables (source : list record) (source_hashes : list string)
          (mandatory_fields : list string).
Variable b : nat.

Lemma keeps_scenario_result name mut idx :
  keeps b (scenario_result source source_hashes mandatory_fields name mut idx)
        (fun _ => True).
Proof.
  unfold scenario_result. eapply keeps_bind; [apply keeps_load_all|].
  intros ds _. now apply keeps_lift.
Qed.

(** The shape shared by the scenarios: copy, overwrite one field at the
    injected indices of the copies, score. *)
Lemma keeps_copy_overwrite_score prov idx k v name :
  keeps b
    (mut <- copy_all prov ;;
     overwrite_field mut idx k v ;;;
     scenario_result source source_hashes mandatory_fields name mut idx)
    (fun _ => True).
Proof.
  eapply keeps_bind; [apply keeps_copy_all|]. intros mut Hmut.
  eapply keeps_bind; [now apply keeps_overwrite_field|].
  intros _ _. apply keeps_scenario_result.
Qed.

Lemma keeps_baseline_provenance prov :
  keeps b (baseline_provenance source source_hashes mandatory_fields prov)
        (fun _ => True).
Proof.
  unfold baseline_provenance. eapply keeps_bind; [apply keeps_copy_all|].
  intros mut _. apply keeps_scenario_result.
Qed.

Lemma keeps_orphan_parent_link prov :
  keeps b (orphan_parent_link source source_hashes mandatory_fields prov)
        (fun _ => True).
Proof. apply keeps_copy_overwrite_score. Qed.

Lemma keeps_missing_generated_by prov :
  keeps b (missing_generated_by source source_hashes mandatory_fields prov)
        (fun _ => True).
Proof. apply keeps_copy_overwrite_score. Qed.

Lemma keeps_mandatory_context_erasure prov :
  keeps b
    (mandatory_context_erasure source source_hashes mandatory_fields prov)
    (fun _ => True).
Proof.
  unfold mandatory_context_erasure.
  eapply keeps_bind; [apply keeps_copy_all|]. intros mut Hmut.
  eapply keeps_bind;
    [apply keeps_index with (P := fun _ => True);
     apply Forall_forall; auto|].
  intros field _.
  eapply keeps_bind; [now apply keeps_overwrite_field|].
  intros _ _. apply keeps_scenario_result.
Qed.

Lemma keeps_generated_label_stripped prov :
  keeps b
    (generated_label_stripped source source_hashes mandatory_fields prov)
    (fun _ => True).
Proof. apply keeps_copy_overwrite_score. Qed.

Lemma keeps_run_failure_scenarios prov :
  keeps b (run_failure_scenarios source source_hashes mandatory_fields prov)
        (fun _ => True).
Proof.
  unfold run_failure_scenarios.
  eapply keeps_bind; [apply keeps_baseline_provenance|]. intros s0 _.
  eapply keeps_bind; [apply keeps_orphan_parent_link|]. intros s1 _.
  eapply keeps_bind; [apply keeps_missing_generated_by|]. intros s2 _.
  eapply keeps_bind; [apply keeps_mandatory_context_erasure|]. intros s3 _.
  eapply keeps_bind; [apply keeps_generated_label_stripped|]. intros s4 _.
  now apply keeps_ret.
Qed.
End ScenarioFrames.

Section TwoHopFrames.
Context `{Shuffler}.
Variables (records : list record) (source_hashes : list string)
          (prov_hop1 : list record) (hop1_hashes : list string)
          (mandatory_fields : list string).
Variable b : nat.

Lemma keeps_scenario_result_llm name mut idx check :
  keeps b (scenario_result_llm name mut idx check) (fun _ => True).
Proof.
  unfold scenario_result_llm. eapply keeps_bind; [apply keeps_load_all|].
  intros ds _. now apply keeps_lift.
Qed.

Lemma keeps_copy_overwrite_score_llm prov idx k v name check :
  keeps b
    (mut <- copy_all prov ;;
     overwrite_field mut idx k v ;;;
     scenario_result_llm name mut idx check)
    (fun _ => True).
Proof.
  eapply keeps_bind; [apply keeps_copy_all|]. intros mut Hmut.
  eapply keeps_bind; [now apply keeps_overwrite_field|].
  intros _ _. apply keeps_scenario_result_llm.
Qed.

Lemma keeps_two_hop_baseline_provenance prov :
  keeps b
    (two_hop_baseline_provenance records source_hashes prov_hop1 hop1_hashes
                                 mandatory_fields prov)
    (fun _ => True).
Proof.
  unfold two_hop_baseline_provenance. eapply keeps_bind; [apply keeps_copy_all|].
  intros mut _. apply keeps_scenario_result_llm.
Qed.

Lemma keeps_two_hop_orphan_parent_link prov :
  keeps b
    (two_hop_orphan_parent_link records source_hashes prov_hop1 hop1_hashes
                                mandatory_fields prov)
    (fun _ => True).
Proof. apply keeps_copy_overwrite_score_llm. Qed.

Lemma keeps_two_hop_ancestor_mismatch prov :
  keeps b
    (two_hop_ancestor_mismatch records source_hashes prov_hop1 hop1_hashes
                               mandatory_fields prov)
    (fun _ => True).
Proof.
  unfold two_hop_ancestor_mismatch.
  eapply keeps_bind; [apply keeps_copy_all|]. intros mut Hmut.
  eapply keeps_bind; [|intros _ _; apply keeps_scenario_result_llm].
  apply keeps_for_each. intros i.
  eapply keeps_bind with (P := fun _ => True).
  { destruct (List.length records =? 0)%nat;
      [apply keeps_raise|now apply keeps_ret]. }
  intros j _.
  eapply keeps_bind;
    [apply keeps_index with (P := fun _ => True);
     apply Forall_forall; auto|].
  intros h' _.
  eapply keeps_bind; [apply keeps_index; exact Hmut|].
  intros l Hl. now apply keeps_setitem.
Qed.

Lemma keeps_two_hop_context_erasure prov :
  keeps b
    (two_hop_context_erasure records source_hashes prov_hop1 hop1_hashes
                             mandatory_fields prov)
    (fun _ => True).
Proof.
  unfold two_hop_context_erasure.
  eapply keeps_bind; [apply keeps_copy_all|]. intros mut Hmut.
  eapply keeps_bind;
    [apply keeps_index with (P := fun _ => True);
     apply Forall_forall; auto|].
  intros field _.
  eapply keeps_bind; [now apply keeps_overwrite_field|].
  intros _ _. apply keeps_scenario_result_llm.
Qed.

Lemma keeps_two_hop_generated_label_stripped prov :
  keeps b
    (two_hop_generated_label_stripped records source_hashes prov_hop1
                                      hop1_hashes mandatory_fields prov)
    (fun _ => True).
Proof. apply keeps_copy_overwrite_score_llm. Qed.

Lemma keeps_run_stream_scenarios prov :
  keeps b
    (run_stream_scenarios records source_hashes prov_hop1 hop1_hashes
                          mandatory_fields prov)
    (fun _ => True).
Proof.
  unfold run_stream_scenarios.
  eapply keeps_bind; [apply keeps_two_hop_baseline_provenance|]. intros s0 _.
  eapply keeps_bind; [apply keeps_two_hop_orphan_parent_link|]. intros s1 _.
  eapply keeps_bind; [apply keeps_two_hop_ancestor_mismatch|]. intros s2 _.
  eapply keeps_bind; [apply keeps_two_hop_context_erasure|]. intros s3 _.
  eapply keeps_bind; [apply keeps_two_hop_generated_label_stripped|]. intros s4 _.
  now apply keeps_ret.
Qed.
End TwoHopFrames.

(** ** C9: the scenarios work on copies *)

(** C9.  Whatever the derivative records, sources, fingerprints and
    mandatory fields, every fault-injection scenario (orphan parent,
    missing lineage metadata, context erasure, label stripping, and in the
    two-hop script orphan parent, ancestor mismatch, context erasure and
    label stripping), each baseline scenario, and the two runs of all
    scenarios leave every dict object that existed before unchanged:
    a scenario writes only to the copies it made itself, so the baseline
    collection afterwards is field for field what the builder produced,
    also when a scenario raises. *)
Theorem scenarios_leave_baseline_unchanged `{Shuffler}
    (source records prov_hop1 : list record)
    (source_hashes hop1_hashes mandatory_fields : list string)
    (prov_records prov_hop2 : list loc) :
  Forall leaves_store_unchanged
    [ baseline_provenance source source_hashes mandatory_fields prov_records;
      orphan_parent_link source source_hashes mandatory_fields prov_records;
      missing_generated_by source source_hashes mandatory_fields prov_records;
      mandatory_context_erasure source source_hashes mandatory_fields
                                prov_records;
      generated_label_stripped source source_hashes mandatory_fields
                               prov_records;
      two_hop_baseline_provenance records source_hashes prov_hop1 hop1_hashes
                                  mandatory_fields prov_hop2;
      two_hop_orphan_parent_link records source_hashes prov_hop1 hop1_hashes
                                 mandatory_fields prov_hop2;
      two_hop_ancestor_mismatch records source_hashes prov_hop1 hop1_hashes
                                mandatory_fields prov_hop2;
      two_hop_context_erasure records source_hashes prov_hop1 hop1_hashes
                              mandatory_fields prov_hop2;
      two_hop_generated_label_stripped records source_hashes prov_hop1
                                       hop1_hashes mandatory_fields prov_hop2 ]
  /\ leaves_store_unchanged
       (run_failure_scenarios source source_hashes mandatory_fields
                              prov_records)
  /\ leaves_store_unchanged
       (run_stream_scenarios records source_hashes prov_hop1 hop1_hashes
                             mandatory_fields prov_hop2).
Proof.
  split; [|split].
  - repeat constructor; apply keeps_leaves_store_unchanged; intros b.
    + apply keeps_baseline_provenance.
    + apply keeps_orphan_parent_link.
    + apply keeps_missing_generated_by.
    + apply keeps_mandatory_context_erasure.
    + apply keeps_generated_label_stripped.
    + apply keeps_two_hop_baseline_provenance.
    + apply keeps_two_hop_orphan_parent_link.
    + apply keeps_two_hop_ancestor_mismatch.
    + apply keeps_two_hop_context_erasure.
    + apply keeps_two_hop_generated_label_stripped.
  - apply keeps_leaves_store_unchanged. intros b.
    apply keeps_run_failure_scenarios.
  - apply keeps_leaves_store_unchanged. intros b.
    apply keeps_run_stream_scenarios.
Qed.

(** ** The object store: what a scenario computes *)

Lemma bind_Ok {A B} (m : M A) (k : A -> M B) (h h1 : heap) (a : A) :
  m h = (Ok a, h1) -> bind m k h = k a h1.
Proof. intros Hm. unfold bind. now rewrite Hm. Qed.

Lemma nth_error_seq_lt (a n i : nat) :
  i < n -> nth_error (seq a n) i = Some (a + i).
Proof.
  revert a i. induction n as [|n IH]; intros a i Hi; [lia|].
  destruct i as [|i]; simpl; [f_equal; lia|].
  rewrite IH by lia. f_equal. lia.
Qed.

Lemma update_nth_app_r (h t : heap) (i : nat) (g : record -> record) :
  update_nth (List.length h + i) g (h ++ t)%list = (h ++ update_nth i g t)%list.
Proof.
  induction h as [|r h IH]; simpl; [reflexivity|]. now rewrite IH.
Qed.

Lemma load_all_eq (locs : list loc) (h : heap) :
  map_M load locs h = (Ok (map (fun l => nth l h []) locs), h).
Proof.
  induction locs as [|l locs IH]; simpl; [reflexivity|].
  unfold bind at 1. simpl. unfold bind. now rewrite IH.
Qed.

Lemma read_fresh (h ds : heap) :
  map (fun l => nth l (h ++ ds)%list []) (seq (List.length h) (List.length ds)) = ds.
Proof.
  revert h. induction ds as [|d ds IH]; intros h; simpl; [reflexivity|].
  rewrite nth_middle. f_equal.
  replace (h ++ d :: ds)%list with ((h ++ [d]) ++ ds)%list
    by (rewrite <- app_assoc; reflexivity).
  replace (S (List.length h)) with (List.length (h ++ [d])%list)
    by (rewrite length_app; simpl; lia).
  apply IH.
Qed.

(** Copying records that exist yields fresh consecutive addresses holding
    the same items. *)
Lemma copy_all_fresh (prov : list loc) (h t : heap) :
  Forall (fun l => l < List.length h) prov ->
  copy_all prov (h ++ t)%list =
  (Ok (seq (List.length (h ++ t)%list) (List.length prov)),
   ((h ++ t) ++ map (fun l => nth l h []) prov)%list).
Proof.
  intros Hvalid. revert t.
  induction Hvalid as [|l prov Hl _ IH]; intros t.
  - simpl. now rewrite app_nil_r.
  - unfold copy_all in *. simpl map_M. unfold bind at 1.
    unfold bind at 1. simpl.
    rewrite app_nth1 by assumption. unfold bind.
    rewrite <- app_assoc. rewrite IH. simpl.
    rewrite !length_app. simpl.
    replace (List.length h + (List.length t + 1))
      with (S (List.length h + List.length t)) by lia.
    now rewrite <- !app_assoc.
Qed.

Lemma overwritten_length idx k v ds :
  List.length (overwritten idx k v ds) = List.length ds.
Proof.
  unfold overwritten. revert ds. induction idx as [|i idx IH]; intros ds;
    simpl; [reflexivity|].
  now rewrite IH, update_nth_length.
Qed.

Lemma overwrite_field_fresh (h ds : heap) (idx : list nat) (k : string)
    (v : value) :
  Forall (fun i => i < List.length ds) idx ->
  overwrite_field (seq (List.length h) (List.length ds)) idx k v (h ++ ds)%list
  = (Ok tt, (h ++ overwritten idx k v ds)%list).
Proof.
  intros Hidx. revert ds Hidx. unfold overwrite_field, overwritten.
  induction idx as [|i idx IH]; intros ds Hidx; simpl; [reflexivity|].
  inversion Hidx as [|? ? Hi Hidx']; subst.
  unfold bind at 1. unfold bind at 1. unfold index.
  rewrite nth_error_seq_lt by assumption. simpl.
  rewrite update_nth_app_r.
  pose proof (IH (update_nth i (fun r => dict_set r k v) ds)) as IH'.
  rewrite update_nth_length in IH'. now apply IH'.
Qed.

(** ** The overwritten collection, record by record *)

Lemma nth_update_nth_same i g (ds : list record) :
  i < List.length ds -> nth i (update_nth i g ds) [] = g (nth i ds []).
Proof.
  revert i. induction ds as [|d ds IH]; intros [|i] Hi; simpl in *;
    try lia; [reflexivity|].
  apply IH. lia.
Qed.

Lemma nth_update_nth_other i j g (ds : list record) :
  i <> j -> nth j (update_nth i g ds) [] = nth j ds [].
Proof.
  revert i j. induction ds as [|d ds IH]; intros [|i] [|j] Hne; simpl;
    try reflexivity; try lia.
  apply IH. lia.
Qed.

Lemma overwritten_other idx k v ds j :
  ~ In j idx -> nth j (overwritten idx k v ds) [] = nth j ds [].
Proof.
  unfold overwritten. revert ds. induction idx as [|i idx IH]; intros ds Hnin;
    simpl; [reflexivity|].
  rewrite IH by (intros Hin; apply Hnin; now right).
  apply nth_update_nth_other. intros ->. apply Hnin. now left.
Qed.

Lemma overwritten_text idx k v ds j :
  In j idx -> j < List.length ds ->
  field_text (nth j (overwritten idx k v ds) []) k = py_str v /\
  field_truthy (nth j (overwritten idx k v ds) []) k = truthy v.
Proof.
  unfold overwritten. revert ds. induction idx as [|i idx IH]; intros ds Hin Hj;
    [contradiction|]. simpl.
  destruct (in_dec Nat.eq_dec j idx) as [Hin'|Hnin].
  - apply IH; [assumption|now rewrite update_nth_length].
  - destruct Hin as [->|Hin]; [|contradiction].
    pose proof (overwritten_other idx k v
                  (update_nth j (fun r => dict_set r k v) ds) j Hnin) as Ho.
    unfold overwritten in Ho. rewrite Ho.
    rewrite nth_update_nth_same by assumption.
    rewrite field_text_set, field_truthy_set, String.eqb_refl. auto.
Qed.

(** ** Failing indices, by membership *)

Lemma failed_from_In a check l j :
  In j (failed_from a check l) <->
  a <= j < a + List.length l /\ check (nth (j - a) l []) = false.
Proof.
  revert a. induction l as [|d l IH]; intros a.
  - unfold failed_from. simpl. split; [contradiction|lia].
  - rewrite failed_from_cons. simpl List.length.
    assert (Hrest : In j (failed_from (S a) check l) <->
              S a <= j < a + S (List.length l) /\
              check (nth (j - a) (d :: l) []) = false).
    { rewrite IH. split.
      - intros [Hr Hc]. split; [lia|].
        replace (j - a) with (S (j - S a)) by lia. exact Hc.
      - intros [Hr Hc]. split; [lia|].
        replace (j - a) with (S (j - S a)) in Hc by lia. exact Hc. }
    destruct (check d) eqn:Ed.
    + rewrite Hrest. split.
      * intros [Hr Hc]. split; [lia|exact Hc].
      * intros [Hr Hc]. split; [|exact Hc].
        destruct (Nat.eq_dec j a) as [->|Hne]; [|lia].
        rewrite Nat.sub_diag in Hc. simpl in Hc. congruence.
    + simpl. rewrite Hrest. split.
      * intros [<-|[Hr Hc]].
        -- split; [lia|]. now rewrite Nat.sub_diag.
        -- split; [lia|exact Hc].
      * intros [Hr Hc]. destruct (Nat.eq_dec a j) as [->|Hne];
          [now left|right]. split; [lia|exact Hc].
Qed.

Lemma failed_from_sorted a check l : StronglySorted lt (failed_from a check l).
Proof.
  revert a. induction l as [|d l IH]; intros a; [constructor|].
  rewrite failed_from_cons. destruct (check d); [apply IH|].
  constructor; [apply IH|]. apply Forall_forall. intros j Hj.
  apply failed_from_In in Hj. lia.
Qed.

Lemma failed_indices_exactly check l idx :
  StronglySorted lt idx ->
  (forall j, In j idx <-> j < List.length l /\ check (nth j l []) = false) ->
  failed_indices check l = idx.
Proof.
  intros Hs Hiff. rewrite failed_indices_from.
  apply sorted_lt_ext; [apply failed_from_sorted|assumption|].
  intros j. rewrite failed_from_In, Hiff, Nat.sub_0_r. simpl.
  split; intros [Hr Hc]; (split; [|exact Hc]).
  - apply Hr.
  - split; [apply Nat.le_0_l|exact Hr].
Qed.

(** ** Scores *)

Lemma truediv_same (k : Z) : (0 < k)%Z -> truediv k k = Ok 1%Q.
Proof.
  intros Hk. unfold truediv. destruct (Z.eqb_spec k 0) as [->|_]; [lia|].
  f_equal. change 1%Q with (Qred 1). apply Qred_complete.
  unfold Qeq. simpl. rewrite Z.sgn_pos by assumption.
  rewrite Z2Pos.id by lia. lia.
Qed.

Lemma truediv_zero (b : Z) : (0 < b)%Z -> truediv 0 b = Ok 0%Q.
Proof.
  intros Hb. unfold truediv. destruct (Z.eqb_spec b 0) as [->|_]; [lia|].
  reflexivity.
Qed.

Lemma truediv_defined (a b : Z) : b <> 0%Z -> exists q, truediv a b = Ok q.
Proof.
  intros Hb. unfold truediv. destruct (Z.eqb_spec b 0); [contradiction|].
  eexists. reflexivity.
Qed.

Lemma nat_mem_In (x : nat) (s : list nat) : nat_mem x s = true <-> In x s.
Proof.
  unfold nat_mem. rewrite existsb_exists. split.
  - intros (y & Hin & He). apply Nat.eqb_eq in He. now subst.
  - intros Hin. exists x. split; [assumption|apply Nat.eqb_refl].
Qed.

Lemma filter_all {A} (p : A -> bool) (l : list A) :
  (forall x, In x l -> p x = true) -> filter p l = l.
Proof.
  induction l as [|x l IH]; intros Hall; simpl; [reflexivity|].
  rewrite (Hall x (or_introl eq_refl)). f_equal. apply IH.
  intros y Hy. apply Hall. now right.
Qed.

Lemma filter_none {A} (p : A -> bool) (l : list A) :
  (forall x, In x l -> p x = false) -> filter p l = [].
Proof.
  induction l as [|x l IH]; intros Hall; simpl; [reflexivity|].
  rewrite (Hall x (or_introl eq_refl)). apply IH.
  intros y Hy. apply Hall. now right.
Qed.

(** When the failing indices are the injected ones: recall 1, no false
    positive. *)
Lemma score_failed_is_injected (n : nat) (name : string) (idx : list nat) :
  n <> 0 -> idx <> [] -> NoDup idx ->
  exists s,
    score n name idx idx = Ok s /\
    scenario_name s = name /\
    injected_count s = List.length idx /\
    failed_count s = List.length idx /\
    detection_recall s = Some 1%Q /\
    false_positive_rate s = 0%Q.
Proof.
  intros Hn Hne Hnd. unfold score, nat_set.
  rewrite (nodup_fixed_point Nat.eq_dec Hnd).
  assert (Hm : forall (T : Type) (a b : T),
             match idx with _ :: _ => a | [] => b end = a).
  { intros T a b. destruct idx; [contradiction|reflexivity]. }
  rewrite Hm.
  assert (Hlen : (0 < zlen idx)%Z).
  { unfold zlen. destruct idx; [contradiction|]. simpl. lia. }
  rewrite filter_all by (intros x Hx; now apply nat_mem_In).
  rewrite truediv_same by assumption. simpl rbind.
  rewrite filter_none
    by (intros x Hx; apply negb_false_iff; now apply nat_mem_In).
  rewrite truediv_zero by (unfold zlen; simpl; lia). simpl rbind.
  destruct (truediv_defined (Z.of_nat n - zlen idx) (Z.of_nat n)) as [p Hp];
    [lia|].
  destruct (truediv_defined (zlen idx) (Z.of_nat n)) as [q Hq]; [lia|].
  rewrite Hp, Hq. simpl. eexists. split; [reflexivity|]. simpl. auto 10.
Qed.

(** ** C3: orphan parents are detected, and nothing else is flagged *)

Lemma audit_record_unknown_parent sh sbh d mf :
  set_mem (field_text d "parent_sha256") sh = false ->
  audit_record sh sbh d mf = false.
Proof.
  intros Hm. unfold audit_record.
  destruct (negb (lineage_complete d)); [reflexivity|]. now rewrite Hm.
Qed.

Lemma audit_record_empty sh sbh mf : audit_record sh sbh [] mf = false.
Proof. reflexivity. Qed.

(** C3 (amended).  For every non-empty collection of derivative records, one
    per source, that all pass [audit_record], and a source fingerprint set
    that does not hold the orphan value, the orphan-parent scenario returns
    a result: on its mutated copies [audit_record] fails at exactly the
    injected indices, so [failed_count] equals [injected_count],
    [detection_recall] is 1 and [false_positive_rate] is 0. *)
Theorem orphan_parent_detected_exactly `{Shuffler}
    (source : list record) (source_hashes mandatory_fields : list string)
    (prov_records : list loc) (h : heap) :
  source <> [] ->
  List.length prov_records = List.length source ->
  Forall (fun l =>
            audit_record (set_of_list source_hashes)
                         (dict_of_pairs (combine source_hashes source))
                         (nth l h []) mandatory_fields = true)
         prov_records ->
  set_mem orphan_hash (set_of_list source_hashes) = false ->
  let idx := inject_indices (List.length source) (1 # 10)%Q 61 in
  exists (s : scenario) (mutated : list record),
    orphan_parent_link source source_hashes mandatory_fields prov_records h
      = (Ok s, (h ++ mutated)%list) /\
    failed_indices
      (fun d => audit_record (set_of_list source_hashes)
                  (dict_of_pairs (combine source_hashes source))
                  d mandatory_fields)
      mutated = idx /\
    injected_count s = List.length idx /\
    failed_count s = List.length idx /\
    detection_recall s = Some 1%Q /\
    false_positive_rate s = 0%Q.
Proof.
  intros Hsrc Hlen Hpass Horphan idx.
  set (audit := fun d => audit_record (set_of_list source_hashes)
                  (dict_of_pairs (combine source_hashes source))
                  d mandatory_fields).
  set (ds := map (fun l => nth l h []) prov_records).
  set (mutated := overwritten idx "parent_sha256" (VStr orphan_hash) ds).
  assert (Hn : List.length source <> 0) by (destruct source; simpl; congruence).
  assert (Hvalid : Forall (fun l => l < List.length h) prov_records).
  { eapply Forall_impl; [|exact Hpass]. intros l Hl. simpl in Hl.
    destruct (Nat.lt_ge_cases l (List.length h)) as [|Hge]; [assumption|].
    rewrite nth_overflow in Hl by assumption.
    rewrite audit_record_empty in Hl. discriminate. }
  assert (Hds : List.length ds = List.length source).
  { unfold ds. now rewrite length_map. }
  assert (Hidx : Forall (fun i => i < List.length ds) idx).
  { apply Forall_forall. intros i Hi. rewrite Hds.
    eapply inject_indices_in_range. exact Hi. }
  assert (Hfailed : failed_indices audit mutated = idx).
  { apply failed_indices_exactly; [apply inject_indices_sorted|].
    intros j. unfold mutated. rewrite overwritten_length. split.
    - intros Hj. rewrite Forall_forall in Hidx. split; [now apply Hidx|].
      apply audit_record_unknown_parent.
      destruct (overwritten_text idx "parent_sha256" (VStr orphan_hash) ds j Hj
                  (Hidx j Hj)) as [Ht _].
      match goal with
      | |- set_mem ?x _ = false =>
          replace x with orphan_hash by (symmetry; exact Ht)
      end.
      exact Horphan.
    - intros [Hj Hf].
      destruct (in_dec Nat.eq_dec j idx) as [|Hnin]; [assumption|].
      rewrite overwritten_other in Hf by assumption.
      rewrite Forall_forall in Hpass.
      assert (Hin : In (nth j ds []) ds) by now apply nth_In.
      unfold ds in Hin at 2. apply in_map_iff in Hin.
      destruct Hin as (l & Hl & Hlin). rewrite <- Hl in Hf.
      specialize (Hpass l Hlin). unfold audit in Hf. simpl in Hpass.
      congruence. }
  destruct (score_failed_is_injected (List.length source) "orphan_parent_link"
              idx Hn) as (s & Hs & _ & Hi & Hf & Hr & Hfp).
  { now apply inject_indices_nonempty; lia. }
  { apply inject_indices_NoDup. }
  exists s, mutated. split; [|auto].
  unfold orphan_parent_link. fold idx.
  pose proof (copy_all_fresh prov_records h [] Hvalid) as Hcopy.
  rewrite !app_nil_r in Hcopy. fold ds in Hcopy.
  rewrite (bind_Ok _ _ _ _ _ Hcopy).
  pose proof (overwrite_field_fresh h ds idx "parent_sha256"
                (VStr orphan_hash) Hidx) as Hover.
  fold mutated in Hover. rewrite Hds, <- Hlen in Hover.
  rewrite (bind_Ok _ _ _ _ _ Hover).
  unfold scenario_result.
  rewrite (bind_Ok _ _ _ _ _ (load_all_eq _ _)).
  assert (Hread : map (fun l => nth l (h ++ mutated)%list [])
                      (seq (List.length h) (List.length prov_records))
                  = mutated).
  { rewrite Hlen, <- Hds.
    rewrite <- (overwritten_length idx "parent_sha256" (VStr orphan_hash) ds).
    apply read_fresh. }
  rewrite Hread. fold audit. rewrite Hfailed. unfold lift. now rewrite Hs.
Qed.

Lemma orphan_parent_detected_exactly_witness :
  exists (s : scenario) (mutated : list record),
    orphan_parent_link sample_source sample_hashes sample_mandatory [0; 1]
                       sample_prov
      = (Ok s, (sample_prov ++ mutated)%list) /\
    failed_indices
      (fun d => audit_record (set_of_list sample_hashes)
                  (dict_of_pairs (combine sample_hashes sample_source))
                  d sample_mandatory)
      mutated = inject_indices 2 (1 # 10)%Q 61 /\
    injected_count s = List.length (inject_indices 2 (1 # 10)%Q 61) /\
    failed_count s = List.length (inject_indices 2 (1 # 10)%Q 61) /\
    detection_recall s = Some 1%Q /\
    false_positive_rate s = 0%Q.
Proof.
  apply (orphan_parent_detected_exactly sample_source sample_hashes
           sample_mandatory [0; 1] sample_prov).
  - discriminate.
  - reflexivity.
  - repeat constructor.
  - reflexivity.
Defined.

Lemma shuffle_nil `{Shuffler} (seed : Z) : shuffle seed [] = [].
Proof. apply Permutation_nil, shuffle_perm. Qed.

Lemma shuffle_singleton `{Shuffler} (seed : Z) (x : nat) :
  shuffle seed [x] = [x].
Proof. apply Permutation_length_1_inv, shuffle_perm. Qed.

Lemma inject_indices_zero `{Shuffler} (frac : Q) (seed : Z) :
  inject_indices 0 frac seed = [].
Proof.
  unfold inject_indices. simpl seq. rewrite shuffle_nil.
  now rewrite firstn_nil.
Qed.

Lemma inject_indices_one `{Shuffler} (frac : Q) (seed : Z) :
  inject_indices 1 frac seed = [0].
Proof.
  unfold inject_indices. simpl seq. rewrite shuffle_singleton.
  pose proof (inject_count_pos 1 frac) as Hk.
  destruct (Z.to_nat (inject_count 1 frac)) as [|k] eqn:E; [lia|].
  simpl. now rewrite firstn_nil.
Qed.

Lemma truediv_raises (a b : Z) (e : exn) :
  truediv a b = Raise e -> e = ZeroDivisionError.
Proof. unfold truediv. destruct (b =? 0)%Z; congruence. Qed.

Lemma score_zero_records (name : string) (failed injected_idxs : list nat) :
  score 0 name failed injected_idxs = Raise ZeroDivisionError.
Proof.
  unfold score.
  match goal with |- rbind ?r _ = _ => destruct r as [rf|e] eqn:E end.
  - reflexivity.
  - simpl. f_equal.
    destruct (nat_set injected_idxs) as [|i inj].
    + destruct (truediv _ _) as [q|e'] eqn:E1 in E; simpl in E;
        [discriminate|].
      injection E as <-. now apply truediv_raises in E1.
    + destruct (truediv _ _) as [q|e'] eqn:E1 in E; simpl in E.
      * discriminate E.
      * injection E as <-. now apply truediv_raises in E1.
Qed.

(** C3, as stated, fails on the empty collection: no index is injected,
    so by design no recall is computed, and the scenario ends in a
    division by zero instead of reporting recall 1. *)
Lemma orphan_parent_empty_collection_raises :
  (forall (R : Shuffler) (mandatory_fields : list string) (h : heap),
      @orphan_parent_link R [] [] mandatory_fields [] h
      = (Raise ZeroDivisionError, h)) /\
  (forall R : Shuffler, @inject_indices R 0 (1 # 10)%Q 61 = []).
Proof.
  split; [|intros R; apply inject_indices_zero].
  intros R mf h. unfold orphan_parent_link. simpl List.length.
  rewrite inject_indices_zero. unfold scenario_result. simpl List.length.
  cbn [copy_all map_M overwrite_field for_each bind ret lift].
  now rewrite score_zero_records.
Qed.

(** ** C5: the metric computations on degenerate inputs *)

Lemma lineage_complete_blank_parent (d : record) :
  lineage_complete (dict_set d "parent_sha256" (VStr "")) = false.
Proof.
  unfold lineage_complete.
  apply forallb_false_In with (x := "parent_sha256").
  - unfold lineage_keys. simpl. auto.
  - now rewrite field_truthy_set, String.eqb_refl.
Qed.

Lemma copy_one (l : loc) (h : heap) :
  copy_all [l] h = (Ok [List.length h], (h ++ [nth l h []])%list).
Proof. reflexivity. Qed.

Lemma overwrite_one (h : heap) (d : record) (k : string) (v : value) :
  overwrite_field [List.length h] [0] k v (h ++ [d])%list
  = (Ok tt, (h ++ [dict_set d k v])%list).
Proof.
  unfold overwrite_field. cbn [for_each index nth_error].
  unfold bind, ret, setitem.
  rewrite <- (Nat.add_0_r (List.length h)) at 1.
  now rewrite update_nth_app_r.
Qed.

(** C5 (the code departs from it).  With no record, [score], and so
    [scenario_result] in both scripts, ends in [ZeroDivisionError]: the
    false-positive rate is guarded by [max(1, n)] but [audit_pass_rate]
    and [audit_fail_rate] divide by [n].  With a single record, a
    fault-injection block of [eval_stream] injects that record and divides
    by [n - len(idxs) = 0]: so does the lineage-break block on every
    one-record stream, and so do the three blocks run in order on the
    sample one-record stream. *)
Theorem metrics_raise_on_degenerate_input :
  (forall name failed injected_idxs,
      score 0 name failed injected_idxs = Raise ZeroDivisionError) /\
  (forall source_hashes mandatory_fields h,
      baseline_provenance [] source_hashes mandatory_fields [] h
      = (Raise ZeroDivisionError, h)) /\
  (forall name check h,
      scenario_result_llm name [] [] check h = (Raise ZeroDivisionError, h)) /\
  (forall (R : Shuffler) s l h,
      fst (@lineage_break_detection R [s] [l] h) = Raise ZeroDivisionError) /\
  fst (eval_stream_fault_injection [0] (firstn 1 sample_hashes)
         sample_mandatory [1]
         (firstn 1 sample_source ++ firstn 1 sample_prov)%list)
  = Raise ZeroDivisionError.
Proof.
  split; [exact score_zero_records|]. split; [|split; [|split]].
  - intros sh mf h. unfold baseline_provenance, scenario_result.
    cbn [copy_all map_M bind ret lift List.length].
    now rewrite score_zero_records.
  - intros name check h. unfold scenario_result_llm.
    cbn [map_M bind ret lift List.length].
    now rewrite score_zero_records.
  - intros R s l h. unfold lineage_break_detection.
    simpl List.length. rewrite inject_indices_one.
    rewrite (bind_Ok _ _ _ _ _ (copy_one l h)).
    rewrite (bind_Ok _ _ _ _ _ (overwrite_one h _ _ _)).
    rewrite (bind_Ok _ _ _ _ _ (load_all_eq _ _)).
    cbn [map]. rewrite nth_middle.
    unfold failed_indices, enumerate. cbn [List.length seq combine filter snd].
    rewrite lineage_complete_blank_parent. reflexivity.
  - vm_compute. reflexivity.
Qed.


(** * Further properties *)

(** ** Resolving a fingerprint among fingerprinted records *)

Lemma fingerprint_resolves (l : list record) (hs : list string) (r : record)
    (h : string) :
  source_fingerprints l = Ok hs ->
  content_addressed l ->
  In r l ->
  sha256_value r = Ok h ->
  set_mem h (set_of_list hs) = true /\
  exists r', dict_get (dict_of_pairs (combine hs l)) h = Some r' /\
             forall k, dict_get r' k = dict_get r k.
Proof.
  intros Hfp Hca Hin Hh.
  destruct (rmap_list_Ok_In _ _ _ Hfp r Hin) as (h' & Hh' & Hinh).
  rewrite Hh in Hh'. injection Hh' as <-.
  split; [now apply set_mem_set_of_list|].
  pose proof (rmap_list_Ok_key _ _ _ Hfp r h Hin Hh) as Hkeys.
  destruct (dict_of_pairs_get_defined _ _ Hkeys) as [r' Hr'].
  exists r'. split; [exact Hr'|].
  pose proof (dict_of_pairs_get_In _ _ _ Hr') as Hinr.
  pose proof (rmap_list_Ok_combine _ _ _ Hfp _ _ Hinr) as Hrh.
  apply Hca; [eapply in_combine_r; eassumption|assumption|].
  now rewrite Hrh, Hh.
Qed.

Lemma same_lookups_truthy (r r' : record) :
  (forall k, dict_get r' k = dict_get r k) -> r <> [] -> dict_truthy r' = true.
Proof.
  intros Hsame Hne. destruct r as [|[k0 v0] r]; [contradiction|].
  specialize (Hsame k0). simpl in Hsame. rewrite String.eqb_refl in Hsame.
  destruct r'; [discriminate|reflexivity].
Qed.

Lemma same_lookups_text (r r' : record) (k : string) :
  (forall k, dict_get r' k = dict_get r k) -> field_text r' k = field_text r k.
Proof. intros Hsame. unfold field_text, get_default. now rewrite Hsame. Qed.

Lemma sha256_value_Ok_nonempty (r : record) (h : string) :
  sha256_value r = Ok h -> h <> "".
Proof.
  unfold sha256_value. destruct (canonical_json r); simpl; [|discriminate].
  intros [= <-]. apply hexdigest_nonempty.
Qed.

(** ** What the builders of [run_stream] write *)

Section BuilderFold.
Variables (src : record) (mf : list string).

Let copy (init : record) : record :=
  fold_left (fun out f => dict_set out f (get_default src f (VStr "")))
            mf init.

Lemma builder_keeps_other_fields (init : record) (k : string) :
  ~ In k mf -> dict_get (copy init) k = dict_get init k.
Proof.
  intros Hnin. unfold copy. rewrite builder_fold_get.
  destruct (in_dec string_dec k mf); [contradiction|reflexivity].
Qed.

Lemma builder_copies_context (init : record) (f : string) :
  In f mf -> field_text (copy init) f = field_text src f.
Proof.
  intros Hin. unfold copy, field_text at 1, get_default at 1.
  rewrite builder_fold_get.
  destruct (in_dec string_dec f mf); [reflexivity|contradiction].
Qed.

Lemma builder_nonempty (init : record) : init <> [] -> copy init <> [].
Proof.
  unfold copy. revert init. induction mf as [|f l IH]; intros init Hne;
    simpl; [assumption|].
  apply IH. destruct init as [|[k v] init]; [contradiction|].
  simpl. destruct (k =? f); discriminate.
Qed.
End BuilderFold.

(** ** A chain built by [run_stream] passes the two-hop audit *)

(** X1.  The hop-2 derivative [run_stream] builds for a source record passes
    [audit_two_hop] against the source and hop-1 fingerprint sets and maps
    of the run, provided the source has at least one field, fingerprints
    do not collide among the sources nor among the hop-1 records, the
    timestamp is non-empty and no mandatory field is named like a lineage
    field. *)
Theorem built_chain_passes_two_hop
    (records prov_hop1 : list record) (source_hashes hop1_hashes : list string)
    (src : record) (mandatory_fields : list string)
    (src_hash hop1_hash generated_at summary interpretation : string) :
  source_fingerprints records = Ok source_hashes ->
  source_fingerprints prov_hop1 = Ok hop1_hashes ->
  content_addressed records ->
  content_addressed prov_hop1 ->
  In src records ->
  src <> [] ->
  sha256_value src = Ok src_hash ->
  In (hop1_provenance src mandatory_fields src_hash generated_at summary)
     prov_hop1 ->
  sha256_value
    (hop1_provenance src mandatory_fields src_hash generated_at summary)
  = Ok hop1_hash ->
  (forall f, In f mandatory_fields -> ~ In f two_hop_lineage_keys) ->
  generated_at <> "" ->
  audit_two_hop (set_of_list source_hashes)
                (dict_of_pairs (combine source_hashes records))
                (set_of_list hop1_hashes)
                (dict_of_pairs (combine hop1_hashes prov_hop1))
                (hop2_provenance src mandatory_fields hop1_hash src_hash
                                 generated_at interpretation)
                mandatory_fields = true.
Proof.
  intros Hfs Hf1 Hcs Hc1 Hin Hne Hh Hin1 Hh1 Hdis Hga.
  set (hop1 := hop1_provenance src mandatory_fields src_hash generated_at
                               summary) in *.
  set (hop2 := hop2_provenance src mandatory_fields hop1_hash src_hash
                               generated_at interpretation).
  assert (Hk : forall k, In k two_hop_lineage_keys -> ~ In k mandatory_fields).
  { intros k Hk Hm. exact (Hdis k Hm Hk). }
  assert (Hget2 : forall k, In k two_hop_lineage_keys ->
            dict_get hop2 k =
            dict_get [ ("generated_label", VStr "DERIVED_RECORD");
                       ("generated_by", VStr ("ollama:" ++ MODEL_NAME));
                       ("generated_at", VStr generated_at);
                       ("parent_sha256", VStr hop1_hash);
                       ("ancestor_source_sha256", VStr src_hash);
                       ("interpretation", VStr interpretation) ] k).
  { intros k Hkk. unfold hop2, hop2_provenance.
    apply builder_keeps_other_fields. now apply Hk. }
  assert (Hget1 : dict_get hop1 "parent_sha256" = Some (VStr src_hash)).
  { unfold hop1, hop1_provenance. rewrite builder_keeps_other_fields.
    - reflexivity.
    - apply Hk. unfold two_hop_lineage_keys, lineage_keys. simpl. auto. }
  pose proof (sha256_value_Ok_nonempty _ _ Hh) as Hsne.
  pose proof (sha256_value_Ok_nonempty _ _ Hh1) as H1ne.
  apply String.eqb_neq in Hga. apply String.eqb_neq in H1ne.
  assert (Hlc : lineage_complete hop2 = true).
  { unfold lineage_complete. apply forallb_forall. intros k Hkk.
    unfold field_truthy. rewrite Hget2.
    - unfold lineage_keys in Hkk. simpl in Hkk.
      destruct Hkk as [<-|[<-|[<-|[<-|[]]]]]; simpl;
        [reflexivity|reflexivity|now rewrite Hga|now rewrite H1ne].
    - unfold two_hop_lineage_keys. apply in_or_app. now left. }
  assert (Hparent : field_text hop2 "parent_sha256" = hop1_hash).
  { unfold field_text, get_default. rewrite Hget2; [reflexivity|].
    unfold two_hop_lineage_keys, lineage_keys. simpl. auto. }
  assert (Hanc : field_text hop2 "ancestor_source_sha256" = src_hash).
  { unfold field_text, get_default. rewrite Hget2; [reflexivity|].
    unfold two_hop_lineage_keys, lineage_keys. simpl. auto 10. }
  destruct (fingerprint_resolves _ _ _ _ Hf1 Hc1 Hin1 Hh1)
    as (Hm1 & hop1' & Hr1 & Hsame1).
  destruct (fingerprint_resolves _ _ _ _ Hfs Hcs Hin Hh)
    as (Hms & src' & Hrs & Hsames).
  unfold audit_two_hop.
  rewrite Hlc, Hparent, Hanc, Hm1, Hms, Hr1. simpl.
  rewrite (same_lookups_truthy hop1 hop1' Hsame1).
  2:{ unfold hop1, hop1_provenance. apply builder_nonempty. discriminate. }
  rewrite (same_lookups_text hop1 hop1' _ Hsame1).
  unfold field_text at 1, get_default. rewrite Hget1. simpl.
  rewrite String.eqb_refl, Hrs. simpl.
  rewrite (same_lookups_truthy src src' Hsames Hne). simpl.
  unfold context_preserved. apply forallb_forall. intros f Hf.
  apply String.eqb_eq. rewrite (same_lookups_text src src' _ Hsames).
  unfold hop2, hop2_provenance. now apply builder_copies_context.
Qed.

Lemma sample_hop1_content_addressed : content_addressed sample_hop1.
Proof.
  intros r r' Hr Hr' Heq k. unfold sample_hop1 in Hr, Hr'. simpl in Hr, Hr'.
  destruct Hr as [<-|[<-|[]]]; destruct Hr' as [<-|[<-|[]]];
    try reflexivity; vm_compute in Heq; discriminate Heq.
Defined.

Lemma built_chain_passes_two_hop_witness :
  source_fingerprints sample_hop1 = Ok sample_hop1_hashes /\
  Forall (fun d =>
            audit_two_hop (set_of_list sample_hashes)
              (dict_of_pairs (combine sample_hashes sample_source))
              (set_of_list sample_hop1_hashes)
              (dict_of_pairs (combine sample_hop1_hashes sample_hop1))
              d sample_mandatory = true)
         [ hop2_provenance [("id", VStr "1"); ("title", VStr "Amphora")]
             sample_mandatory
             "f5f7931c9034a2268f922a419230a658cf8bd9afd28e2fc5c97c25379da183cb"
             "80dcbf4f82116a2076cbbdd6a0071be2c408de1c656a6d1e2c9b9d37b3164f10"
             sample_generated_at "Pottery or stone." ].
Proof.
  split; [vm_compute; reflexivity|]. constructor; [|constructor].
  apply (built_chain_passes_two_hop sample_source sample_hop1 sample_hashes
           sample_hop1_hashes [("id", VStr "1"); ("title", VStr "Amphora")]
           sample_mandatory _ _ sample_generated_at "A vessel or a slab.").
  - vm_compute. reflexivity.
  - vm_compute. reflexivity.
  - exact sample_content_addressed.
  - exact sample_hop1_content_addressed.
  - left. reflexivity.
  - discriminate.
  - vm_compute. reflexivity.
  - left. reflexivity.
  - vm_compute. reflexivity.
  - intros f Hf Hk. unfold sample_mandatory in Hf. simpl in Hf, Hk.
    destruct Hf as [<-|[<-|[]]];
      repeat (destruct Hk as [Hk|Hk]; [discriminate Hk|]); exact Hk.
  - discriminate.
Defined.

(** ** Collections after an injection loop *)

Lemma same_items_reading (d d' : record) : same_items d d' -> same_reading d d'.
Proof.
  intros Hs. split; intros k.
  - unfold field_truthy. now rewrite Hs.
  - unfold field_text, get_default. now rewrite Hs.
Qed.

Lemma overwritten_is_overwritten_by idx k v ds :
  overwritten idx k v ds = overwritten_by (fun _ => v) idx k ds.
Proof. reflexivity. Qed.

Lemma overwritten_by_length vf idx k ds :
  List.length (overwritten_by vf idx k ds) = List.length ds.
Proof.
  unfold overwritten_by. revert ds. induction idx as [|i idx IH]; intros ds;
    simpl; [reflexivity|].
  now rewrite IH, update_nth_length.
Qed.

Lemma overwritten_by_other vf idx k ds j :
  ~ In j idx -> nth j (overwritten_by vf idx k ds) [] = nth j ds [].
Proof.
  unfold overwritten_by. revert ds. induction idx as [|i idx IH]; intros ds Hnin;
    simpl; [reflexivity|].
  rewrite IH by (intros Hin; apply Hnin; now right).
  apply nth_update_nth_other. intros ->. apply Hnin. now left.
Qed.

Lemma dict_set_twice_same_items (d : record) (k : string) (v : value) :
  same_items (dict_set (dict_set d k v) k v) (dict_set d k v).
Proof.
  intros k'. rewrite !dict_get_set. now destruct (k =? k').
Qed.

Lemma dict_set_same_items (d d' : record) (k : string) (v : value) :
  same_items d d' -> same_items (dict_set d k v) (dict_set d' k v).
Proof.
  intros Hs k'. rewrite !dict_get_set. destruct (k =? k'); auto.
Qed.

(** At an injected index the record is the original one with the field
    overwritten; elsewhere it is the original one. *)
Lemma overwritten_by_at vf idx k ds j :
  In j idx -> j < List.length ds ->
  same_items (nth j (overwritten_by vf idx k ds) [])
             (dict_set (nth j ds []) k (vf j)).
Proof.
  unfold overwritten_by. revert ds.
  induction idx as [|i idx IH]; intros ds Hin Hj; [contradiction|]. simpl.
  destruct (in_dec Nat.eq_dec j idx) as [Hin'|Hnin].
  - intros k'. rewrite (IH _ Hin') by now rewrite update_nth_length.
    destruct (Nat.eq_dec i j) as [->|Hne].
    + rewrite nth_update_nth_same by assumption.
      apply dict_set_twice_same_items.
    + now rewrite nth_update_nth_other.
  - destruct Hin as [->|Hin]; [|contradiction].
    pose proof (overwritten_by_other vf idx k
                  (update_nth j (fun r => dict_set r k (vf j)) ds) j Hnin)
      as Ho.
    unfold overwritten_by in Ho. rewrite Ho.
    rewrite nth_update_nth_same by assumption. intros k'. reflexivity.
Qed.

(** The failing indices after an injection are the injected ones when the
    baseline passes and every injected record fails. *)
Lemma injected_fail_exactly (check : record -> bool) vf idx k ds :
  StronglySorted lt idx ->
  Forall (fun i => i < List.length ds) idx ->
  Forall (fun d => check d = true) ds ->
  (forall j d, In j idx ->
     same_items d (dict_set (nth j ds []) k (vf j)) -> check d = false) ->
  failed_indices check (overwritten_by vf idx k ds) = idx.
Proof.
  intros Hs Hidx Hpass Hfail.
  apply failed_indices_exactly; [assumption|].
  intros j. rewrite overwritten_by_length. rewrite Forall_forall in Hidx.
  split.
  - intros Hj. split; [now apply Hidx|].
    apply (Hfail j); [assumption|].
    apply overwritten_by_at; auto.
  - intros [Hj Hf].
    destruct (in_dec Nat.eq_dec j idx) as [|Hnin]; [assumption|].
    rewrite overwritten_by_other in Hf by assumption.
    rewrite Forall_forall in Hpass.
    rewrite (Hpass (nth j ds [])) in Hf; [discriminate|]. now apply nth_In.
Qed.

(** ** A scenario on the object store, step by step *)

Lemma passing_records_exist (check : record -> bool) (prov : list loc)
    (h : heap) :
  check [] = false ->
  Forall (fun l => check (nth l h []) = true) prov ->
  Forall (fun l => l < List.length h) prov.
Proof.
  intros Hempty Hpass. eapply Forall_impl; [|exact Hpass].
  intros l Hl. simpl in Hl.
  destruct (Nat.lt_ge_cases l (List.length h)) as [|Hge]; [assumption|].
  rewrite nth_overflow in Hl by assumption. congruence.
Qed.

(** Copy the records, mutate the copies, read them back: the continuation
    sees the mutated values, and the store has grown by them. *)
Lemma copy_mutate_load {A} (prov : list loc) (h : heap)
    (mutate : list loc -> M unit) (ds' : list record)
    (k : list loc -> list record -> M A) :
  Forall (fun l => l < List.length h) prov ->
  mutate (seq (List.length h) (List.length prov))
         (h ++ map (fun l => nth l h []) prov)%list
  = (Ok tt, (h ++ ds')%list) ->
  List.length ds' = List.length prov ->
  (mut <- copy_all prov ;; mutate mut ;;;
   ds <- map_M load mut ;; k mut ds) h
  = k (seq (List.length h) (List.length prov)) ds' (h ++ ds')%list.
Proof.
  intros Hvalid Hmut Hlen.
  pose proof (copy_all_fresh prov h [] Hvalid) as Hcopy.
  rewrite !app_nil_r in Hcopy.
  rewrite (bind_Ok _ _ _ _ _ Hcopy).
  rewrite (bind_Ok _ _ _ _ _ Hmut).
  rewrite (bind_Ok _ _ _ _ _ (load_all_eq _ _)).
  rewrite <- Hlen. now rewrite read_fresh.
Qed.

Lemma overwrite_field_by (h ds : heap) (idx : list nat) (k : string)
    (v : value) :
  Forall (fun i => i < List.length ds) idx ->
  overwrite_field (seq (List.length h) (List.length ds)) idx k v (h ++ ds)%list
  = (Ok tt, (h ++ overwritten_by (fun _ => v) idx k ds)%list).
Proof. apply overwrite_field_fresh. Qed.

(** ** Blanked lineage fields are detected, and nothing else is flagged *)

Lemma lineage_incomplete_blank (d d0 : record) (k : string) :
  In k lineage_keys ->
  same_items d (dict_set d0 k (VStr "")) ->
  lineage_complete d = false.
Proof.
  intros Hk Hs. unfold lineage_complete.
  apply forallb_false_In with (x := k); [assumption|].
  unfold field_truthy. rewrite Hs, dict_get_set_same. reflexivity.
Qed.

Lemma audit_record_lineage_incomplete sh sbh d mf :
  lineage_complete d = false -> audit_record sh sbh d mf = false.
Proof. intros Hl. unfold audit_record. now rewrite Hl. Qed.

Lemma audit_two_hop_lineage_incomplete sh sbh h1 h1b d mf :
  lineage_complete d = false -> audit_two_hop sh sbh h1 h1b d mf = false.
Proof. intros Hl. unfold audit_two_hop. now rewrite Hl. Qed.

Section ExtendedScenario.
Context `{Shuffler}.
Variables (source : list record) (source_hashes mandatory_fields : list string).
Variables (prov_records : list loc) (h : heap).

Let audit (d : record) : bool :=
  audit_record (set_of_list source_hashes)
               (dict_of_pairs (combine source_hashes source))
               d mandatory_fields.

Hypothesis source_nonempty : source <> [].
Hypothesis one_per_source : List.length prov_records = List.length source.
Hypothesis baseline_passes :
  Forall (fun l => audit (nth l h []) = true) prov_records.

Lemma overwrite_scenario_exact (k name : string) (v : value) (seed : Z) :
  (forall j d,
      In j (inject_indices (List.length source) (1 # 10)%Q seed) ->
      same_items d (dict_set (nth (nth j prov_records 0) h []) k v) ->
      audit d = false) ->
  let idx := inject_indices (List.length source) (1 # 10)%Q seed in
  exists (s : scenario) (mutated : list record),
    (mut <- copy_all prov_records ;;
     overwrite_field mut idx k v ;;;
     scenario_result source source_hashes mandatory_fields name mut idx) h
      = (Ok s, (h ++ mutated)%list) /\
    failed_indices audit mutated = idx /\
    injected_count s = List.length idx /\
    failed_count s = List.length idx /\
    detection_recall s = Some 1%Q /\
    false_positive_rate s = 0%Q.
Proof.
  intros Hfail idx.
  set (ds := map (fun l => nth l h []) prov_records).
  set (mutated := overwritten_by (fun _ => v) idx k ds).
  assert (Hn : List.length source <> 0) by (destruct source; simpl; congruence).
  assert (Hvalid : Forall (fun l => l < List.length h) prov_records).
  { apply (passing_records_exist audit); [reflexivity|exact baseline_passes]. }
  assert (Hds : List.length ds = List.length prov_records).
  { unfold ds. apply length_map. }
  assert (Hidx : Forall (fun i => i < List.length ds) idx).
  { apply Forall_forall. intros i Hi. rewrite Hds, one_per_source.
    eapply inject_indices_in_range. exact Hi. }
  assert (Hfailed : failed_indices audit mutated = idx).
  { apply injected_fail_exactly; [apply inject_indices_sorted|assumption| |].
    - unfold ds. apply Forall_map. exact baseline_passes.
    - intros j d Hj Hd. apply (Hfail j d Hj).
      rewrite Forall_forall in Hidx. specialize (Hidx j Hj).
      unfold ds in Hd.
      rewrite (nth_indep _ [] (nth 0 h [])) in Hd by exact Hidx.
      rewrite (map_nth (fun l => nth l h [])) in Hd. exact Hd. }
  destruct (score_failed_is_injected (List.length source) name idx Hn)
    as (s & Hs & _ & Hi & Hf & Hr & Hfp).
  { apply inject_indices_nonempty. lia. }
  { apply inject_indices_NoDup. }
  exists s, mutated. split; [|auto].
  etransitivity.
  - apply (copy_mutate_load prov_records h
             (fun mut => overwrite_field mut idx k v) mutated
             (fun _ ds =>
                lift (score (List.length source) name
                        (failed_indices audit ds) idx))).
    + exact Hvalid.
    + rewrite <- Hds. now apply overwrite_field_by.
    + unfold mutated. now rewrite overwritten_by_length.
  - unfold lift. now rewrite Hfailed, Hs.
Qed.

Lemma blank_lineage_scenario (k name : string) (seed : Z) :
  In k lineage_keys ->
  let idx := inject_indices (List.length source) (1 # 10)%Q seed in
  exists (s : scenario) (mutated : list record),
    (mut <- copy_all prov_records ;;
     overwrite_field mut idx k (VStr "") ;;;
     scenario_result source source_hashes mandatory_fields name mut idx) h
      = (Ok s, (h ++ mutated)%list) /\
    failed_indices audit mutated = idx /\
    injected_count s = List.length idx /\
    failed_count s = List.length idx /\
    detection_recall s = Some 1%Q /\
    false_positive_rate s = 0%Q.
Proof.
  intros Hk. apply overwrite_scenario_exact.
  intros j d _ Hd. apply audit_record_lineage_incomplete.
  eapply lineage_incomplete_blank; eassumption.
Qed.
End ExtendedScenario.

(** X2.  On a non-empty clean baseline with one derivative per source, the
    scenarios that blank [generated_by] and [generated_label] return a
    result in which [audit_record] fails at exactly the injected indices of
    the mutated copies: recall 1, false-positive rate 0. *)
Theorem blanked_lineage_detected_exactly `{Shuffler}
    (source : list record) (source_hashes mandatory_fields : list string)
    (prov_records : list loc) (h : heap) :
  source <> [] ->
  List.length prov_records = List.length source ->
  Forall (fun l =>
            audit_record (set_of_list source_hashes)
                         (dict_of_pairs (combine source_hashes source))
                         (nth l h []) mandatory_fields = true)
         prov_records ->
  let audit d :=
    audit_record (set_of_list source_hashes)
                 (dict_of_pairs (combine source_hashes source))
                 d mandatory_fields in
  (exists (s : scenario) (mutated : list record),
      missing_generated_by source source_hashes mandatory_fields
                           prov_records h = (Ok s, (h ++ mutated)%list) /\
      failed_indices audit mutated
        = inject_indices (List.length source) (1 # 10)%Q 71 /\
      failed_count s = injected_count s /\
      detection_recall s = Some 1%Q /\
      false_positive_rate s = 0%Q) /\
  (exists (s : scenario) (mutated : list record),
      generated_label_stripped source source_hashes mandatory_fields
                               prov_records h = (Ok s, (h ++ mutated)%list) /\
      failed_indices audit mutated
        = inject_indices (List.length source) (1 # 10)%Q 91 /\
      failed_count s = injected_count s /\
      detection_recall s = Some 1%Q /\
      false_positive_rate s = 0%Q).
Proof.
  intros Hne Hlen Hpass audit. split.
  - destruct (blank_lineage_scenario source source_hashes mandatory_fields
                prov_records h Hne Hlen Hpass "generated_by"
                "missing_generated_by" 71)
      as (s & m & Hrun & Hf & Hi & Hc & Hr & Hfp).
    { unfold lineage_keys. simpl. auto. }
    exists s, m. repeat split; auto. congruence.
  - destruct (blank_lineage_scenario source source_hashes mandatory_fields
                prov_records h Hne Hlen Hpass "generated_label"
                "generated_label_stripped" 91)
      as (s & m & Hrun & Hf & Hi & Hc & Hr & Hfp).
    { unfold lineage_keys. simpl. auto. }
    exists s, m. repeat split; auto. congruence.
Qed.

Lemma blanked_lineage_detected_exactly_witness :
  exists (s : scenario) (mutated : list record),
    missing_generated_by sample_source sample_hashes sample_mandatory [0; 1]
                         sample_prov = (Ok s, (sample_prov ++ mutated)%list) /\
    failed_indices
      (fun d => audit_record (set_of_list sample_hashes)
                  (dict_of_pairs (combine sample_hashes sample_source))
                  d sample_mandatory) mutated
      = inject_indices 2 (1 # 10)%Q 71 /\
    failed_count s = injected_count s /\
    detection_recall s = Some 1%Q /\
    false_positive_rate s = 0%Q.
Proof.
  refine (proj1 (blanked_lineage_detected_exactly sample_source sample_hashes
                   sample_mandatory [0; 1] sample_prov _ _ _)).
  - discriminate.
  - reflexivity.
  - repeat constructor.
Defined.

(** ** Blanking a mandatory context field *)

Lemma lineage_complete_ext_keys d d' :
  (forall k, In k lineage_keys -> field_truthy d k = field_truthy d' k) ->
  lineage_complete d = lineage_complete d'.
Proof.
  intros Ht. unfold lineage_complete.
  induction lineage_keys as [|k l IH]; simpl; [reflexivity|].
  rewrite (Ht k) by now left. f_equal. apply IH. intros k' Hk'.
  apply Ht. now right.
Qed.

Lemma context_preserved_ext_text d d' src mf :
  (forall k, field_text d k = field_text d' k) ->
  context_preserved d src mf = context_preserved d' src mf.
Proof.
  intros Hx. unfold context_preserved. apply forallb_ext. intros f.
  now rewrite Hx.
Qed.

Lemma audit_record_ext_keys sh sbh d d' mf :
  (forall k, In k lineage_keys -> field_truthy d k = field_truthy d' k) ->
  (forall k, field_text d k = field_text d' k) ->
  audit_record sh sbh d mf = audit_record sh sbh d' mf.
Proof.
  intros Ht Hx. unfold audit_record.
  rewrite (lineage_complete_ext_keys _ _ Ht), (Hx "parent_sha256").
  destruct (negb (lineage_complete d')); auto.
  destruct (negb (set_mem _ sh)); auto.
  destruct (dict_get sbh _) as [src|]; auto.
  destruct (negb (dict_truthy src)); auto.
  now apply context_preserved_ext_text.
Qed.

Lemma audit_two_hop_ext_keys sh sbh h1 h1b d d' mf :
  (forall k, In k lineage_keys -> field_truthy d k = field_truthy d' k) ->
  (forall k, field_text d k = field_text d' k) ->
  audit_two_hop sh sbh h1 h1b d mf = audit_two_hop sh sbh h1 h1b d' mf.
Proof.
  intros Ht Hx. unfold audit_two_hop.
  rewrite (lineage_complete_ext_keys _ _ Ht), (Hx "parent_sha256"),
    (Hx "ancestor_source_sha256").
  destruct (negb (lineage_complete d')); auto.
  destruct (negb (set_mem _ h1)); auto.
  destruct (negb (set_mem _ sh)); auto.
  destruct (dict_get h1b _) as [hop1|]; auto.
  destruct (negb (dict_truthy hop1)); auto.
  destruct (negb (_ =? _)); auto.
  destruct (dict_get sbh _) as [src|]; auto.
  destruct (negb (dict_truthy src)); auto.
  now apply context_preserved_ext_text.
Qed.

Lemma blank_of_empty_reads_alike (d : record) (f : string) :
  ~ In f lineage_keys -> field_text d f = "" ->
  (forall k, In k lineage_keys ->
             field_truthy (dict_set d f (VStr "")) k = field_truthy d k) /\
  (forall k, field_text (dict_set d f (VStr "")) k = field_text d k).
Proof.
  intros Hf Hempty. split.
  - intros k Hk. rewrite field_truthy_set.
    destruct (String.eqb_spec f k) as [->|_]; [contradiction|reflexivity].
  - intros k. rewrite field_text_set.
    destruct (String.eqb_spec f k) as [->|_]; [now rewrite Hempty|reflexivity].
Qed.

(** X3.  A derivative that passes an audit still passes after one of its
    mandatory context fields is blanked exactly when the text of that field
    was empty already: erasing a field that is empty in the source goes
    unnoticed, erasing any other is rejected. *)
Theorem blanked_context_passes_iff_empty
    (source_hashes : str_set) (source_by_hash : list (string * record))
    (hop1_hashes : str_set) (hop1_by_hash : list (string * record))
    (mandatory_fields : list string) (d : record) (f : string) :
  In f mandatory_fields ->
  ~ In f two_hop_lineage_keys ->
  (audit_record source_hashes source_by_hash d mandatory_fields = true ->
   (audit_record source_hashes source_by_hash (dict_set d f (VStr ""))
                 mandatory_fields = true
    <-> field_text d f = "")) /\
  (audit_two_hop source_hashes source_by_hash hop1_hashes hop1_by_hash d
                 mandatory_fields = true ->
   (audit_two_hop source_hashes source_by_hash hop1_hashes hop1_by_hash
                  (dict_set d f (VStr "")) mandatory_fields = true
    <-> field_text d f = "")).
Proof.
  intros Hin Hf.
  assert (Hl : ~ In f lineage_keys).
  { intros Hk. apply Hf. unfold two_hop_lineage_keys. apply in_or_app.
    now left. }
  assert (Hp : f <> "parent_sha256").
  { intros ->. apply Hl. unfold lineage_keys. simpl. auto. }
  assert (Ha : f <> "ancestor_source_sha256").
  { intros ->. apply Hf. unfold two_hop_lineage_keys, lineage_keys. simpl.
    auto 10. }
  split; intros Hpass; split.
  - intros Hafter. destruct (string_dec (field_text d f) "") as [|Hne];
      [assumption|].
    assert (Hrej : audit_one_hop source_hashes source_by_hash
                     (dict_set d f (VStr "")) mandatory_fields = false).
    { apply one_hop_rejects_changed_context; auto; simpl; congruence. }
    rewrite audit_one_hop_is_audit_record in Hrej. congruence.
  - intros Hempty. rewrite <- Hpass.
    destruct (blank_of_empty_reads_alike d f Hl Hempty) as [Ht Hx].
    now apply audit_record_ext_keys.
  - intros Hafter. destruct (string_dec (field_text d f) "") as [|Hne];
      [assumption|].
    assert (Hrej : audit_two_hop source_hashes source_by_hash hop1_hashes
                     hop1_by_hash (dict_set d f (VStr "")) mandatory_fields
                   = false).
    { apply two_hop_rejects_changed_context; auto; simpl; congruence. }
    congruence.
  - intros Hempty. rewrite <- Hpass.
    destruct (blank_of_empty_reads_alike d f Hl Hempty) as [Ht Hx].
    now apply audit_two_hop_ext_keys.
Qed.

Lemma blanked_context_passes_iff_empty_witness :
  audit_record ["fp-untitled"] [("fp-untitled", untitled_source)]
               untitled_derivative sample_mandatory = true /\
  audit_record ["fp-untitled"] [("fp-untitled", untitled_source)]
               (dict_set untitled_derivative "title" (VStr ""))
               sample_mandatory = true /\
  audit_record ["fp-untitled"] [("fp-untitled", untitled_source)]
               (dict_set untitled_derivative "id" (VStr ""))
               sample_mandatory = false.
Proof.
  assert (Hpass : audit_record ["fp-untitled"]
                    [("fp-untitled", untitled_source)]
                    untitled_derivative sample_mandatory = true)
    by reflexivity.
  split; [exact Hpass|]. split.
  - apply (proj1 (blanked_context_passes_iff_empty
                    ["fp-untitled"] [("fp-untitled", untitled_source)] [] []
                    sample_mandatory untitled_derivative "title"
                    (or_intror (or_introl eq_refl))
                    ltac:(simpl; intuition discriminate))
                 Hpass).
    reflexivity.
  - reflexivity.
Defined.

(** ** The context-erasure scenario *)

(** X4.  With at least one source, one derivative per source that passes
    [audit_record], a first mandatory field that is no lineage field and
    whose text is non-empty in every derivative, the context-erasure
    scenario returns a result in which the audit fails at exactly the
    injected indices: recall 1, false-positive rate 0. *)
Theorem context_erasure_detected_exactly `{Shuffler}
    (source : list record) (source_hashes : list string)
    (field : string) (other_fields : list string)
    (prov_records : list loc) (h : heap) :
  let mandatory_fields := field :: other_fields in
  let audit d :=
    audit_record (set_of_list source_hashes)
                 (dict_of_pairs (combine source_hashes source))
                 d mandatory_fields in
  source <> [] ->
  List.length prov_records = List.length source ->
  Forall (fun l => audit (nth l h []) = true) prov_records ->
  ~ In field lineage_keys ->
  Forall (fun l => field_text (nth l h []) field <> "") prov_records ->
  exists (s : scenario) (mutated : list record),
    mandatory_context_erasure source source_hashes mandatory_fields
                              prov_records h = (Ok s, (h ++ mutated)%list) /\
    failed_indices audit mutated
      = inject_indices (List.length source) (1 # 10)%Q 81 /\
    failed_count s = injected_count s /\
    detection_recall s = Some 1%Q /\
    false_positive_rate s = 0%Q.
Proof.
  intros mandatory_fields audit Hne Hlen Hpass Hf Htext.
  destruct (overwrite_scenario_exact source source_hashes mandatory_fields
              prov_records h Hne Hlen Hpass field
              "mandatory_context_erasure" (VStr "") 81)
    as (s & m & Hrun & Hfl & Hi & Hc & Hr & Hfp).
  { intros j d Hj Hd.
    assert (Hjl : j < List.length prov_records).
    { rewrite Hlen. eapply inject_indices_in_range. exact Hj. }
    assert (Hl : In (nth j prov_records 0) prov_records) by now apply nth_In.
    rewrite Forall_forall in Hpass, Htext.
    rewrite (audit_record_ext _ _ d
               (dict_set (nth (nth j prov_records 0) h []) field (VStr "")))
      by now apply same_items_reading.
    rewrite <- audit_one_hop_is_audit_record.
    apply one_hop_rejects_changed_context.
    - rewrite audit_one_hop_is_audit_record. now apply Hpass.
    - now left.
    - intros ->. apply Hf. unfold lineage_keys. simpl. auto.
    - simpl. intros Heq. apply (Htext _ Hl). now symmetry. }
  exists s, m. split; [exact Hrun|]. repeat split; auto. congruence.
Qed.

Lemma context_erasure_detected_exactly_witness :
  exists (s : scenario) (mutated : list record),
    mandatory_context_erasure sample_source sample_hashes sample_mandatory
                              [0; 1] sample_prov
      = (Ok s, (sample_prov ++ mutated)%list) /\
    failed_indices
      (fun d => audit_record (set_of_list sample_hashes)
                  (dict_of_pairs (combine sample_hashes sample_source))
                  d sample_mandatory) mutated
      = inject_indices 2 (1 # 10)%Q 81 /\
    failed_count s = injected_count s /\
    detection_recall s = Some 1%Q /\
    false_positive_rate s = 0%Q.
Proof.
  apply (context_erasure_detected_exactly sample_source sample_hashes
           "id" ["title"] [0; 1] sample_prov).
  - discriminate.
  - reflexivity.
  - repeat constructor.
  - simpl. intuition discriminate.
  - repeat constructor; discriminate.
Defined.

(** ** Which exception a scenario can end in *)

Section EndsIn.
Variable e : exn.

Lemma ends_in_ret {A} (a : A) (post : A -> Prop) :
  post a -> ends_in e post (ret a).
Proof. intros Hp h. exact Hp. Qed.

Lemma ends_in_raise {A} (post : A -> Prop) : ends_in e post (raise e).
Proof. intros h. reflexivity. Qed.

Lemma ends_in_lift_Ok {A} (r : result A) (post : A -> Prop) :
  (exists a, r = Ok a /\ post a) -> ends_in e post (lift r).
Proof. intros (a & -> & Hp) h. exact Hp. Qed.

Lemma ends_in_weaken {A} (m : M A) (P Q : A -> Prop) :
  ends_in e P m -> (forall a, P a -> Q a) -> ends_in e Q m.
Proof.
  intros Hm HPQ h. specialize (Hm h). destruct (fst (m h)); auto.
Qed.

Lemma ends_in_bind {A B} (m : M A) (k : A -> M B) (P : A -> Prop)
    (Q : B -> Prop) :
  ends_in e P m -> (forall a, P a -> ends_in e Q (k a)) ->
  ends_in e Q (bind m k).
Proof.
  intros Hm Hk h. specialize (Hm h). unfold bind.
  destruct (m h) as [[a|e'] h1]; simpl in *; [now apply Hk|assumption].
Qed.

Lemma ends_in_load (l : loc) : ends_in e (fun _ => True) (load l).
Proof. intros h. exact I. Qed.

Lemma ends_in_new_dict (r : record) : ends_in e (fun _ => True) (new_dict r).
Proof. intros h. exact I. Qed.

Lemma ends_in_setitem l k v : ends_in e (fun _ => True) (setitem l k v).
Proof. intros h. exact I. Qed.

Lemma ends_in_map_M {A B} (f : A -> M B) (l : list A) :
  (forall x, ends_in e (fun _ => True) (f x)) ->
  ends_in e (fun ys => List.length ys = List.length l) (map_M f l).
Proof.
  intros Hf. induction l as [|x l IH]; simpl; [now apply ends_in_ret|].
  eapply ends_in_bind; [apply Hf|]. intros y _.
  eapply ends_in_bind; [apply IH|]. intros ys Hys.
  apply ends_in_ret. simpl. now rewrite Hys.
Qed.

Lemma ends_in_for_each {A} (f : A -> M unit) (l : list A) :
  (forall x, ends_in e (fun _ => True) (f x)) ->
  ends_in e (fun _ => True) (for_each f l).
Proof.
  intros Hf. induction l as [|x l IH]; simpl; [now apply ends_in_ret|].
  eapply ends_in_bind; [apply Hf|]. intros _ _. apply IH.
Qed.

Lemma ends_in_copy_all (records : list loc) :
  ends_in e (fun mut => List.length mut = List.length records)
          (copy_all records).
Proof.
  unfold copy_all. apply ends_in_map_M. intros x.
  eapply ends_in_bind; [apply ends_in_load|]. intros r _.
  apply ends_in_new_dict.
Qed.

(** When the first step returns or raises [e] and every continuation
    raises [e], the whole raises [e]. *)
Lemma bind_raises {A B} (m : M A) (k : A -> M B) (P : A -> Prop) :
  ends_in e P m -> (forall a h, P a -> fst (k a h) = Raise e) ->
  forall h, fst (bind m k h) = Raise e.
Proof.
  intros Hm Hk h. specialize (Hm h). unfold bind.
  destruct (m h) as [[a|e'] h1]; simpl in *; [now apply Hk|now subst].
Qed.
End EndsIn.

Lemma ends_in_index {A} (xs : list A) (i : nat) :
  ends_in IndexError (fun _ => True) (index xs i).
Proof.
  unfold index. destruct (nth_error xs i);
    [now apply ends_in_ret|apply ends_in_raise].
Qed.

Lemma ends_in_overwrite_field mut idx k v :
  ends_in IndexError (fun _ => True) (overwrite_field mut idx k v).
Proof.
  unfold overwrite_field. apply ends_in_for_each. intros i.
  eapply ends_in_bind; [apply ends_in_index|]. intros l _.
  apply ends_in_setitem.
Qed.

Lemma score_defined (n : nat) (name : string) (failed injected : list nat) :
  n <> 0 -> exists s, score n name failed injected = Ok s.
Proof.
  intros Hn. unfold score, truediv.
  destruct (Z.eqb_spec (Z.of_nat n) 0) as [|_]; [lia|].
  destruct (nat_set injected) as [|i inj].
  - destruct (Z.eqb_spec (Z.max 1 (Z.of_nat n)) 0) as [|_]; [lia|].
    simpl. eexists. reflexivity.
  - destruct (Z.eqb_spec (zlen (i :: inj)) 0) as [Hz|_].
    { unfold zlen in Hz. simpl in Hz. lia. }
    destruct (Z.eqb_spec (Z.max 1 (Z.of_nat n - zlen (i :: inj))) 0)
      as [|_]; [lia|].
    simpl. eexists. reflexivity.
Qed.

Lemma ends_in_score (n : nat) (name : string) (failed injected : list nat) :
  n <> 0 ->
  ends_in IndexError (fun _ => True) (lift (score n name failed injected)).
Proof.
  intros Hn. apply ends_in_lift_Ok.
  destruct (score_defined n name failed injected Hn) as [s Hs]. now exists s.
Qed.

Section ExtendedRaises.
Context `{Shuffler}.
Variables (source : list record) (source_hashes mandatory_fields : list string).
Hypothesis source_nonempty : source <> [].

Lemma source_length_nonzero : List.length source <> 0.
Proof. destruct source; simpl; congruence. Qed.

Lemma ends_in_scenario_result name mut idx :
  ends_in IndexError (fun _ => True)
          (scenario_result source source_hashes mandatory_fields name mut idx).
Proof.
  unfold scenario_result.
  eapply ends_in_bind; [apply ends_in_map_M; intros x; apply ends_in_load|].
  intros ds _. apply ends_in_score. exact source_length_nonzero.
Qed.

Lemma ends_in_copy_overwrite_score prov idx k v name :
  ends_in IndexError (fun _ => True)
    (mut <- copy_all prov ;;
     overwrite_field mut idx k v ;;;
     scenario_result source source_hashes mandatory_fields name mut idx).
Proof.
  eapply ends_in_bind; [apply ends_in_copy_all|]. intros mut _.
  eapply ends_in_bind; [apply ends_in_overwrite_field|]. intros _ _.
  apply ends_in_scenario_result.
Qed.

Lemma ends_in_baseline_provenance prov :
  ends_in IndexError (fun _ => True)
          (baseline_provenance source source_hashes mandatory_fields prov).
Proof.
  unfold baseline_provenance.
  eapply ends_in_bind; [apply ends_in_copy_all|]. intros mut _.
  apply ends_in_scenario_result.
Qed.
End ExtendedRaises.

Lemma index_nil_raises {A B} (k : A -> M B) (h : heap) :
  fst (bind (index [] 0) k h) = Raise IndexError.
Proof. reflexivity. Qed.

Lemma ends_in_Ok_not_raise {A} (e : exn) (P : A -> Prop) (m : M A) h e' :
  ends_in e P m -> fst (m h) = Raise e' -> e' = e.
Proof. intros Hm Hh. specialize (Hm h). now rewrite Hh in Hm. Qed.

(** ** No mandatory field: [mandatory_fields[0]] *)

(** X5.  With at least one source record and an empty mandatory-field
    list, [run_failure_scenarios] raises [IndexError], whatever the
    derivatives and the store: the context-erasure scenario reads
    [mandatory_fields[0]], and the scenarios before it return or raise the
    same exception. *)
Theorem failure_scenarios_without_mandatory_field_raise `{Shuffler}
    (source : list record) (source_hashes : list string)
    (prov_records : list loc) (h : heap) :
  source <> [] ->
  fst (run_failure_scenarios source source_hashes [] prov_records h)
  = Raise IndexError.
Proof.
  intros Hne. unfold run_failure_scenarios.
  eapply bind_raises; [now apply ends_in_baseline_provenance|].
  intros s0 h0 _.
  eapply bind_raises; [now apply ends_in_copy_overwrite_score|].
  intros s1 h1 _.
  eapply bind_raises; [now apply ends_in_copy_overwrite_score|].
  intros s2 h2 _.
  eapply (bind_raises _ _ _ (fun _ => False)); [|intros ? ? []].
  unfold mandatory_context_erasure. intros h3.
  rewrite (bind_raises IndexError _ _ _ (ends_in_copy_all _ _));
    [reflexivity|].
  intros mut h4 _. apply index_nil_raises.
Qed.

Lemma failure_scenarios_without_mandatory_field_raise_witness :
  fst (run_failure_scenarios sample_source sample_hashes [] [0; 1]
                             sample_prov)
  = Raise IndexError.
Proof.
  apply (failure_scenarios_without_mandatory_field_raise sample_source
           sample_hashes [0; 1] sample_prov).
  discriminate.
Defined.

(** X6.  On a stream of at least one record with an empty
    mandatory-field list, the fault-injection blocks of [eval_stream]
    raise [IndexError]: the tamper block reads [mandatory_fields[0]]
    before anything else in them can fail.  (On the empty stream
    [eval_stream] divides by [n = 0] before it gets there.) *)
Theorem fault_injection_without_mandatory_field_raises `{Shuffler}
    (source : list loc) (source_hashes : list string) (prov : list loc)
    (h : heap) :
  source <> [] ->
  fst (eval_stream_fault_injection source source_hashes [] prov h)
  = Raise IndexError.
Proof.
  intros _. unfold eval_stream_fault_injection.
  eapply (bind_raises _ _ _ (fun _ => False)); [|intros ? ? []].
  unfold tamper_detection. intros h0.
  rewrite (bind_raises IndexError _ _ _ (ends_in_copy_all _ _));
    [reflexivity|].
  intros mut h1 _. apply index_nil_raises.
Qed.

Lemma fault_injection_without_mandatory_field_raises_witness :
  fst (eval_stream_fault_injection [0; 1] sample_hashes [] [2; 3]
                                   (sample_source ++ sample_prov)%list)
  = Raise IndexError.
Proof.
  apply (fault_injection_without_mandatory_field_raises [0; 1] sample_hashes
           [2; 3] (sample_source ++ sample_prov)%list).
  discriminate.
Defined.

Section TwoHopRaises.
Context `{Shuffler}.
Variables (records : list record) (source_hashes : list string).
Variables (prov_hop1 : list record) (hop1_hashes mandatory_fields : list string).

Lemma ends_in_scenario_result_llm name mut idx check :
  mut <> [] ->
  ends_in IndexError (fun _ => True) (scenario_result_llm name mut idx check).
Proof.
  intros Hne. unfold scenario_result_llm.
  eapply ends_in_bind; [apply ends_in_map_M; intros x; apply ends_in_load|].
  intros ds _. apply ends_in_score. destruct mut; simpl; congruence.
Qed.

Lemma copy_all_nonempty (prov : list loc) :
  prov <> [] ->
  ends_in IndexError (fun mut : list loc => mut <> []) (copy_all prov).
Proof.
  intros Hne. eapply ends_in_weaken; [apply ends_in_copy_all|].
  intros mut Hlen ->. destruct prov; simpl in Hlen; congruence.
Qed.

Lemma ends_in_copy_overwrite_score_llm prov idx k v name check :
  prov <> [] ->
  ends_in IndexError (fun _ => True)
    (mut <- copy_all prov ;;
     overwrite_field mut idx k v ;;;
     scenario_result_llm name mut idx check).
Proof.
  intros Hne. eapply ends_in_bind; [now apply copy_all_nonempty|].
  intros mut Hmut.
  eapply ends_in_bind; [apply ends_in_overwrite_field|]. intros _ _.
  now apply ends_in_scenario_result_llm.
Qed.

Lemma ends_in_two_hop_ancestor_mismatch prov :
  prov <> [] ->
  ends_in IndexError (fun _ => True)
    (two_hop_ancestor_mismatch records source_hashes prov_hop1 hop1_hashes
                               mandatory_fields prov).
Proof.
  intros Hne. unfold two_hop_ancestor_mismatch.
  eapply ends_in_bind; [now apply copy_all_nonempty|]. intros mut Hmut.
  eapply (ends_in_bind _ _ _ (fun _ => True));
    [|intros _ _; now apply ends_in_scenario_result_llm].
  destruct (List.length records) as [|n] eqn:Hn.
  - rewrite inject_indices_zero. now apply ends_in_ret.
  - apply ends_in_for_each. intros i. simpl Nat.eqb. cbv iota.
    eapply (ends_in_bind _ _ _ (fun _ => True)); [now apply ends_in_ret|].
    intros j _.
    eapply ends_in_bind; [apply ends_in_index|]. intros hj _.
    eapply ends_in_bind; [apply ends_in_index|]. intros l _.
    apply ends_in_setitem.
Qed.
End TwoHopRaises.

(** X7.  With at least one hop-2 derivative and an empty mandatory-field
    list, the scenario block of [run_stream] raises [IndexError]: the
    context-erasure scenario reads [mandatory_fields[0]], and the scenarios
    before it return or raise the same exception. *)
Theorem two_hop_scenarios_without_mandatory_field_raise `{Shuffler}
    (records : list record) (source_hashes : list string)
    (prov_hop1 : list record) (hop1_hashes : list string)
    (prov_hop2 : list loc) (h : heap) :
  prov_hop2 <> [] ->
  fst (run_stream_scenarios records source_hashes prov_hop1 hop1_hashes []
                            prov_hop2 h)
  = Raise IndexError.
Proof.
  intros Hne. unfold run_stream_scenarios.
  eapply bind_raises.
  { unfold two_hop_baseline_provenance.
    eapply ends_in_bind; [now apply copy_all_nonempty|]. intros mut Hmut.
    now apply ends_in_scenario_result_llm. }
  intros s0 h0 _.
  eapply bind_raises; [now apply ends_in_copy_overwrite_score_llm|].
  intros s1 h1 _.
  eapply bind_raises; [now apply ends_in_two_hop_ancestor_mismatch|].
  intros s2 h2 _.
  eapply (bind_raises _ _ _ (fun _ => False)); [|intros ? ? []].
  unfold two_hop_context_erasure. intros h3.
  rewrite (bind_raises IndexError _ _ _ (ends_in_copy_all _ _));
    [reflexivity|].
  intros mut h4 _. apply index_nil_raises.
Qed.

Lemma two_hop_scenarios_without_mandatory_field_raise_witness :
  fst (run_stream_scenarios sample_source sample_hashes sample_hop1
                            sample_hop1_hashes [] [0; 1] sample_hop2)
  = Raise IndexError.
Proof.
  apply (two_hop_scenarios_without_mandatory_field_raise sample_source
           sample_hashes sample_hop1 sample_hop1_hashes [0; 1] sample_hop2).
  discriminate.
Defined.

(** ** The fault-injection blocks of [eval_stream] on two or more records *)

(** With a fraction of at most 0.21, as a float, and two or more records,
    some record is left alone: rounding the product cannot make up the
    difference. *)
Lemma inject_indices_leave_one `{Shuffler} (n : nat) (frac : Q) (seed : Z) :
  2 <= n ->
  Qle_bool 0 (float_of_literal frac) = true ->
  Qle_bool (float_of_literal frac) (21 # 100) = true ->
  List.length (inject_indices n frac seed) < n.
Proof.
  intros Hn Hlo Hhi. apply Qle_bool_imp_le in Hlo, Hhi.
  rewrite inject_indices_length.
  pose proof (inject_count_below n frac Hn Hlo Hhi).
  pose proof (inject_count_pos n frac). lia.
Qed.

Lemma detection_rates_exact (source : list loc) (idxs : list nat) :
  idxs <> [] -> NoDup idxs -> List.length idxs < List.length source ->
  detection_rates source idxs idxs = Ok (1%Q, 0%Q).
Proof.
  intros Hne Hnd Hlt. unfold detection_rates, nat_set.
  rewrite (nodup_fixed_point Nat.eq_dec Hnd).
  rewrite filter_all by (intros x Hx; now apply nat_mem_In).
  rewrite truediv_same
    by (unfold zlen; destruct idxs; [contradiction|simpl; lia]).
  simpl rbind.
  rewrite filter_none
    by (intros x Hx; apply negb_false_iff; now apply nat_mem_In).
  rewrite truediv_zero by (unfold zlen; simpl; lia). reflexivity.
Qed.

(** X8.  On two or more records, one derivative per source, all
    lineage-complete, the lineage-break block of [eval_stream] returns
    recall 1 and false-positive rate 0: [lineage_complete] fails on exactly
    the copies whose [parent_sha256] was blanked, and the store only grows
    by the copies. *)
Theorem lineage_break_detected_exactly `{Shuffler}
    (source prov : list loc) (h : heap) :
  2 <= List.length source ->
  List.length prov = List.length source ->
  Forall (fun l => lineage_complete (nth l h []) = true) prov ->
  exists broken : list record,
    lineage_break_detection source prov h
      = (Ok (1%Q, 0%Q), (h ++ broken)%list) /\
    failed_indices lineage_complete broken
      = inject_indices (List.length source) (1 # 10)%Q 41.
Proof.
  intros Hn Hlen Hpass.
  set (idx := inject_indices (List.length source) (1 # 10)%Q 41).
  set (ds := map (fun l => nth l h []) prov).
  set (broken := overwritten_by (fun _ => VStr "") idx "parent_sha256" ds).
  assert (Hvalid : Forall (fun l => l < List.length h) prov).
  { apply (passing_records_exist lineage_complete); [reflexivity|exact Hpass]. }
  assert (Hds : List.length ds = List.length prov) by apply length_map.
  assert (Hidx : Forall (fun i => i < List.length ds) idx).
  { apply Forall_forall. intros i Hi. rewrite Hds, Hlen.
    eapply inject_indices_in_range. exact Hi. }
  assert (Hfailed : failed_indices lineage_complete broken = idx).
  { apply injected_fail_exactly; [apply inject_indices_sorted|assumption| |].
    - unfold ds. apply Forall_map. exact Hpass.
    - intros j d _ Hd. eapply lineage_incomplete_blank; [|exact Hd].
      unfold lineage_keys. simpl. auto. }
  exists broken. split; [|exact Hfailed].
  etransitivity.
  - apply (copy_mutate_load prov h
             (fun mut => overwrite_field mut idx "parent_sha256" (VStr ""))
             broken
             (fun _ ds =>
                lift (detection_rates source
                        (failed_indices lineage_complete ds) idx))).
    + exact Hvalid.
    + rewrite <- Hds. now apply overwrite_field_by.
    + unfold broken. now rewrite overwritten_by_length.
  - unfold lift. rewrite Hfailed. rewrite detection_rates_exact; auto.
    + apply inject_indices_nonempty. lia.
    + apply inject_indices_NoDup.
    + apply inject_indices_leave_one; [assumption|reflexivity|reflexivity].
Qed.

Lemma lineage_break_detected_exactly_witness :
  exists broken : list record,
    lineage_break_detection [0; 1] [2; 3] (sample_source ++ sample_prov)%list
      = (Ok (1%Q, 0%Q), ((sample_source ++ sample_prov) ++ broken)%list) /\
    failed_indices lineage_complete broken = inject_indices 2 (1 # 10)%Q 41.
Proof.
  apply (lineage_break_detected_exactly [0; 1] [2; 3]
           (sample_source ++ sample_prov)%list).
  - simpl. lia.
  - reflexivity.
  - repeat constructor.
Defined.

(** The indices an enumeration keeps, by membership. *)
Lemma kept_from_In {A} (q : A -> bool) (a : nat) (l : list A) (j : nat) :
  In j (map fst (filter (fun p => q (snd p))
                        (combine (seq a (List.length l)) l))) <->
  a <= j /\ exists x, nth_error l (j - a) = Some x /\ q x = true.
Proof.
  revert a. induction l as [|x l IH]; intros a.
  - simpl. split; [contradiction|]. intros (_ & y & Hy & _).
    destruct (j - a); discriminate.
  - simpl List.length. simpl seq. simpl combine. simpl filter.
    assert (Hrest :
      In j (map fst (filter (fun p => q (snd p))
                            (combine (seq (S a) (List.length l)) l))) <->
      S a <= j /\ exists y, nth_error (x :: l) (j - a) = Some y /\ q y = true).
    { rewrite IH. split; intros (Hr & y & Hy & Hq); (split; [lia|]);
        exists y; (split; [|exact Hq]).
      - replace (j - a) with (S (j - S a)) by lia. exact Hy.
      - replace (j - a) with (S (j - S a)) in Hy by lia. exact Hy. }
    destruct (q x) eqn:Eq.
    + simpl. rewrite Hrest. split.
      * intros [<-|(Hr & y & Hy & Hq)].
        -- split; [lia|]. exists x. now rewrite Nat.sub_diag.
        -- split; [lia|]. now exists y.
      * intros (Hr & y & Hy & Hq).
        destruct (Nat.eq_dec a j) as [->|Hne]; [now left|right].
        split; [lia|]. now exists y.
    + rewrite Hrest. split.
      * intros (Hr & y & Hy & Hq). split; [lia|]. now exists y.
      * intros (Hr & y & Hy & Hq). split; [|now exists y].
        destruct (Nat.eq_dec a j) as [->|Hne]; [|lia].
        rewrite Nat.sub_diag in Hy. simpl in Hy. congruence.
Qed.

Lemma kept_from_sorted {A} (q : A -> bool) (a : nat) (l : list A) :
  StronglySorted lt
    (map fst (filter (fun p => q (snd p))
                     (combine (seq a (List.length l)) l))).
Proof.
  revert a. induction l as [|x l IH]; intros a; [constructor|].
  simpl List.length. simpl seq. simpl combine. simpl filter.
  destruct (q x); [|apply IH]. simpl.
  constructor; [apply IH|]. apply Forall_forall. intros j Hj.
  apply kept_from_In in Hj. lia.
Qed.

Lemma nth_error_combine_nth (ds : list record) (hs : list string) (j : nat) :
  j < List.length ds -> j < List.length hs ->
  nth_error (combine ds hs) j = Some (nth j ds [], nth j hs "").
Proof.
  revert ds hs. induction j as [|j IH]; intros [|d ds] [|x hs] Hd Hh;
    simpl in *; try lia; [reflexivity|].
  apply IH; lia.
Qed.

(** [[i for i, (d, h) in enumerate(zip(ds, hs)) if d.get(k) != h]], by
    membership. *)
Lemma mismatch_detected_exactly (ds : list record) (hs : list string)
    (k : string) (idx : list nat) :
  List.length hs = List.length ds ->
  StronglySorted lt idx ->
  (forall j, In j idx <->
     j < List.length ds /\ field_differs (nth j ds []) k (nth j hs "") = true) ->
  map fst (filter (fun p => field_differs (fst (snd p)) k (snd (snd p)))
                  (enumerate (combine ds hs))) = idx.
Proof.
  intros Hlen Hs Hiff. unfold enumerate.
  apply sorted_lt_ext;
    [apply (kept_from_sorted (fun x => field_differs (fst x) k (snd x)))
    |assumption|].
  intros j.
  rewrite (kept_from_In (fun x => field_differs (fst x) k (snd x))).
  rewrite Hiff, Nat.sub_0_r. split.
  - intros (_ & x & Hx & Hq).
    assert (Hj : j < List.length (combine ds hs)).
    { apply nth_error_Some. congruence. }
    rewrite length_combine in Hj.
    rewrite nth_error_combine_nth in Hx by lia.
    injection Hx as <-. split; [lia|exact Hq].
  - intros [Hj Hq]. split; [lia|].
    exists (nth j ds [], nth j hs ""). split; [|exact Hq].
    apply nth_error_combine_nth; lia.
Qed.

(** The loop [for i in idx: j = (i + 1) % n; mut[i][k] = hashes[j]] on fresh
    copies. *)
Lemma next_hash_loop_fresh (h ds : heap) (idx : list nat) (n : nat)
    (hashes : list string) (k : string) :
  n <> 0 -> List.length hashes = n ->
  Forall (fun i => i < List.length ds) idx ->
  for_each
    (fun i =>
       j <- (if n =? 0 then raise ZeroDivisionError
             else ret ((i + 1) mod n))%nat ;;
       hj <- index hashes j ;;
       l <- index (seq (List.length h) (List.length ds)) i ;;
       setitem l k (VStr hj))
    idx (h ++ ds)%list
  = (Ok tt,
     (h ++ overwritten_by (fun i => VStr (nth ((i + 1) mod n) hashes ""))
                          idx k ds)%list).
Proof.
  intros Hn Hlen Hidx. revert ds Hidx. unfold overwritten_by.
  induction idx as [|i idx IH]; intros ds Hidx; simpl; [reflexivity|].
  inversion Hidx as [|? ? Hi Hidx']; subst.
  assert (Hj : (i + 1) mod List.length hashes < List.length hashes)
    by (apply Nat.mod_upper_bound; assumption).
  erewrite bind_Ok.
  - pose proof (IH (update_nth i
                      (fun r => dict_set r k
                         (VStr (nth ((i + 1) mod List.length hashes)
                                    hashes "")))
                      ds)) as IH'.
    rewrite update_nth_length in IH'. now apply IH'.
  - apply Nat.eqb_neq in Hn. rewrite Hn. unfold bind, ret, index.
    rewrite (nth_error_nth' hashes "" Hj).
    rewrite nth_error_seq_lt by assumption. unfold setitem, ret.
    now rewrite update_nth_app_r.
Qed.

Lemma Forall2_nth_both {A B} (R : A -> B -> Prop) (l1 : list A) (l2 : list B)
    (j : nat) (d1 : A) (d2 : B) :
  Forall2 R l1 l2 -> j < List.length l1 -> R (nth j l1 d1) (nth j l2 d2).
Proof.
  intros HF. revert j. induction HF as [|x y l1 l2 Hxy _ IH]; intros j Hj;
    simpl in Hj; [lia|].
  destruct j as [|j]; simpl; [exact Hxy|]. apply IH. lia.
Qed.

Lemma Forall2_same_length {A B} (R : A -> B -> Prop) (l1 : list A)
    (l2 : list B) :
  Forall2 R l1 l2 -> List.length l1 = List.length l2.
Proof. induction 1; simpl; congruence. Qed.

Lemma next_index_differs (n j : nat) : 2 <= n -> j < n -> (j + 1) mod n <> j.
Proof.
  intros Hn Hj. destruct (Nat.eq_dec (j + 1) n) as [E|E].
  - rewrite E, Nat.Div0.mod_same. lia.
  - rewrite Nat.mod_small by lia. lia.
Qed.

Lemma field_differs_same_items (d d' : record) (k x : string) :
  same_items d d' -> field_differs d k x = field_differs d' k x.
Proof. intros Hs. unfold field_differs. now rewrite Hs. Qed.

(** X9.  On two or more records with pairwise distinct source
    fingerprints, where each derivative's [parent_sha256] is the string of
    its own source fingerprint, the parent-mismatch block of [eval_stream]
    returns recall 1 and false-positive rate 0. *)
Theorem parent_mismatch_detected_exactly `{Shuffler}
    (source : list loc) (source_hashes : list string) (prov : list loc)
    (h : heap) :
  2 <= List.length source ->
  List.length prov = List.length source ->
  NoDup source_hashes ->
  Forall2 (fun l x => field_differs (nth l h []) "parent_sha256" x = false)
          prov source_hashes ->
  exists mismatched : list record,
    parent_mismatch_detection source source_hashes prov h
      = (Ok (1%Q, 0%Q), (h ++ mismatched)%list).
Proof.
  intros Hn Hlen Hnd Hbase. unfold loc in *.
  pose proof (Forall2_same_length _ _ _ Hbase) as Hhs.
  set (n := List.length source) in *.
  set (idx := inject_indices n (1 # 10)%Q 51).
  set (ds := map (fun l => nth l h []) prov).
  set (vf := fun i => VStr (nth ((i + 1) mod n) source_hashes "")).
  set (mismatched := overwritten_by vf idx "parent_sha256" ds).
  assert (Hvalid : Forall (fun l => l < List.length h) prov).
  { clear - Hbase. induction Hbase as [|l x ls xs Hlx _ IH]; constructor;
      [|exact IH].
    destruct (Nat.lt_ge_cases l (List.length h)) as [|Hge]; [assumption|].
    rewrite nth_overflow in Hlx by assumption. discriminate. }
  assert (Hds : List.length ds = List.length prov) by apply length_map.
  assert (Hidx : Forall (fun i => i < List.length ds) idx).
  { apply Forall_forall. intros i Hi. rewrite Hds, Hlen.
    eapply inject_indices_in_range. exact Hi. }
  assert (Hbase' : forall j, j < n ->
            field_differs (nth j ds []) "parent_sha256"
                          (nth j source_hashes "") = false).
  { intros j Hj. unfold ds.
    rewrite <- Hlen in Hj.
    rewrite (nth_indep _ [] (nth 0 h []))
      by (rewrite length_map; exact Hj).
    rewrite (map_nth (fun l => nth l h [])).
    apply (Forall2_nth_both _ _ _ j 0 "" Hbase). exact Hj. }
  assert (Hdet :
    map fst (filter (fun p => field_differs (fst (snd p)) "parent_sha256"
                                            (snd (snd p)))
                    (enumerate (combine mismatched source_hashes))) = idx).
  { apply mismatch_detected_exactly.
    - unfold mismatched. rewrite overwritten_by_length, Hds.
      symmetry. exact Hhs.
    - apply inject_indices_sorted.
    - intros j. unfold mismatched. rewrite overwritten_by_length, Hds, Hlen.
      rewrite Forall_forall in Hidx. split.
      + intros Hj. pose proof (Hidx j Hj) as Hjd.
        assert (Hjn : j < n) by lia. split; [exact Hjn|].
        rewrite (field_differs_same_items _ _ _ _
                   (overwritten_by_at vf idx "parent_sha256" ds j Hj Hjd)).
        unfold field_differs. rewrite dict_get_set_same. unfold vf.
        apply negb_true_iff, String.eqb_neq. intros E.
        apply (proj1 (NoDup_nth source_hashes "") Hnd) in E;
          [|rewrite <- Hhs, Hlen; apply Nat.mod_upper_bound; lia|lia].
        now apply (next_index_differs n j).
      + intros [Hj Hd].
        destruct (in_dec Nat.eq_dec j idx) as [|Hnin]; [assumption|].
        rewrite overwritten_by_other in Hd by assumption.
        rewrite Hbase' in Hd by assumption. discriminate. }
  exists mismatched.
  etransitivity.
  - apply (copy_mutate_load prov h
             (fun mut =>
                for_each
                  (fun i =>
                     j <- (if n =? 0 then raise ZeroDivisionError
                           else ret ((i + 1) mod n))%nat ;;
                     hj <- index source_hashes j ;;
                     l <- index mut i ;;
                     setitem l "parent_sha256" (VStr hj))
                  idx)
             mismatched
             (fun _ ds =>
                lift (detection_rates source
                        (map fst
                           (filter (fun p =>
                                      field_differs (fst (snd p))
                                        "parent_sha256" (snd (snd p)))
                                   (enumerate (combine ds source_hashes))))
                        idx))).
    + exact Hvalid.
    + unfold loc. rewrite <- Hds.
      apply next_hash_loop_fresh; [lia|lia|exact Hidx].
    + unfold mismatched. now rewrite overwritten_by_length.
  - unfold lift. rewrite Hdet. rewrite detection_rates_exact; auto.
    + apply inject_indices_nonempty. lia.
    + apply inject_indices_NoDup.
    + apply inject_indices_leave_one; [assumption|reflexivity|reflexivity].
Qed.

Lemma parent_mismatch_detected_exactly_witness :
  exists mismatched : list record,
    parent_mismatch_detection [0; 1] sample_hashes [2; 3]
                              (sample_source ++ sample_prov)%list
      = (Ok (1%Q, 0%Q), ((sample_source ++ sample_prov) ++ mismatched)%list).
Proof.
  apply (parent_mismatch_detected_exactly [0; 1] sample_hashes [2; 3]
           (sample_source ++ sample_prov)%list).
  - simpl. lia.
  - reflexivity.
  - repeat constructor; simpl; intuition discriminate.
  - repeat constructor.
Defined.

(** ** The two-hop scenarios of [run_stream] *)

Lemma audit_two_hop_empty sh sbh h1 h1b mf :
  audit_two_hop sh sbh h1 h1b [] mf = false.
Proof. reflexivity. Qed.

Lemma audit_two_hop_unknown_parent sh sbh h1 h1b d mf :
  set_mem (field_text d "parent_sha256") h1 = false ->
  audit_two_hop sh sbh h1 h1b d mf = false.
Proof.
  intros Hm. unfold audit_two_hop.
  destruct (negb (lineage_complete d)); [reflexivity|]. now rewrite Hm.
Qed.

Lemma audit_two_hop_broken_chain sh sbh h1 h1b d hop1 mf :
  dict_get h1b (field_text d "parent_sha256") = Some hop1 ->
  field_text hop1 "parent_sha256" <> field_text d "ancestor_source_sha256" ->
  audit_two_hop sh sbh h1 h1b d mf = false.
Proof.
  intros Hres Hne. unfold audit_two_hop.
  destruct (negb (lineage_complete d)); auto.
  destruct (negb (set_mem _ h1)); auto.
  destruct (negb (set_mem _ sh)); auto.
  rewrite Hres. destruct (negb (dict_truthy hop1)); auto.
  apply String.eqb_neq in Hne. now rewrite Hne.
Qed.

Section TwoHopScenario.
Context `{Shuffler}.
Variables (records : list record) (source_hashes : list string).
Variables (prov_hop1 : list record) (hop1_hashes mandatory_fields : list string).
Variables (prov_hop2 : list loc) (h : heap).

Let check : record -> bool :=
  check_two_hop records source_hashes prov_hop1 hop1_hashes mandatory_fields.

Hypothesis records_nonempty : records <> [].
Hypothesis one_per_record : List.length prov_hop2 = List.length records.
Hypothesis baseline_passes :
  Forall (fun l => check (nth l h []) = true) prov_hop2.

Lemma two_hop_scenario_exact (mutate : list loc -> M unit)
    (vf : nat -> value) (k name : string) (seed : Z) :
  let idx := inject_indices (List.length records) (1 # 5)%Q seed in
  (forall ds : list record,
      List.length ds = List.length prov_hop2 ->
      mutate (seq (List.length h) (List.length ds)) (h ++ ds)%list
      = (Ok tt, (h ++ overwritten_by vf idx k ds)%list)) ->
  (forall j d,
      In j idx ->
      same_items d (dict_set (nth (nth j prov_hop2 0) h []) k (vf j)) ->
      check d = false) ->
  exists (s : scenario) (mutated : list record),
    (mut <- copy_all prov_hop2 ;;
     mutate mut ;;;
     scenario_result_llm name mut idx check) h
      = (Ok s, (h ++ mutated)%list) /\
    failed_indices check mutated = idx /\
    injected_count s = List.length idx /\
    failed_count s = List.length idx /\
    detection_recall s = Some 1%Q /\
    false_positive_rate s = 0%Q.
Proof.
  intros idx Hmut Hfail. unfold loc in *.
  set (ds := map (fun l => nth l h []) prov_hop2).
  set (mutated := overwritten_by vf idx k ds).
  assert (Hn : List.length prov_hop2 <> 0).
  { rewrite one_per_record. destruct records; simpl; congruence. }
  assert (Hvalid : Forall (fun l => l < List.length h) prov_hop2).
  { apply (passing_records_exist check); [reflexivity|exact baseline_passes]. }
  assert (Hds : List.length ds = List.length prov_hop2) by apply length_map.
  assert (Hidx : Forall (fun i => i < List.length ds) idx).
  { apply Forall_forall. intros i Hi. rewrite Hds, one_per_record.
    eapply inject_indices_in_range. exact Hi. }
  assert (Hfailed : failed_indices check mutated = idx).
  { apply injected_fail_exactly; [apply inject_indices_sorted|assumption| |].
    - unfold ds. apply Forall_map. exact baseline_passes.
    - intros j d Hj Hd. apply (Hfail j d Hj).
      rewrite Forall_forall in Hidx. specialize (Hidx j Hj).
      unfold ds in Hd.
      rewrite (nth_indep _ [] (nth 0 h [])) in Hd by exact Hidx.
      rewrite (map_nth (fun l => nth l h [])) in Hd. exact Hd. }
  destruct (score_failed_is_injected (List.length prov_hop2) name idx Hn)
    as (s & Hs & _ & Hi & Hf & Hr & Hfp).
  { apply inject_indices_nonempty.
    destruct records; [contradiction|simpl; lia]. }
  { apply inject_indices_NoDup. }
  exists s, mutated. split; [|auto].
  etransitivity.
  - apply (copy_mutate_load prov_hop2 h mutate mutated
             (fun mut ds =>
                lift (score (List.length mut) name
                        (failed_indices check ds) idx))).
    + exact Hvalid.
    + unfold loc. rewrite <- Hds. now apply Hmut.
    + unfold mutated. now rewrite overwritten_by_length.
  - unfold lift. rewrite length_seq, Hfailed. f_equal. exact Hs.
Qed.

Lemma two_hop_overwrite_scenario_exact (k name : string) (v : value)
    (seed : Z) :
  let idx := inject_indices (List.length records) (1 # 5)%Q seed in
  (forall j d,
      In j idx ->
      same_items d (dict_set (nth (nth j prov_hop2 0) h []) k v) ->
      check d = false) ->
  exists (s : scenario) (mutated : list record),
    (mut <- copy_all prov_hop2 ;;
     overwrite_field mut idx k v ;;;
     scenario_result_llm name mut idx check) h
      = (Ok s, (h ++ mutated)%list) /\
    failed_indices check mutated = idx /\
    injected_count s = List.length idx /\
    failed_count s = List.length idx /\
    detection_recall s = Some 1%Q /\
    false_positive_rate s = 0%Q.
Proof.
  intros idx Hfail.
  apply (two_hop_scenario_exact (fun mut => overwrite_field mut idx k v)
           (fun _ => v) k name seed); [|exact Hfail].
  intros ds Hds. apply overwrite_field_by.
  apply Forall_forall. intros i Hi. rewrite Hds, one_per_record.
  eapply inject_indices_in_range. exact Hi.
Qed.
End TwoHopScenario.

(** X10.  On a non-empty clean two-hop baseline, one hop-2 derivative per
    record, with the orphan value absent from the hop-1 fingerprints, the
    orphan-parent scenario of [run_stream] returns a result in which
    [audit_two_hop] fails at exactly the injected indices: recall 1,
    false-positive rate 0. *)
Theorem two_hop_orphan_parent_detected_exactly `{Shuffler}
    (records : list record) (source_hashes : list string)
    (prov_hop1 : list record) (hop1_hashes mandatory_fields : list string)
    (prov_hop2 : list loc) (h : heap) :
  let check :=
    check_two_hop records source_hashes prov_hop1 hop1_hashes
                  mandatory_fields in
  records <> [] ->
  List.length prov_hop2 = List.length records ->
  Forall (fun l => check (nth l h []) = true) prov_hop2 ->
  set_mem orphan_hash (set_of_list hop1_hashes) = false ->
  exists (s : scenario) (mutated : list record),
    two_hop_orphan_parent_link records source_hashes prov_hop1 hop1_hashes
                               mandatory_fields prov_hop2 h
      = (Ok s, (h ++ mutated)%list) /\
    failed_indices check mutated
      = inject_indices (List.length records) (1 # 5)%Q 401 /\
    failed_count s = injected_count s /\
    detection_recall s = Some 1%Q /\
    false_positive_rate s = 0%Q.
Proof.
  intros check Hne Hlen Hpass Horphan.
  destruct (two_hop_overwrite_scenario_exact records source_hashes prov_hop1
              hop1_hashes mandatory_fields prov_hop2 h Hne Hlen Hpass
              "parent_sha256" "two_hop_orphan_parent_link"
              (VStr orphan_hash) 401)
    as (s & m & Hrun & Hfl & Hi & Hc & Hr & Hfp).
  { intros j d _ Hd. unfold check_two_hop.
    apply audit_two_hop_unknown_parent.
    destruct (same_items_reading _ _ Hd) as [_ Hx].
    rewrite Hx, field_text_set. exact Horphan. }
  exists s, m. split; [exact Hrun|]. repeat split; auto. congruence.
Qed.

(** X11.  On a non-empty clean two-hop baseline, one hop-2 derivative per
    record, the label-stripping scenario of [run_stream] returns a result
    in which [audit_two_hop] fails at exactly the injected indices:
    recall 1, false-positive rate 0. *)
Theorem two_hop_label_stripped_detected_exactly `{Shuffler}
    (records : list record) (source_hashes : list string)
    (prov_hop1 : list record) (hop1_hashes mandatory_fields : list string)
    (prov_hop2 : list loc) (h : heap) :
  let check :=
    check_two_hop records source_hashes prov_hop1 hop1_hashes
                  mandatory_fields in
  records <> [] ->
  List.length prov_hop2 = List.length records ->
  Forall (fun l => check (nth l h []) = true) prov_hop2 ->
  exists (s : scenario) (mutated : list record),
    two_hop_generated_label_stripped records source_hashes prov_hop1
                                     hop1_hashes mandatory_fields prov_hop2 h
      = (Ok s, (h ++ mutated)%list) /\
    failed_indices check mutated
      = inject_indices (List.length records) (1 # 5)%Q 404 /\
    failed_count s = injected_count s /\
    detection_recall s = Some 1%Q /\
    false_positive_rate s = 0%Q.
Proof.
  intros check Hne Hlen Hpass.
  destruct (two_hop_overwrite_scenario_exact records source_hashes prov_hop1
              hop1_hashes mandatory_fields prov_hop2 h Hne Hlen Hpass
              "generated_label" "two_hop_generated_label_stripped"
              (VStr "") 404)
    as (s & m & Hrun & Hfl & Hi & Hc & Hr & Hfp).
  { intros j d _ Hd. unfold check_two_hop.
    apply audit_two_hop_lineage_incomplete.
    eapply lineage_incomplete_blank; [|exact Hd].
    unfold lineage_keys. simpl. auto. }
  exists s, m. split; [exact Hrun|]. repeat split; auto. congruence.
Qed.

(** X12.  On a non-empty clean two-hop baseline, one hop-2 derivative per
    record, with a first mandatory field that is no lineage field and whose
    text is non-empty in every derivative, the context-erasure scenario of
    [run_stream] returns a result in which [audit_two_hop] fails at exactly
    the injected indices: recall 1, false-positive rate 0. *)
Theorem two_hop_context_erasure_detected_exactly `{Shuffler}
    (records : list record) (source_hashes : list string)
    (prov_hop1 : list record) (hop1_hashes : list string)
    (field : string) (other_fields : list string)
    (prov_hop2 : list loc) (h : heap) :
  let mandatory_fields := field :: other_fields in
  let check :=
    check_two_hop records source_hashes prov_hop1 hop1_hashes
                  mandatory_fields in
  records <> [] ->
  List.length prov_hop2 = List.length records ->
  Forall (fun l => check (nth l h []) = true) prov_hop2 ->
  ~ In field two_hop_lineage_keys ->
  Forall (fun l => field_text (nth l h []) field <> "") prov_hop2 ->
  exists (s : scenario) (mutated : list record),
    two_hop_context_erasure records source_hashes prov_hop1 hop1_hashes
                            mandatory_fields prov_hop2 h
      = (Ok s, (h ++ mutated)%list) /\
    failed_indices check mutated
      = inject_indices (List.length records) (1 # 5)%Q 403 /\
    failed_count s = injected_count s /\
    detection_recall s = Some 1%Q /\
    false_positive_rate s = 0%Q.
Proof.
  intros mandatory_fields check Hne Hlen Hpass Hf Htext.
  destruct (two_hop_overwrite_scenario_exact records source_hashes prov_hop1
              hop1_hashes mandatory_fields prov_hop2 h Hne Hlen Hpass
              field "two_hop_context_erasure" (VStr "") 403)
    as (s & m & Hrun & Hfl & Hi & Hc & Hr & Hfp).
  { intros j d Hj Hd.
    assert (Hjl : j < List.length prov_hop2).
    { rewrite Hlen. eapply inject_indices_in_range. exact Hj. }
    assert (Hl : In (nth j prov_hop2 0) prov_hop2) by now apply nth_In.
    rewrite Forall_forall in Hpass, Htext.
    unfold check_two_hop.
    rewrite (audit_two_hop_ext _ _ _ _ d
               (dict_set (nth (nth j prov_hop2 0) h []) field (VStr "")))
      by now apply same_items_reading.
    apply two_hop_rejects_changed_context.
    - now apply Hpass.
    - now left.
    - intros ->. apply Hf. unfold two_hop_lineage_keys, lineage_keys.
      simpl. auto.
    - intros ->. apply Hf. unfold two_hop_lineage_keys, lineage_keys.
      simpl. auto 10.
    - simpl. intros Heq. apply (Htext _ Hl). now symmetry. }
  exists s, m. split; [exact Hrun|]. repeat split; auto. congruence.
Qed.

(** X13.  On two or more records with pairwise distinct source
    fingerprints and a clean two-hop baseline in which each derivative's
    [ancestor_source_sha256] reads as its own source fingerprint, the
    ancestor-mismatch scenario of [run_stream] returns a result in which
    [audit_two_hop] fails at exactly the injected indices: recall 1,
    false-positive rate 0. *)
Theorem two_hop_ancestor_mismatch_detected_exactly `{Shuffler}
    (records : list record) (source_hashes : list string)
    (prov_hop1 : list record) (hop1_hashes mandatory_fields : list string)
    (prov_hop2 : list loc) (h : heap) :
  let check :=
    check_two_hop records source_hashes prov_hop1 hop1_hashes
                  mandatory_fields in
  2 <= List.length records ->
  List.length prov_hop2 = List.length records ->
  Forall (fun l => check (nth l h []) = true) prov_hop2 ->
  NoDup source_hashes ->
  Forall2 (fun l x => field_text (nth l h []) "ancestor_source_sha256" = x)
          prov_hop2 source_hashes ->
  exists (s : scenario) (mutated : list record),
    two_hop_ancestor_mismatch records source_hashes prov_hop1 hop1_hashes
                              mandatory_fields prov_hop2 h
      = (Ok s, (h ++ mutated)%list) /\
    failed_indices check mutated
      = inject_indices (List.length records) (1 # 5)%Q 402 /\
    failed_count s = injected_count s /\
    detection_recall s = Some 1%Q /\
    false_positive_rate s = 0%Q.
Proof.
  intros check Hn Hlen Hpass Hnd Hanc. unfold loc in *.
  pose proof (Forall2_same_length _ _ _ Hanc) as Hhs.
  assert (Hne : records <> []) by (destruct records; simpl in *; [lia|congruence]).
  set (n := List.length records) in *.
  destruct (two_hop_scenario_exact records source_hashes prov_hop1
              hop1_hashes mandatory_fields prov_hop2 h Hne Hlen Hpass
              (fun mut =>
                 for_each
                   (fun i =>
                      j <- (if n =? 0 then raise ZeroDivisionError
                            else ret ((i + 1) mod n))%nat ;;
                      hj <- index source_hashes j ;;
                      l <- index mut i ;;
                      setitem l "ancestor_source_sha256" (VStr hj))
                   (inject_indices n (1 # 5)%Q 402))
              (fun i => VStr (nth ((i + 1) mod n) source_hashes ""))
              "ancestor_source_sha256" "two_hop_ancestor_mismatch" 402)
    as (s & m & Hrun & Hfl & Hi & Hc & Hr & Hfp).
  { intros ds Hds. unfold loc in Hds.
    apply next_hash_loop_fresh; [lia|lia|].
    apply Forall_forall. intros i Hi. rewrite Hds, Hlen.
    eapply inject_indices_in_range. exact Hi. }
  { intros j d Hj Hd.
    assert (Hjn : j < n) by (eapply inject_indices_in_range; exact Hj).
    assert (Hjl : j < List.length prov_hop2) by lia.
    assert (Hl : In (nth j prov_hop2 0) prov_hop2) by now apply nth_In.
    rewrite Forall_forall in Hpass. specialize (Hpass _ Hl).
    pose proof (Forall2_nth_both _ _ _ j 0 "" Hanc Hjl) as Haj.
    simpl in Haj.
    destruct (audit_two_hop_true_inv _ _ _ _ _ _ Hpass)
      as (_ & _ & _ & hop1 & src & Hh1 & _ & Hchain & _).
    destruct (same_items_reading _ _ Hd) as [_ Hx].
    unfold check_two_hop.
    apply (audit_two_hop_broken_chain _ _ _ _ _ hop1).
    - rewrite Hx, field_text_set. exact Hh1.
    - rewrite Hx, field_text_set, String.eqb_refl, Hchain, Haj. simpl.
      intros E.
      apply (proj1 (NoDup_nth source_hashes "") Hnd) in E;
        [|lia|rewrite <- Hhs, Hlen; apply Nat.mod_upper_bound; lia].
      symmetry in E. now apply (next_index_differs n j). }
  exists s, m. split; [exact Hrun|]. repeat split; auto. congruence.
Qed.

Lemma two_hop_orphan_parent_detected_exactly_witness :
  exists (s : scenario) (mutated : list record),
    two_hop_orphan_parent_link sample_source sample_hashes sample_hop1
                               sample_hop1_hashes sample_mandatory [0; 1]
                               sample_hop2
      = (Ok s, (sample_hop2 ++ mutated)%list) /\
    failed_indices
      (check_two_hop sample_source sample_hashes sample_hop1
                     sample_hop1_hashes sample_mandatory) mutated
      = inject_indices 2 (1 # 5)%Q 401 /\
    failed_count s = injected_count s /\
    detection_recall s = Some 1%Q /\
    false_positive_rate s = 0%Q.
Proof.
  apply (two_hop_orphan_parent_detected_exactly sample_source sample_hashes
           sample_hop1 sample_hop1_hashes sample_mandatory [0; 1]
           sample_hop2).
  - discriminate.
  - reflexivity.
  - repeat constructor.
  - reflexivity.
Defined.

Lemma two_hop_label_stripped_detected_exactly_witness :
  exists (s : scenario) (mutated : list record),
    two_hop_generated_label_stripped sample_source sample_hashes sample_hop1
                                     sample_hop1_hashes sample_mandatory
                                     [0; 1] sample_hop2
      = (Ok s, (sample_hop2 ++ mutated)%list) /\
    failed_indices
      (check_two_hop sample_source sample_hashes sample_hop1
                     sample_hop1_hashes sample_mandatory) mutated
      = inject_indices 2 (1 # 5)%Q 404 /\
    failed_count s = injected_count s /\
    detection_recall s = Some 1%Q /\
    false_positive_rate s = 0%Q.
Proof.
  apply (two_hop_label_stripped_detected_exactly sample_source sample_hashes
           sample_hop1 sample_hop1_hashes sample_mandatory [0; 1]
           sample_hop2).
  - discriminate.
  - reflexivity.
  - repeat constructor.
Defined.

Lemma two_hop_context_erasure_detected_exactly_witness :
  exists (s : scenario) (mutated : list record),
    two_hop_context_erasure sample_source sample_hashes sample_hop1
                            sample_hop1_hashes sample_mandatory [0; 1]
                            sample_hop2
      = (Ok s, (sample_hop2 ++ mutated)%list) /\
    failed_indices
      (check_two_hop sample_source sample_hashes sample_hop1
                     sample_hop1_hashes sample_mandatory) mutated
      = inject_indices 2 (1 # 5)%Q 403 /\
    failed_count s = injected_count s /\
    detection_recall s = Some 1%Q /\
    false_positive_rate s = 0%Q.
Proof.
  apply (two_hop_context_erasure_detected_exactly sample_source sample_hashes
           sample_hop1 sample_hop1_hashes "id" ["title"] [0; 1] sample_hop2).
  - discriminate.
  - reflexivity.
  - repeat constructor.
  - unfold two_hop_lineage_keys, lineage_keys. simpl. intuition discriminate.
  - repeat constructor; discriminate.
Defined.

Lemma two_hop_ancestor_mismatch_detected_exactly_witness :
  exists (s : scenario) (mutated : list record),
    two_hop_ancestor_mismatch sample_source sample_hashes sample_hop1
                              sample_hop1_hashes sample_mandatory [0; 1]
                              sample_hop2
      = (Ok s, (sample_hop2 ++ mutated)%list) /\
    failed_indices
      (check_two_hop sample_source sample_hashes sample_hop1
                     sample_hop1_hashes sample_mandatory) mutated
      = inject_indices 2 (1 # 5)%Q 402 /\
    failed_count s = injected_count s /\
    detection_recall s = Some 1%Q /\
    false_positive_rate s = 0%Q.
Proof.
  apply (two_hop_ancestor_mismatch_detected_exactly sample_source
           sample_hashes sample_hop1 sample_hop1_hashes sample_mandatory
           [0; 1] sample_hop2).
  - simpl. lia.
  - reflexivity.
  - repeat constructor.
  - repeat constructor; simpl; intuition discriminate.
  - repeat constructor.
Defined.

(** ** Context retention *)

Lemma truediv_unit (a b : Z) :
  (0 <= a <= b)%Z -> (0 < b)%Z ->
  exists q, truediv a b = Ok q /\ (0 <= q)%Q /\ (q <= 1)%Q.
Proof.
  intros Ha Hb. unfold truediv.
  destruct (Z.eqb_spec b 0) as [->|_]; [lia|].
  eexists. split; [reflexivity|].
  rewrite Z.sgn_pos, Z.mul_1_r, Z.abs_eq by lia.
  split.
  - rewrite Qred_correct. unfold Qle. simpl. lia.
  - rewrite Qred_correct. unfold Qle. simpl. rewrite Z2Pos.id by lia. lia.
Qed.

Lemma truediv_one_iff (a b : Z) :
  (0 < b)%Z -> (truediv a b = Ok 1%Q <-> a = b).
Proof.
  intros Hb. split.
  - unfold truediv. destruct (Z.eqb_spec b 0) as [->|_]; [lia|].
    intros Hq.
    assert (Heq : (a * Z.sgn b # Z.to_pos (Z.abs b) == 1)%Q).
    { rewrite <- (Qred_correct (a * Z.sgn b # Z.to_pos (Z.abs b))).
      replace (Qred (a * Z.sgn b # Z.to_pos (Z.abs b))) with 1%Q
        by congruence.
      reflexivity. }
    unfold Qeq in Heq. simpl in Heq.
    rewrite Z.sgn_pos, Z.abs_eq, Z2Pos.id in Heq by lia. lia.
  - intros ->. now apply truediv_same.
Qed.

Lemma filter_length_le {A} (p : A -> bool) (l : list A) :
  List.length (filter p l) <= List.length l.
Proof.
  induction l as [|x l IH]; simpl; [lia|]. destruct (p x); simpl; lia.
Qed.

Lemma filter_length_all {A} (p : A -> bool) (l : list A) :
  List.length (filter p l) = List.length l <-> forall x, In x l -> p x = true.
Proof.
  induction l as [|x l IH]; simpl.
  - split; [intros _ y []|reflexivity].
  - pose proof (filter_length_le p l) as Hle. destruct (p x) eqn:Ex; simpl.
    + split.
      * intros Hl y [<-|Hy]; [assumption|]. apply IH; [lia|assumption].
      * intros Hall. f_equal. apply IH. auto.
    + split; [lia|]. intros Hall. specialize (Hall x (or_introl eq_refl)).
      congruence.
Qed.

(** X14.  [context_retention] never raises and returns a value between 0
    and 1, for every source, derivative and mandatory-field list: the
    guard on the empty list keeps the division defined. *)
Theorem context_retention_in_unit_interval
    (source derived : record) (mandatory_fields : list string) :
  exists q, context_retention source derived mandatory_fields = Ok q /\
            (0 <= q)%Q /\ (q <= 1)%Q.
Proof.
  unfold context_retention. destruct mandatory_fields as [|f mf] eqn:E.
  - exists 0%Q. split; [reflexivity|]. split; unfold Qle; simpl; lia.
  - rewrite <- E. apply truediv_unit.
    + unfold zlen, kept_fields.
      pose proof (filter_length_le
                    (fun f0 => negb (field_text source f0 =? "")
                               && (field_text source f0
                                   =? field_text derived f0))
                    mandatory_fields).
      lia.
    + unfold zlen. rewrite E. simpl. lia.
Qed.

Lemma kept_fields_none (source derived : record)
    (mandatory_fields : list string) :
  (forall f, In f mandatory_fields -> dict_get derived f = None) ->
  kept_fields source derived mandatory_fields = [].
Proof.
  intros Habs. unfold kept_fields. apply filter_none. intros g Hg.
  unfold field_text at 3, get_default. rewrite (Habs g Hg). simpl.
  now destruct (field_text source g =? "").
Qed.

(** X15.  [context_retention] is 0 for a derivative that holds none of
    the mandatory fields. *)
Theorem context_retention_zero_without_fields
    (source derived : record) (mandatory_fields : list string) :
  (forall f, In f mandatory_fields -> dict_get derived f = None) ->
  context_retention source derived mandatory_fields = Ok 0%Q.
Proof.
  intros Habs. unfold context_retention.
  destruct mandatory_fields as [|f mf] eqn:E; [reflexivity|].
  rewrite <- E in *. rewrite (kept_fields_none _ _ _ Habs).
  apply truediv_zero. unfold zlen. rewrite E. simpl. lia.
Qed.

Lemma context_retention_zero_without_fields_witness :
  context_retention [("id", VStr "1"); ("title", VStr "Amphora")]
                    [("summary", VStr "Amphora (1900)")] sample_mandatory
  = Ok 0%Q.
Proof.
  apply (context_retention_zero_without_fields
           [("id", VStr "1"); ("title", VStr "Amphora")]
           [("summary", VStr "Amphora (1900)")] sample_mandatory).
  intros f [<-|[<-|[]]]; reflexivity.
Defined.

Lemma context_retention_one_iff (source derived : record)
    (mandatory_fields : list string) :
  (forall f, In f mandatory_fields ->
             field_text derived f = field_text source f) ->
  (context_retention source derived mandatory_fields = Ok 1%Q <->
   mandatory_fields <> [] /\
   forall f, In f mandatory_fields -> field_text source f <> "").
Proof.
  intros Hcopy. unfold context_retention.
  destruct mandatory_fields as [|f0 mf] eqn:E.
  - split; [discriminate|]. intros [Hne _]. contradiction.
  - rewrite <- E in *.
    assert (Hpos : (0 < zlen mandatory_fields)%Z)
      by (unfold zlen; rewrite E; simpl; lia).
    rewrite (truediv_one_iff _ _ Hpos). unfold zlen, kept_fields.
    rewrite Nat2Z.inj_iff, filter_length_all. split.
    + intros Hall. split; [rewrite E; discriminate|]. intros f Hf Hempty.
      specialize (Hall f Hf). rewrite Hempty in Hall. discriminate.
    + intros [_ Hall] f Hf. rewrite (Hcopy f Hf), String.eqb_refl.
      pose proof (Hall f Hf) as Hn. apply String.eqb_neq in Hn.
      now rewrite Hn.
Qed.

(** X16.  For a derivative built by [transform_provenance], or a hop-1 or
    hop-2 derivative built by [run_stream], from a source record,
    [context_retention] against that source is 1 exactly when the
    mandatory-field list is non-empty and every mandatory field reads as a
    non-empty text in the source. *)
Theorem built_derivative_retention_one_iff_populated
    (src : record) (mandatory_fields : list string)
    (parent ancestor generated_at text : string) :
  let populated :=
    mandatory_fields <> [] /\
    forall f, In f mandatory_fields -> field_text src f <> "" in
  (context_retention src
     (transform_provenance src mandatory_fields parent generated_at)
     mandatory_fields = Ok 1%Q <-> populated) /\
  (context_retention src
     (hop1_provenance src mandatory_fields parent generated_at text)
     mandatory_fields = Ok 1%Q <-> populated) /\
  (context_retention src
     (hop2_provenance src mandatory_fields parent ancestor generated_at text)
     mandatory_fields = Ok 1%Q <-> populated).
Proof.
  intros populated. split; [|split]; apply context_retention_one_iff;
    intros f Hf;
    first [ now apply transform_provenance_context
          | now apply builder_copies_context ].
Qed.

(** ** The naive derivative *)

Lemma transform_naive_shape (rec : record) (stream_name : string)
    (d : record) :
  transform_naive rec stream_name = Done d ->
  exists s, d = [("summary", VStr s)].
Proof.
  unfold transform_naive, getitem.
  repeat match goal with
         | |- context [if ?b then _ else _] => destruct b
         | |- context [match dict_get rec ?k with _ => _ end] =>
             destruct (dict_get rec k); simpl
         | |- context [match json_dumps rec with _ => _ end] =>
             destruct (json_dumps rec)
         end;
    intros [= <-] || discriminate; eexists; reflexivity.
Qed.

(** X17.  A derivative returned by [transform_naive] is never
    lineage-complete, has no truthy [parent_sha256] nor [generated_label],
    fails [audit_record] for every fingerprint set, map and mandatory-field
    list, and has context retention 0 when [summary] is no mandatory
    field. *)
Theorem naive_derivative_fails_every_check
    (rec : record) (stream_name : string) (d : record)
    (source_hashes : str_set) (source_by_hash : list (string * record))
    (mandatory_fields : list string) :
  transform_naive rec stream_name = Done d ->
  lineage_complete d = false /\
  field_truthy d "parent_sha256" = false /\
  field_truthy d "generated_label" = false /\
  audit_record source_hashes source_by_hash d mandatory_fields = false /\
  (~ In "summary" mandatory_fields ->
   context_retention rec d mandatory_fields = Ok 0%Q).
Proof.
  intros Hd. destruct (transform_naive_shape _ _ _ Hd) as [s ->].
  repeat split.
  intros Hnin. unfold context_retention.
  destruct mandatory_fields as [|f0 mf] eqn:E; [reflexivity|].
  rewrite <- E in *. rewrite kept_fields_none.
  - apply truediv_zero. unfold zlen. rewrite E. simpl. lia.
  - intros f Hf.
    change (dict_get [("summary", VStr s)] f)
      with (if "summary" =? f then Some (VStr s) else None).
    destruct (String.eqb_spec "summary" f) as [<-|_];
      [contradiction|reflexivity].
Qed.

Lemma naive_derivative_fails_every_check_witness :
  lineage_complete naive_report = false /\
  field_truthy naive_report "parent_sha256" = false /\
  field_truthy naive_report "generated_label" = false /\
  audit_record [] [] naive_report nyc_mandatory = false /\
  (~ In "summary" nyc_mandatory ->
   context_retention nyc_report naive_report nyc_mandatory = Ok 0%Q).
Proof.
  apply (naive_derivative_fails_every_check nyc_report
           "nyc_archaeology_reports" naive_report [] [] nyc_mandatory).
  reflexivity.
Defined.

Lemma getitem_Done_iff (rec : record) (k : string) :
  (exists v, getitem rec k = Done v) <-> dict_get rec k <> None.
Proof.
  unfold getitem. destruct (dict_get rec k) as [v|].
  - split; [discriminate|]. intros _. now exists v.
  - split; [intros [v Hv]; discriminate|congruence].
Qed.

(** X18.  For the three named streams, [transform_naive] returns a
    derivative only when the record holds every field the stream's summary
    reads; otherwise it raises [KeyError] for one of those fields, absent
    from the record. *)
Theorem transform_naive_needs_its_fields (rec : record)
    (stream_name : string) :
  summary_keys stream_name <> [] ->
  match transform_naive rec stream_name with
  | Done _ =>
      forall k, In k (summary_keys stream_name) -> dict_get rec k <> None
  | Fails e =>
      exists k, e = KeyError k /\ In k (summary_keys stream_name) /\
                dict_get rec k = None
  end.
Proof.
  unfold summary_keys, transform_naive, getitem.
  destruct (stream_name =? "nyc_archaeology_reports");
    [|destruct (stream_name =? "cleveland_museum_ancient_collections");
      [|destruct (stream_name =? "aic_ancient_collections");
        [|congruence]]];
    intros _;
    repeat match goal with
           | |- context [match dict_get rec ?k with _ => _ end] =>
               let E := fresh "E" in
               destruct (dict_get rec k) eqn:E; cbn [obind]
           end;
    try (intros k Hk; cbn [In] in Hk;
         repeat destruct Hk as [<-|Hk]; try contradiction; congruence);
    eexists; (split; [reflexivity|]); (split; [cbn [In]; auto|assumption]).
Qed.

Lemma transform_naive_needs_its_fields_witness :
  exists k, KeyError "date" = KeyError k /\
            In k (summary_keys "nyc_archaeology_reports") /\
            dict_get undated_report k = None.
Proof.
  apply (transform_naive_needs_its_fields undated_report
           "nyc_archaeology_reports").
  discriminate.
Defined.

(** ** The derivatives of [eval_stream] pass the audit *)

Lemma audit_record_passes (source : list record) (hs : list string)
    (src d : record) (mf : list string) :
  source_fingerprints source = Ok hs ->
  content_addressed source ->
  In src source -> src <> [] ->
  sha256_value src = Ok (field_text d "parent_sha256") ->
  lineage_complete d = true ->
  (forall f, In f mf -> field_text d f = field_text src f) ->
  audit_record (set_of_list hs) (dict_of_pairs (combine hs source)) d mf
  = true.
Proof.
  intros Hfp Hca Hin Hne Hh Hl Hctx.
  destruct (fingerprint_resolves _ _ _ _ Hfp Hca Hin Hh)
    as (Hmem & r' & Hr' & Hsame).
  unfold audit_record. rewrite Hl, Hmem, Hr'. simpl.
  rewrite (same_lookups_truthy src r' Hsame Hne). simpl.
  unfold context_preserved. apply forallb_forall. intros f Hf.
  apply String.eqb_eq. rewrite (Hctx f Hf). symmetry.
  now apply same_lookups_text.
Qed.

(** X19.  The derivative [eval_stream] builds for a source record
    ([transform_provenance], then [set_summary]) passes [audit_record]
    against the fingerprint set and map of the run, provided the source has
    at least one field, fingerprints do not collide among the sources, the
    timestamp is non-empty, no mandatory field is a lineage field and
    [summary] is no mandatory field. *)
Theorem summarised_derivative_passes_audit
    (source : list record) (source_hashes : list string) (src d : record)
    (h generated_at stream_name : string) (mandatory_fields : list string) :
  source_fingerprints source = Ok source_hashes ->
  content_addressed source ->
  In src source -> src <> [] ->
  sha256_value src = Ok h ->
  (forall f, In f mandatory_fields -> ~ In f lineage_keys) ->
  ~ In "summary" mandatory_fields ->
  generated_at <> "" ->
  eval_stream_derivative src mandatory_fields h generated_at stream_name
  = Done d ->
  audit_record (set_of_list source_hashes)
               (dict_of_pairs (combine source_hashes source))
               d mandatory_fields = true.
Proof.
  intros Hfp Hca Hin Hne Hh Hdis Hsum Hg Hd.
  unfold eval_stream_derivative, set_summary in Hd.
  destruct (transform_naive src stream_name) as [naive|e] eqn:En;
    [|discriminate].
  destruct (transform_naive_shape _ _ _ En) as [s ->].
  change (Done (dict_set
                  (transform_provenance src mandatory_fields h generated_at)
                  "summary" (VStr s)) = Done d) in Hd.
  injection Hd as <-.
  set (built := transform_provenance src mandatory_fields h generated_at).
  destruct (transform_provenance_lineage src mandatory_fields h generated_at
              Hdis Hg (sha256_value_Ok_nonempty _ _ Hh)) as [Hl Hp].
  fold built in Hl, Hp.
  assert (Hparent : field_text (dict_set built "summary" (VStr s))
                               "parent_sha256" = h).
  { rewrite field_text_set. unfold field_text, get_default.
    now rewrite Hp. }
  apply (audit_record_passes source source_hashes src); auto.
  - now rewrite Hparent.
  - transitivity (lineage_complete built); [|exact Hl].
    apply lineage_complete_ext_keys. intros k Hk.
    rewrite field_truthy_set.
    destruct (String.eqb_spec "summary" k) as [<-|_]; [|reflexivity].
    unfold lineage_keys in Hk. simpl in Hk. intuition discriminate.
  - intros f Hf. rewrite field_text_set.
    destruct (String.eqb_spec "summary" f) as [<-|_]; [contradiction|].
    now apply transform_provenance_context.
Qed.

Lemma summarised_derivative_passes_audit_witness :
  audit_record (set_of_list sample_hashes)
               (dict_of_pairs (combine sample_hashes sample_source))
               sample_summarised sample_mandatory = true.
Proof.
  apply (summarised_derivative_passes_audit sample_source sample_hashes
           [("id", VStr "1"); ("title", VStr "Amphora")] sample_summarised
           "80dcbf4f82116a2076cbbdd6a0071be2c408de1c656a6d1e2c9b9d37b3164f10"
           sample_generated_at "sample_stream" sample_mandatory).
  - vm_compute. reflexivity.
  - exact sample_content_addressed.
  - left. reflexivity.
  - discriminate.
  - vm_compute. reflexivity.
  - intros f [<-|[<-|[]]]; unfold lineage_keys; simpl; intuition discriminate.
  - simpl. intuition discriminate.
  - discriminate.
  - reflexivity.
Defined.

(** ** The hop-1 derivative of [run_stream] passes the one-hop audit *)

(** X20.  The hop-1 derivative [run_stream] builds for a source record
    passes [audit_one_hop] against the fingerprint set and map of the run,
    provided the source has at least one field, fingerprints do not collide
    among the sources, the timestamp is non-empty and no mandatory field is
    a lineage field. *)
Theorem built_hop1_passes_one_hop
    (records : list record) (source_hashes : list string) (src : record)
    (mandatory_fields : list string) (h generated_at summary : string) :
  source_fingerprints records = Ok source_hashes ->
  content_addressed records ->
  In src records -> src <> [] ->
  sha256_value src = Ok h ->
  (forall f, In f mandatory_fields -> ~ In f lineage_keys) ->
  generated_at <> "" ->
  audit_one_hop (set_of_list source_hashes)
                (dict_of_pairs (combine source_hashes records))
                (hop1_provenance src mandatory_fields h generated_at summary)
                mandatory_fields = true.
Proof.
  intros Hfp Hca Hin Hne Hh Hdis Hg.
  set (hop1 := hop1_provenance src mandatory_fields h generated_at summary).
  assert (Hget : forall k, In k lineage_keys ->
            dict_get hop1 k =
            dict_get [ ("generated_label", VStr "DERIVED_RECORD");
                       ("generated_by", VStr ("ollama:" ++ MODEL_NAME));
                       ("generated_at", VStr generated_at);
                       ("parent_sha256", VStr h);
                       ("summary", VStr summary) ] k).
  { intros k Hk. unfold hop1, hop1_provenance.
    apply builder_keeps_other_fields. intros Hm. exact (Hdis k Hm Hk). }
  assert (Hhne : h <> "") by (eapply sha256_value_Ok_nonempty; exact Hh).
  rewrite audit_one_hop_is_audit_record.
  apply (audit_record_passes records source_hashes src); auto.
  - unfold field_text, get_default.
    rewrite Hget by (unfold lineage_keys; simpl; auto). exact Hh.
  - unfold lineage_complete, lineage_keys, field_truthy. simpl forallb.
    rewrite !Hget by (unfold lineage_keys; simpl; auto). simpl.
    apply String.eqb_neq in Hg, Hhne. now rewrite Hg, Hhne.
  - intros f Hf. unfold hop1, hop1_provenance.
    now apply builder_copies_context.
Qed.

Lemma built_hop1_passes_one_hop_witness :
  audit_one_hop (set_of_list sample_hashes)
    (dict_of_pairs (combine sample_hashes sample_source))
    (hop1_provenance [("id", VStr "1"); ("title", VStr "Amphora")]
       sample_mandatory
       "80dcbf4f82116a2076cbbdd6a0071be2c408de1c656a6d1e2c9b9d37b3164f10"
       sample_generated_at "A vessel or a slab.")
    sample_mandatory = true.
Proof.
  apply (built_hop1_passes_one_hop sample_source sample_hashes
           [("id", VStr "1"); ("title", VStr "Amphora")]).
  - vm_compute. reflexivity.
  - exact sample_content_addressed.
  - left. reflexivity.
  - discriminate.
  - vm_compute. reflexivity.
  - intros f [<-|[<-|[]]]; unfold lineage_keys; simpl; intuition discriminate.
  - discriminate.
Defined.

(** ** Sampling *)

Lemma seq_sorted (a n : nat) : StronglySorted lt (seq a n).
Proof.
  revert a. induction n as [|n IH]; intros a; simpl; constructor;
    [apply IH|].
  apply Forall_forall. intros x Hx. apply in_seq in Hx. lia.
Qed.

Lemma seq_reads_all {A} (l : list A) (a : nat) (pre : list A) :
  List.length pre = a ->
  Forall2 (fun i x => nth_error (pre ++ l)%list i = Some x)
          (seq a (List.length l)) l.
Proof.
  revert a pre. induction l as [|x l IH]; intros a pre Ha; simpl;
    constructor.
  - rewrite nth_error_app2 by lia. now rewrite Ha, Nat.sub_diag.
  - replace (pre ++ x :: l)%list with ((pre ++ [x]) ++ l)%list
      by (rewrite <- app_assoc; reflexivity).
    apply IH. rewrite length_app. simpl. lia.
Qed.

Lemma read_positions {A} (l : list A) (keep : list nat) :
  Forall (fun i => i < List.length l) keep ->
  exists xs,
    rmap_list (fun i => match nth_error l i with
                        | Some x => Ok x
                        | None => Raise IndexError
                        end) keep = Ok xs /\
    Forall2 (fun i x => nth_error l i = Some x) keep xs.
Proof.
  induction 1 as [|i keep Hi _ (xs & Hxs & HF)].
  - exists []. split; [reflexivity|constructor].
  - destruct (nth_error l i) as [x|] eqn:Ex.
    + exists (x :: xs). split; [simpl; now rewrite Ex, Hxs|].
      now constructor.
    + apply nth_error_None in Ex. lia.
Qed.

Lemma py_prefix_length {A} (n : Z) (l : list A) :
  List.length (py_prefix n l) =
  if (0 <=? n)%Z then Nat.min (Z.to_nat n) (List.length l)
  else List.length l - Z.to_nat (- n).
Proof.
  unfold py_prefix. destruct (0 <=? n)%Z; rewrite length_firstn; lia.
Qed.

(** X21.  [sample_records] never raises; the sample holds the records at
    strictly increasing positions, so in their original order and each
    position once; for [n >= 0] there are [min(n, len(records))] of them,
    and for a negative [n] there are [len(records) + n] (none when that is
    negative). *)
Theorem sample_records_keeps_order {A} `{Shuffler} (records : list A)
    (n seed : Z) :
  exists (sample : list A) (keep : list nat),
    sample_records records n seed = Ok sample /\
    StronglySorted lt keep /\
    Forall2 (fun i x => nth_error records i = Some x) keep sample /\
    List.length sample =
      if (0 <=? n)%Z then Nat.min (Z.to_nat n) (List.length records)
      else List.length records - Z.to_nat (- n).
Proof.
  unfold sample_records.
  destruct (Z.leb_spec (zlen records) n) as [Hle|Hgt].
  - exists records, (seq 0 (List.length records)).
    split; [reflexivity|]. split; [apply seq_sorted|].
    split; [apply (seq_reads_all records 0 []); reflexivity|].
    unfold zlen in Hle. destruct (Z.leb_spec 0 n); lia.
  - set (idxs := shuffle seed (seq 0 (List.length records))).
    set (keep := sorted_nat (py_prefix n idxs)).
    assert (Hsub : forall i, In i keep -> In i idxs).
    { intros i Hi. unfold keep in Hi.
      apply (Permutation_in _ (Permutation_sym (sorted_nat_perm _))) in Hi.
      unfold py_prefix in Hi.
      destruct (0 <=? n)%Z; eapply In_firstn; exact Hi. }
    assert (Hrange : Forall (fun i => i < List.length records) keep).
    { apply Forall_forall. intros i Hi. apply Hsub in Hi. unfold idxs in Hi.
      apply (Permutation_in _ (Permutation_sym (shuffle_perm _ _))) in Hi.
      apply in_seq in Hi. lia. }
    destruct (read_positions records keep Hrange) as (xs & Hxs & HF).
    exists xs, keep. split; [exact Hxs|]. split.
    { apply sorted_le_NoDup_lt; [apply sorted_nat_sorted|].
      eapply Permutation_NoDup; [apply sorted_nat_perm|].
      unfold py_prefix.
      destruct (0 <=? n)%Z; apply NoDup_firstn, shuffle_seq_NoDup. }
    split; [exact HF|].
    rewrite <- (Forall2_same_length _ _ _ HF). unfold keep.
    rewrite <- (Permutation_length (sorted_nat_perm _)).
    rewrite py_prefix_length. unfold idxs. now rewrite shuffle_seq_length.
Qed.

(** ** The root hash does not depend on the order of the records *)

Lemma insert_str_perm x l : Permutation (x :: l) (insert_str x l).
Proof.
  induction l as [|y l IH]; simpl; [constructor; constructor|].
  destruct (String.leb x y); [apply Permutation_refl|].
  eapply perm_trans; [apply perm_swap|]. now apply perm_skip.
Qed.

Lemma sorted_str_perm l : Permutation l (sorted_str l).
Proof.
  induction l as [|x l IH]; simpl; [constructor|].
  eapply perm_trans; [|apply insert_str_perm]. now apply perm_skip.
Qed.

Lemma insert_str_sorted x l :
  StronglySorted str_le l -> StronglySorted str_le (insert_str x l).
Proof.
  induction 1 as [|y l Hs IH Hall]; simpl.
  - repeat constructor.
  - destruct (String.leb x y) eqn:E.
    + constructor; [now constructor|]. constructor; [exact E|].
      eapply Forall_impl; [|exact Hall]. intros z Hz.
      eapply string_leb_trans; [exact E|exact Hz].
    + constructor; [assumption|].
      apply (Permutation_Forall (insert_str_perm x l)).
      constructor; [|assumption].
      unfold str_le. destruct (String.leb_total x y); congruence.
Qed.

Lemma sorted_str_sorted l : StronglySorted str_le (sorted_str l).
Proof.
  induction l as [|x l IH]; simpl; [constructor|].
  now apply insert_str_sorted.
Qed.

Lemma sorted_str_unique (l1 l2 : list string) :
  Permutation l1 l2 ->
  StronglySorted str_le l1 -> StronglySorted str_le l2 -> l1 = l2.
Proof.
  revert l2. induction l1 as [|p l1 IH]; intros l2 Hperm Hs1 Hs2.
  - apply Permutation_nil in Hperm. now subst.
  - destruct l2 as [|q l2].
    { apply Permutation_sym, Permutation_nil in Hperm. discriminate. }
    inversion Hs1 as [|? ? Hs1' Hall1]; subst.
    inversion Hs2 as [|? ? Hs2' Hall2]; subst.
    rewrite Forall_forall in Hall1, Hall2.
    assert (Hpq : p = q).
    { assert (Hq : In q (p :: l1))
        by (apply (Permutation_in _ (Permutation_sym Hperm)); now left).
      assert (Hp : In p (q :: l2))
        by (apply (Permutation_in _ Hperm); now left).
      destruct Hq as [->|Hq]; [reflexivity|].
      destruct Hp as [->|Hp]; [reflexivity|].
      apply String.leb_antisym; [apply (Hall1 _ Hq)|apply (Hall2 _ Hp)]. }
    subst q. f_equal. apply IH; auto.
    eapply Permutation_cons_inv; eassumption.
Qed.

Lemma rmap_list_perm {A B} (f : A -> result B) (e0 : exn) (l l' : list A) :
  (forall x e, f x = Raise e -> e = e0) ->
  Permutation l l' ->
  match rmap_list f l, rmap_list f l' with
  | Ok ys, Ok ys' => Permutation ys ys'
  | Raise e, Raise e' => e = e'
  | _, _ => False
  end.
Proof.
  intros He. induction 1 as [|x l l' _ IH|x y l|l l' l'' _ IH1 _ IH2].
  - simpl. constructor.
  - simpl. destruct (f x) as [b|e] eqn:Ex; simpl; [|reflexivity].
    destruct (rmap_list f l), (rmap_list f l'); simpl; auto.
  - simpl. destruct (f y) as [b|e] eqn:Ey, (f x) as [c|e'] eqn:Ex; simpl;
      try reflexivity.
    + destruct (rmap_list f l); simpl; [constructor|reflexivity].
    + apply He in Ex. apply He in Ey. congruence.
  - destruct (rmap_list f l), (rmap_list f l'), (rmap_list f l'');
      try contradiction; try congruence.
    eapply perm_trans; eassumption.
Qed.

(** X22.  The root hash [eval_stream] computes over the derivatives'
    fingerprints does not depend on the order of the derivatives, and
    neither does the failure when a derivative cannot be fingerprinted. *)
Theorem root_hash_order_independent (prov prov' : list record) :
  Permutation prov prov' -> root_hash prov = root_hash prov'.
Proof.
  intros Hperm. unfold root_hash.
  pose proof (rmap_list_perm sha256_value TypeError prov prov'
                sha256_value_raises_TypeError Hperm) as H.
  destruct (rmap_list sha256_value prov) as [hs|e],
           (rmap_list sha256_value prov') as [hs'|e'];
    simpl; try contradiction; [|now subst].
  do 3 f_equal. apply sorted_str_unique.
  - eapply perm_trans; [apply Permutation_sym, sorted_str_perm|].
    eapply perm_trans; [exact H|apply sorted_str_perm].
  - apply sorted_str_sorted.
  - apply sorted_str_sorted.
Qed.

Lemma root_hash_order_independent_witness :
  root_hash sample_prov = root_hash (rev sample_prov).
Proof.
  apply (root_hash_order_independent sample_prov (rev sample_prov)).
  apply Permutation_rev.
Defined.

(** ** The shape of a fingerprint *)

Lemma hexdigit_lower_hex (d : Z) :
  (0 <= d < 16)%Z -> is_lower_hex (SHA256.hexdigit d) = true.
Proof.
  intros Hd.
  assert (Hcases : In d [0; 1; 2; 3; 4; 5; 6; 7; 8; 9; 10; 11; 12; 13; 14;
                         15]%Z) by (simpl; lia).
  simpl in Hcases.
  repeat (destruct Hcases as [<-|Hcases]; [reflexivity|]). contradiction.
Qed.

Lemma nib_lower_hex (w i : Z) : is_lower_hex (SHA256.nib w i) = true.
Proof.
  unfold SHA256.nib. apply hexdigit_lower_hex. apply Z.mod_pos_bound. lia.
Qed.

Lemma hex8_length (w : Z) (tail : string) :
  String.length (SHA256.hex8 w tail) = 8 + String.length tail.
Proof. reflexivity. Qed.

Lemma hex8_lower_hex (w : Z) (tail : string) :
  all_chars is_lower_hex (SHA256.hex8 w tail) = all_chars is_lower_hex tail.
Proof.
  unfold SHA256.hex8. cbn [all_chars]. now rewrite !nib_lower_hex.
Qed.

(** X23.  A fingerprint returned by [sha256_value] is 64 characters long
    and all its characters are lowercase hexadecimal digits. *)
Theorem fingerprint_is_64_hex_digits (d : record) (h : string) :
  sha256_value d = Ok h ->
  String.length h = 64 /\ all_chars is_lower_hex h = true.
Proof.
  unfold sha256_value. destruct (canonical_json d) as [s|e]; simpl;
    [|discriminate].
  intros [= <-]. unfold SHA256.hexdigest, SHA256.hex_of_state.
  generalize (SHA256.digest (SHA256.utf8 s)). intros st. split.
  - rewrite !hex8_length. reflexivity.
  - rewrite !hex8_lower_hex. reflexivity.
Qed.

Lemma fingerprint_is_64_hex_digits_witness :
  String.length
    "80dcbf4f82116a2076cbbdd6a0071be2c408de1c656a6d1e2c9b9d37b3164f10" = 64 /\
  all_chars is_lower_hex
    "80dcbf4f82116a2076cbbdd6a0071be2c408de1c656a6d1e2c9b9d37b3164f10" = true.
Proof.
  apply (fingerprint_is_64_hex_digits
           [("id", VStr "1"); ("title", VStr "Amphora")]).
  vm_compute. reflexivity.
Defined.

(** ** Fewer mandatory fields *)

Lemma context_preserved_incl d src mf mf' :
  incl mf' mf ->
  context_preserved d src mf = true -> context_preserved d src mf' = true.
Proof.
  intros Hincl. unfold context_preserved. rewrite !forallb_forall.
  intros Hall f Hf. apply Hall, Hincl, Hf.
Qed.

(** X24.  A derivative that passes [audit_record], [audit_one_hop] or
    [audit_two_hop] for a mandatory-field list passes it for every list
    whose fields are among those. *)
Theorem audits_pass_on_fewer_fields
    (source_hashes : str_set) (source_by_hash : list (string * record))
    (hop1_hashes : str_set) (hop1_by_hash : list (string * record))
    (d : record) (mandatory_fields fewer : list string) :
  incl fewer mandatory_fields ->
  (audit_record source_hashes source_by_hash d mandatory_fields = true ->
   audit_record source_hashes source_by_hash d fewer = true) /\
  (audit_one_hop source_hashes source_by_hash d mandatory_fields = true ->
   audit_one_hop source_hashes source_by_hash d fewer = true) /\
  (audit_two_hop source_hashes source_by_hash hop1_hashes hop1_by_hash d
                 mandatory_fields = true ->
   audit_two_hop source_hashes source_by_hash hop1_hashes hop1_by_hash d
                 fewer = true).
Proof.
  intros Hincl.
  assert (H1 : audit_one_hop source_hashes source_by_hash d mandatory_fields
               = true ->
               audit_one_hop source_hashes source_by_hash d fewer = true).
  { intros Hpass.
    destruct (audit_one_hop_true_inv _ _ _ _ Hpass)
      as (Hl & Hm & src & Hsrc & Ht & Hc).
    unfold audit_one_hop. rewrite Hl, Hm, Hsrc, Ht. simpl.
    now apply (context_preserved_incl d src mandatory_fields). }
  split; [|split].
  - rewrite <- !audit_one_hop_is_audit_record. exact H1.
  - exact H1.
  - intros Hpass.
    destruct (audit_two_hop_true_inv _ _ _ _ _ _ Hpass)
      as (Hl & Hm & Hm' & hop1 & src & Hh1 & Ht1 & Hchain & Hsrc & Ht & Hc).
    unfold audit_two_hop.
    rewrite Hl, Hm, Hm', Hh1, Ht1, Hchain, String.eqb_refl, Hsrc, Ht. simpl.
    now apply (context_preserved_incl d src mandatory_fields).
Qed.

Lemma audits_pass_on_fewer_fields_witness :
  (audit_record (set_of_list sample_hashes) sample_source_by_hash
                (nth 0 sample_prov []) sample_mandatory = true ->
   audit_record (set_of_list sample_hashes) sample_source_by_hash
                (nth 0 sample_prov []) ["title"] = true) /\
  (audit_one_hop (set_of_list sample_hashes) sample_source_by_hash
                 (nth 0 sample_prov []) sample_mandatory = true ->
   audit_one_hop (set_of_list sample_hashes) sample_source_by_hash
                 (nth 0 sample_prov []) ["title"] = true) /\
  (audit_two_hop (set_of_list sample_hashes) sample_source_by_hash [] []
                 (nth 0 sample_prov []) sample_mandatory = true ->
   audit_two_hop (set_of_list sample_hashes) sample_source_by_hash [] []
                 (nth 0 sample_prov []) ["title"] = true).
Proof.
  apply (audits_pass_on_fewer_fields (set_of_list sample_hashes)
           sample_source_by_hash [] [] (nth 0 sample_prov [])
           sample_mandatory ["title"]).
  intros f [<-|[]]. right. left. reflexivity.
Defined.

(** ** What a scenario result always satisfies *)

Lemma truediv_Ok_pos (a b : Z) (q : Q) :
  truediv a b = Ok q -> (0 < b)%Z -> (q == a # Z.to_pos b)%Q.
Proof.
  unfold truediv. destruct (b =? 0)%Z; [discriminate|].
  intros Hq Hb.
  assert (E : q = Qred (a * Z.sgn b # Z.to_pos (Z.abs b))) by congruence.
  rewrite E. eapply Qeq_trans; [apply Qred_correct|].
  rewrite Z.sgn_pos, Z.mul_1_r, Z.abs_eq by lia. reflexivity.
Qed.

Lemma truediv_Ok_nonzero (a b : Z) (q : Q) : truediv a b = Ok q -> b <> 0%Z.
Proof.
  unfold truediv. destruct (Z.eqb_spec b 0); [discriminate|auto].
Qed.

Lemma rbind_Ok_inv {A B} (r : result A) (f : A -> result B) (b : B) :
  rbind r f = Ok b -> exists a, r = Ok a /\ f a = Ok b.
Proof. destruct r as [a|e]; simpl; [now exists a|discriminate]. Qed.

(** X25.  In every result [scenario_result] returns, the pass rate and
    the fail rate, taken as exact fractions, add up to 1, the recall is
    absent exactly when no index was injected, a recall that is present
    lies between 0 and 1, and the false-positive rate is not negative. *)
Theorem scenario_result_invariants (n : nat) (name : string)
    (failed injected_idxs : list nat) (s : scenario) :
  score n name failed injected_idxs = Ok s ->
  (audit_pass_rate s + audit_fail_rate s == 1)%Q /\
  (detection_recall s = None <-> injected_idxs = []) /\
  (forall r, detection_recall s = Some r -> (0 <= r)%Q /\ (r <= 1)%Q) /\
  (0 <= false_positive_rate s)%Q.
Proof.
  unfold score. intros Hs.
  apply rbind_Ok_inv in Hs as ([recall fp] & Hrf & Hs).
  apply rbind_Ok_inv in Hs as (pass_rate & Hpass & Hs).
  apply rbind_Ok_inv in Hs as (fail_rate & Hfail & Hs).
  injection Hs as <-. simpl.
  pose proof (truediv_Ok_nonzero _ _ _ Hpass) as Hn.
  assert (Hpos : (0 < Z.of_nat n)%Z) by lia.
  split; [|split; [|split]].
  - rewrite (truediv_Ok_pos _ _ _ Hpass Hpos), (truediv_Ok_pos _ _ _ Hfail Hpos).
    unfold Qeq, Qplus. simpl.
    rewrite Pos2Z.inj_mul, Z2Pos.id by lia. ring.
  - unfold nat_set in Hrf.
    destruct (nodup Nat.eq_dec injected_idxs) as [|i inj] eqn:E.
    + apply rbind_Ok_inv in Hrf as (q & _ & [= <- <-]).
      split; [intros _|reflexivity].
      destruct injected_idxs as [|j l]; [reflexivity|].
      assert (Hin : In j (nodup Nat.eq_dec (j :: l)))
        by (apply nodup_In; now left).
      rewrite E in Hin. contradiction.
    + apply rbind_Ok_inv in Hrf as (q & _ & Hrf).
      apply rbind_Ok_inv in Hrf as (q' & _ & [= <- <-]).
      split; [discriminate|]. intros ->. discriminate.
  - intros r Hr. subst recall. unfold nat_set in Hrf.
    destruct (nodup Nat.eq_dec injected_idxs) as [|i inj] eqn:E.
    + apply rbind_Ok_inv in Hrf as (q & _ & [=]).
    + apply rbind_Ok_inv in Hrf as (q & Hq & Hrf).
      apply rbind_Ok_inv in Hrf as (q' & _ & [= <- <-]).
      destruct (truediv_unit
                  (zlen (filter (fun i0 => nat_mem i0 (nodup Nat.eq_dec failed))
                                (i :: inj)))
                  (zlen (i :: inj))) as (q0 & Hq0 & Hb).
      * unfold zlen.
        pose proof (filter_length_le
                      (fun i0 => nat_mem i0 (nodup Nat.eq_dec failed))
                      (i :: inj)).
        lia.
      * unfold zlen. simpl. lia.
      * rewrite Hq in Hq0. injection Hq0 as <-. exact Hb.
  - unfold nat_set in Hrf.
    assert (Hnonneg : forall a b q, (0 <= a)%Z -> (0 < b)%Z ->
              truediv a b = Ok q -> (0 <= q)%Q).
    { intros a b q Ha Hb Hq. rewrite (truediv_Ok_pos _ _ _ Hq Hb).
      unfold Qle. simpl. lia. }
    destruct (nodup Nat.eq_dec injected_idxs) as [|i inj] eqn:E.
    + apply rbind_Ok_inv in Hrf as (q & Hq & [= <- <-]).
      eapply Hnonneg; [| |exact Hq]; unfold zlen; lia.
    + apply rbind_Ok_inv in Hrf as (q & _ & Hrf).
      apply rbind_Ok_inv in Hrf as (q' & Hq' & [= <- <-]).
      eapply Hnonneg; [| |exact Hq']; unfold zlen; lia.
Qed.

Lemma scenario_result_invariants_witness :
  (audit_pass_rate sample_scenario + audit_fail_rate sample_scenario == 1)%Q /\
  (detection_recall sample_scenario = None <-> [1; 2] = @nil nat) /\
  (forall r, detection_recall sample_scenario = Some r ->
             (0 <= r)%Q /\ (r <= 1)%Q) /\
  (0 <= false_positive_rate sample_scenario)%Q.
Proof.
  apply (scenario_result_invariants 4 "sample" [1] [1; 2] sample_scenario).
  reflexivity.
Defined.
